(** * AgentPilot: the workflow graph model and its turn engine

    A shallow embedding of [src/members/workflow.py] (classes [Workflow],
    [WorkflowBehaviour] and the edge operations of [WorkflowSettings]) and of
    [merge_config_into_workflow_config] from [src/utils/helpers.py].  Further
    down come the other operations of the view on its lines (the walk,
    [load_inputs], [delete_selected_items], [InputSettings.save_config]) and
    the text and list helpers of [src/utils/helpers.py].

    Conventions of the embedding.
    - A JSON configuration document is a typed record; an absent key is an
      absent option (or an empty list), and the source's [.get(key, default)]
      becomes [default] applied to the field.
    - Identifiers are strings: the source applies [str(...)] to every id it
      compares.
    - A Python [dict] is an association list in insertion order; assigning an
      existing key keeps its position.  A Python [set] of ids is a
      [gset string].
    - A computation is a value of [run]: it returns, raises, or is still
      running when the fuel is spent.  Unbounded loops and recursions of the
      source take a fuel argument.
    - The classes [Agent], [User], [TextBlock], [Node], [Member] and
      [MessageHistory] are defined in other modules of the repository
      ([src/members/*.py], [src/utils/messages.py]) that this development
      does not embed.  A member object is the record of the arguments it was
      built with plus its two output slots; what a member's producer does
      during a turn is a script given from outside.
    - A member of kind ['workflow'] is a nested [Workflow]: building it
      loads the document it carries.  The loading is run for its outcome;
      the members it builds stay out of the member record.
    - A string is the UTF-8 encoding of the text. *)

From stdpp Require Import base option list strings pretty gmap sets sorting.
From Stdlib Require Import ZArith Lia.

Set Default Proof Using "Type".
#[local] Set Warnings "-register-all,-clear-no-such-hyp".

(** ** Outcomes of a computation *)

Inductive exn :=
  | KeyError
  | ValueError
  | AttributeError
  | NotImplementedError
  | CancelledError
  | StopIteration
  | ProducerError (msg : string).

Inductive run (A : Type) :=
  | Done (a : A)
  | Raised (e : exn)
  | OutOfFuel.
Arguments Done {A} a.
Arguments Raised {A} e.
Arguments OutOfFuel {A}.

#[global] Instance run_ret : MRet run := λ A a, Done a.
#[global] Instance run_bind : MBind run := λ A B k c,
  match c with
  | Done a => k a
  | Raised e => Raised e
  | OutOfFuel => OutOfFuel
  end.

(** A lookup that raises when the option is empty. *)
Definition or_raise {A} (e : exn) (o : option A) : run A :=
  match o with Some a => Done a | None => Raised e end.

(** ** Python containers *)

Section dict.
Context {K V : Type} `{EqDecision K}.

Fixpoint dict_get (d : list (K * V)) (k : K) : option V :=
  match d with
  | [] => None
  | (k', v) :: d' => if decide (k' = k) then Some v else dict_get d' k
  end.

(** [d[k] = v]: an existing key keeps its place, a new key goes last. *)
Fixpoint dict_set (d : list (K * V)) (k : K) (v : V) : list (K * V) :=
  match d with
  | [] => [(k, v)]
  | (k', v') :: d' =>
      if decide (k' = k) then (k, v) :: d' else (k', v') :: dict_set d' k v
  end.

Definition dict_keys (d : list (K * V)) : list K := d.*1.
Definition dict_values (d : list (K * V)) : list V := d.*2.

End dict.

(** [l.remove(x)]: drops the first element equal to [x]; [None] stands for
    the [ValueError] of an absent element. *)
Fixpoint list_remove `{EqDecision A} (x : A) (l : list A) : option (list A) :=
  match l with
  | [] => None
  | y :: l' => if decide (y = x) then Some l' else (y ::.) <$> list_remove x l'
  end.

(** ** Configuration documents *)

(** One entry of the ['inputs'] list: an edge from [in_input_member_id]
    (the dependency) to [in_member_id] (the dependent). *)
Record input_info := InputInfo {
  in_member_id : string;
  in_input_member_id : string;
  in_input_type : string;
  in_looper : bool            (* config.get('looper', False) *)
}.

(** One entry of the ['members'] list, over the type of its ['config']. *)
Record member_dict_of (C : Type) := MemberDict {
  md_id : string;
  md_agent_id : option string;
  md_loc_x : Z;
  md_loc_y : Z;
  md_config : C
}.
Arguments MemberDict {C}.
Arguments md_id {C}.
Arguments md_agent_id {C}.
Arguments md_loc_x {C}.
Arguments md_loc_y {C}.
Arguments md_config {C}.

(** A configuration document: a workflow document when ['_TYPE'] is
    ["workflow"], a single-entity document otherwise. *)
Inductive config := Config {
  cfg_TYPE : option string;                      (* '_TYPE' *)
  cfg_members : list (member_dict_of config);    (* 'members' *)
  cfg_inputs : list input_info;                  (* 'inputs' *)
  cfg_autorun : option bool;                     (* ['config']['autorun'] *)
  cfg_filter_role : option string;               (* ['config']['filter_role'] *)
  cfg_info_name : option string                  (* 'info.name' *)
}.

Abbreviation member_dict := (member_dict_of config).

#[global] Instance input_info_eq_dec : EqDecision input_info.
Proof. solve_decision. Defined.

Fixpoint config_eq_dec (a b : config) {struct a} : {a = b} + {a ≠ b}.
Proof.
  destruct a as [t ms ins ar fr nm], b as [t' ms' ins' ar' fr' nm'].
  destruct (decide (t = t')); [|right; congruence].
  destruct (decide (ins = ins')); [|right; congruence].
  destruct (decide (ar = ar')); [|right; congruence].
  destruct (decide (fr = fr')); [|right; congruence].
  destruct (decide (nm = nm')); [|right; congruence].
  assert (Hms : {ms = ms'} + {ms ≠ ms'}).
  { clear -config_eq_dec. revert ms'.
    induction ms as [|[i a x y c] ms IH]; intros [|[i' a' x' y' c'] ms'];
      try (right; congruence); [left; reflexivity|].
    destruct (decide (i = i')); [|right; congruence].
    destruct (decide (a = a')); [|right; congruence].
    destruct (decide (x = x')); [|right; congruence].
    destruct (decide (y = y')); [|right; congruence].
    destruct (config_eq_dec c c'); [|right; congruence].
    destruct (IH ms'); [|right; congruence].
    left; congruence. }
  destruct Hms; [left; congruence | right; congruence].
Defined.

#[global] Instance config_eqdec : EqDecision config := config_eq_dec.
#[global] Instance member_dict_eqdec : EqDecision member_dict.
Proof. solve_decision. Defined.

(** [config.get('_TYPE', 'agent')] *)
Definition config_TYPE (c : config) : string := default "agent" (cfg_TYPE c).

(** [{"_TYPE": "user"}] *)
Definition user_config : config :=
  Config (Some "user") [] [] None None None.

(** [merge_config_into_workflow_config] (helpers.py). *)
Definition merge_config_into_workflow_config
    (cfg : config) (entity_id : option string) : config :=
  let member_type := config_TYPE cfg in
  if decide (member_type = "workflow") then cfg
  else
    let members :=
      if decide (member_type = "agent") then
        [ MemberDict "1" None 20 64 user_config;
          MemberDict "2" entity_id 100 80 cfg ]
      else
        [ MemberDict "1" None 100 80 cfg ] in
    Config (Some "workflow") members [] None None None.

(** ** Members and workflows *)

(** Modelled from the spec: the base class [Member] ([src/members/base.py]),
    of which only the uses are embedded here.  Following section 3, a
    participant has an id, a configuration that carries its kind, a
    position, the ids it depends on, and the two output slots; its
    constructor keeps the keyword arguments [load_members] passes
    ([member_id], [config], [agent_id], [loc_x], [loc_y], [inputs]) and
    starts with both slots unset. *)
Record Member := mkMember {
  member_id : string;
  m_config : config;
  agent_id : option string;
  loc_x : Z;
  loc_y : Z;
  inputs : list string;
  last_output : option string;
  turn_output : option string
}.

#[global] Instance Member_eq_dec : EqDecision Member.
Proof. solve_decision. Defined.

(** [member.config.get('_TYPE', 'agent')] *)
Definition member_TYPE (m : Member) : string := config_TYPE (m_config m).

(** One stored message, and the part of [MessageHistory] the engine
    touches. *)
Record message := Message {
  msg_role : string;
  msg_content : string;
  msg_member_id : string;
  msg_alt_turn : Z
}.

Record MessageHistory := mkHistory {
  alt_turn_state : Z;
  messages : list message
}.

Record Workflow := mkWorkflow {
  wf_config : config;                  (* self.config *)
  has_parent : bool;                   (* self._parent_workflow is not None *)
  members : list (string * Member);    (* self.members *)
  boxes : list (gset string);          (* self.boxes *)
  autorun : bool;
  gen_members : list string;
  responding : bool;
  stop_requested : bool;
  chat_name : string;
  message_history : MessageHistory
}.

#[global] Instance message_eq_dec : EqDecision message.
Proof. solve_decision. Defined.
#[global] Instance MessageHistory_eq_dec : EqDecision MessageHistory.
Proof. solve_decision. Defined.
#[global] Instance Workflow_eq_dec : EqDecision Workflow.
Proof. solve_decision. Defined.

Definition set_members (f : list (string * Member) → list (string * Member))
    (w : Workflow) : Workflow :=
  mkWorkflow (wf_config w) (has_parent w) (f (members w)) (boxes w) (autorun w)
    (gen_members w) (responding w) (stop_requested w) (chat_name w)
    (message_history w).

Definition set_boxes (f : list (gset string) → list (gset string))
    (w : Workflow) : Workflow :=
  mkWorkflow (wf_config w) (has_parent w) (members w) (f (boxes w)) (autorun w)
    (gen_members w) (responding w) (stop_requested w) (chat_name w)
    (message_history w).

Definition set_gen_members (g : list string) (w : Workflow) : Workflow :=
  mkWorkflow (wf_config w) (has_parent w) (members w) (boxes w) (autorun w)
    g (responding w) (stop_requested w) (chat_name w) (message_history w).

Definition set_responding (b : bool) (w : Workflow) : Workflow :=
  mkWorkflow (wf_config w) (has_parent w) (members w) (boxes w) (autorun w)
    (gen_members w) b (stop_requested w) (chat_name w) (message_history w).

Definition set_chat_name (s : string) (w : Workflow) : Workflow :=
  mkWorkflow (wf_config w) (has_parent w) (members w) (boxes w) (autorun w)
    (gen_members w) (responding w) (stop_requested w) s (message_history w).

Definition set_message_history (h : MessageHistory) (w : Workflow) : Workflow :=
  mkWorkflow (wf_config w) (has_parent w) (members w) (boxes w) (autorun w)
    (gen_members w) (responding w) (stop_requested w) (chat_name w) h.

(** ** Lookup operations of [Workflow] *)

Definition all_types : list string :=
  ["agent"; "workflow"; "user"; "tool"; "block"; "node"].

(** [get_members(incl_types, excl_types)]; [None] is the default ['all']. *)
Definition get_members (self : Workflow)
    (incl_types : option (list string)) (excl_types : list string)
  : list Member :=
  let incl_types := default all_types incl_types in
  let excl_types := excl_types ++ ["node"] in
  let incl_types := filter (λ t, t ∉ excl_types) incl_types in
  filter (λ m, member_TYPE m ∈ incl_types) (dict_values (members self)).

(** [count_members(incl_types, excl_initial_user)] *)
Definition count_members (self : Workflow)
    (incl_types : option (list string)) (excl_initial_user : bool) : nat :=
  let extra_user_count :=
    Nat.max (length (get_members self (Some ["user"]) []) - 1) 0 in
  let excl_types := if excl_initial_user then ["user"] else [] in
  let matched_members := get_members self incl_types excl_types in
  length matched_members + (if excl_initial_user then extra_user_count else 0).

(** [next_expected_member()]: the first member with no turn output. *)
Definition next_expected_member (self : Workflow) : option Member :=
  head (filter (λ m, turn_output m = None) (get_members self None [])).

(** [next_expected_is_last_member()] *)
Definition next_expected_is_last_member (self : Workflow) : bool :=
  bool_decide
    (length (filter (λ m, turn_output m = None) (get_members self None [])) = 1).

(** [get_member_async_group(member_id)]: a box that holds the id is never
    empty, so the result is truthy exactly when it is not [None]. *)
Definition get_member_async_group (self : Workflow) (member_id : string)
  : option (gset string) :=
  head (filter (λ box, member_id ∈ box) (boxes self)).

(** [walk_inputs_recursive(member_id, search_list)].  [found or f()] does
    not call [f] once [found] holds. *)
Fixpoint walk_inputs_recursive (fuel : nat) (self : Workflow)
    (member_id : string) (search_list : gset string) : run bool :=
  match fuel with
  | O => OutOfFuel
  | S fuel' =>
      member ← or_raise KeyError (dict_get (members self) member_id);
      (fix for_inp (inps : list string) (found : bool) : run bool :=
         match inps with
         | [] => Done found
         | inp :: rest =>
             if decide (inp ∈ search_list) then Done true
             else if found then for_inp rest true
             else
               r ← walk_inputs_recursive fuel' self inp search_list;
               for_inp rest r
         end) (inputs member) false
  end.

(** ** [Workflow.load_members] *)

(** The non-loop dependencies of a member: the comprehension building
    [member_input_ids]. *)
Definition member_input_ids (inputs : list input_info) (member_id : string)
  : list string :=
  in_input_member_id <$>
    filter (λ i, in_member_id i = member_id ∧ in_looper i = false) inputs.

(** [sorted(members, key=lambda x: x['loc_x'])]: a stable sort, here by
    insertion. *)
Fixpoint insert_by_loc_x (x : member_dict) (l : list member_dict)
  : list member_dict :=
  match l with
  | [] => [x]
  | y :: l' =>
      if bool_decide (md_loc_x x ≤ md_loc_x y)%Z then x :: y :: l'
      else y :: insert_by_loc_x x l'
  end.

Definition sorted_by_loc_x (l : list member_dict) : list member_dict :=
  foldr insert_by_loc_x [] l.

(** The kinds the [if]/[elif] chain of [load_members] builds a member for;
    any other kind raises [NotImplementedError]. *)
Definition known_member_types : list string :=
  ["agent"; "workflow"; "user"; "block"; "node"].

(** The kinds that take part in the grouping by position. *)
Definition boxed_member_types : list string := ["workflow"; "agent"; "block"].

(** The local variables of [load_members] that live across iterations. *)
Record load_locals := LoadLocals {
  ll_members : list member_dict;        (* [members]: not yet instantiated *)
  ll_iterable : list member_dict;       (* what [iterable] has yet to give *)
  ll_last_member_id : option string;
  ll_last_loc_x : Z;
  ll_current_box_member_ids : gset string
}.

(** The test that sends the loop to the next candidate: some non-loop
    dependency of the member is not instantiated yet. *)
Definition deferred (inputs : list input_info) (self : Workflow)
    (member_id : string) : bool :=
  let input_ids := member_input_ids inputs member_id in
  bool_decide (0 < length input_ids)
  && negb (bool_decide (Forall (λ i, i ∈ dict_keys (members self)) input_ids)).

(** The grouping by position done for each member of a boxed kind; gives
    the new [self.boxes], [current_box_member_ids], [last_loc_x] and
    [last_member_id]. *)
Definition group_by_position (member_type member_id : string) (loc_x : Z)
    (bs : list (gset string)) (l : load_locals)
  : list (gset string) * gset string * Z * option string :=
  if decide (member_type ∈ boxed_member_types) then
    if bool_decide (Z.abs (loc_x - ll_last_loc_x l) < 10)%Z then
      let current :=
        match ll_last_member_id l with
        | Some last => ll_current_box_member_ids l ∪ {[ last ]}
        | None => ll_current_box_member_ids l
        end in
      (bs, current ∪ {[ member_id ]}, loc_x, Some member_id)
    else if decide (ll_current_box_member_ids l = ∅) then
      (bs, ll_current_box_member_ids l, loc_x, Some member_id)
    else
      (bs ++ [ll_current_box_member_ids l], ∅, loc_x, Some member_id)
  else
    (bs, ll_current_box_member_ids l, ll_last_loc_x l, ll_last_member_id l).

(** [iterable = ...]: the other locals are kept. *)
Definition set_iterable (it : list member_dict) (l : load_locals) : load_locals :=
  LoadLocals (ll_members l) it (ll_last_member_id l) (ll_last_loc_x l)
    (ll_current_box_member_ids l).

(** The member built for an entry.  Which class is instantiated ([Agent] or
    an agent plug-in, [Workflow], [User], [TextBlock] or a block plug-in,
    [Node]) shows in the kind the object carries.  The constructors of the
    classes defined outside [workflow.py] and their [load()] are taken to
    return.  For the kind ['workflow'] the constructor is
    [Workflow.__init__], which loads the nested document, and
    [member.load()] loads it once more: this is [load_nested], which the
    loop gives to the instantiation.  Of the nested loading the embedding
    keeps the outcome (it returns, raises or has not returned when the fuel
    is spent); the members of the nested workflow are not part of the
    member record. *)
Definition instantiate_member (load_nested : config → run unit)
    (member_dict : member_dict) (member_input_ids : list string) : run Member :=
  let member_type := config_TYPE (md_config member_dict) in
  if decide (member_type ∈ known_member_types) then
    _ ← (if decide (member_type = "workflow")
         then load_nested (md_config member_dict) else Done ());
    Done (mkMember (md_id member_dict) (md_config member_dict)
            (md_agent_id member_dict) (md_loc_x member_dict)
            (md_loc_y member_dict) member_input_ids None None)
  else Raised NotImplementedError.

(** One pass through the body of the [while] loop. *)
Definition load_iteration (load_nested : config → run unit)
    (inputs : list input_info)
    (self : Workflow) (l : load_locals) : run (Workflow * load_locals) :=
  match ll_iterable l with
  | [] =>
      (* StopIteration: start over from the head of [members] *)
      Done (self, set_iterable (ll_members l) l)
  | member_dict :: rest =>
      let member_id := md_id member_dict in
      let input_ids := member_input_ids inputs member_id in
      if deferred inputs self member_id then
        Done (self, set_iterable rest l)
      else
        member ← instantiate_member load_nested member_dict input_ids;
        let member_type := config_TYPE (md_config member_dict) in
        let '(boxes', current, last_x, last_id) :=
          group_by_position member_type member_id (md_loc_x member_dict)
            (boxes self) l in
        members' ← or_raise ValueError (list_remove member_dict (ll_members l));
        Done (set_members (λ ms, dict_set ms member_id member)
                (set_boxes (λ _, boxes') self),
              LoadLocals members' members' last_id last_x current)
  end.

(** The members and inputs [load_members] reads from [self.config]. *)
Definition config_members (cfg : config) : list member_dict :=
  if decide (config_TYPE cfg = "workflow") then cfg_members cfg
  else cfg_members (merge_config_into_workflow_config cfg None).

(** The inner [for member_id in box] with its [break]. *)
Fixpoint box_reaches_itself (fuel : nat) (self : Workflow)
    (member_ids : list string) (box : gset string) : run bool :=
  match member_ids with
  | [] => Done false
  | member_id :: rest =>
      fnd ← walk_inputs_recursive fuel self member_id box;
      if fnd : bool then Done true
      else box_reaches_itself fuel self rest box
  end.

(** [for box in self.boxes: ...], collecting [del_boxes]. *)
Fixpoint collect_del_boxes (fuel : nat) (self : Workflow)
    (bs : list (gset string)) : run (list (gset string)) :=
  match bs with
  | [] => Done []
  | box :: rest =>
      fnd ← box_reaches_itself fuel self (elements box) box;
      del_boxes ← collect_del_boxes fuel self rest;
      Done (if fnd : bool then box :: del_boxes else del_boxes)
  end.

(** [for box in del_boxes: self.boxes.remove(box)] *)
Fixpoint remove_boxes (del_boxes bs : list (gset string))
  : run (list (gset string)) :=
  match del_boxes with
  | [] => Done bs
  | box :: rest =>
      bs' ← or_raise ValueError (list_remove box bs);
      remove_boxes rest bs'
  end.

(** The validation of the groups that follows the grouping. *)
Definition validate_boxes (fuel : nat) (self : Workflow) : run Workflow :=
  del_boxes ← collect_del_boxes fuel self (boxes self);
  bs ← remove_boxes del_boxes (boxes self);
  Done (set_boxes (λ _, bs) self).

(** The chat name set at the end of [load_members];
    [next(iter(other_members))] raises on an empty list. *)
Definition load_chat_name (self : Workflow) : run Workflow :=
  let counted_members := count_members self None true in
  if decide (counted_members = 1) then
    m ← or_raise StopIteration (head (get_members self None ["user"]));
    Done (set_chat_name (default "Assistant" (cfg_info_name (m_config m))) self)
  else
    Done (set_chat_name (pretty counted_members +:+ " members") self).

(** ** Creating and loading a workflow *)

(** The fields [Workflow.__init__] sets before it calls [load]. *)
Definition new_workflow (cfg : config) (parent : bool) : Workflow :=
  mkWorkflow cfg parent [] [] true [] false false "" (mkHistory 0 []).

(** [load_members] and [load] call the [while] loop, and the loop, through
    the constructor of a nested workflow, calls [load] again.  The bodies
    of [load_members] and [load] are therefore written over the loop they
    run, and the loop below ties the knot. *)
Section load_with.

Variable loop :
  list input_info → Workflow → load_locals → run (Workflow * load_locals).
Variable fuel : nat.

(** [load_members] up to and including the last flush of the group being
    built: the instantiation loop and the grouping by position. *)
Definition load_members_grouping_with (self : Workflow) : run Workflow :=
  let members := sorted_by_loc_x (config_members (wf_config self)) in
  let inputs := cfg_inputs (wf_config self) in
  let self := set_boxes (λ _, []) (set_members (λ _, []) self) in
  '(self, l) ← loop inputs self (LoadLocals members members None (-100) ∅);
  if decide (ll_current_box_member_ids l = ∅) then Done self
  else Done (set_boxes (λ bs, bs ++ [ll_current_box_member_ids l]) self).

(** [load_members], but for the choice of a behaviour plug-in. *)
Definition load_members_with (self : Workflow) : run Workflow :=
  self ← load_members_grouping_with self;
  self ← validate_boxes fuel self;
  load_chat_name self.

(** [load]: the autorun flag, then the members. *)
Definition load_with (self : Workflow) : run Workflow :=
  let self :=
    mkWorkflow (wf_config self) (has_parent self) (members self) (boxes self)
      (default true (cfg_autorun (wf_config self)))
      (gen_members self) (responding self) (stop_requested self)
      (chat_name self) (message_history self) in
  load_members_with self.

(** [member = Workflow(...)] followed by [member.load()] for a nested
    workflow: [__init__] sets the fields and ends with [self.load()], and
    the body of the loop calls [member.load()] on what it built. *)
Definition load_nested_with (member_config : config) : run unit :=
  member ← load_with (new_workflow member_config true);
  _ ← load_with member;
  Done ().

End load_with.

(** [while len(members) > 0: ...].  A nested workflow is loaded with the
    fuel the loop has left. *)
Fixpoint load_loop (fuel : nat) (inputs : list input_info)
    (self : Workflow) (l : load_locals) : run (Workflow * load_locals) :=
  match ll_members l with
  | [] => Done (self, l)
  | _ :: _ =>
      match fuel with
      | O => OutOfFuel
      | S fuel' =>
          '(self', l') ← load_iteration
                           (load_nested_with (load_loop fuel') fuel')
                           inputs self l;
          load_loop fuel' inputs self' l'
      end
  end.

(** The nested loading the loop does with [fuel] left. *)
Definition load_nested (fuel : nat) (member_config : config) : run unit :=
  load_nested_with (load_loop fuel) fuel member_config.

Definition load_members_grouping (fuel : nat) (self : Workflow) : run Workflow :=
  load_members_grouping_with (load_loop fuel) self.

Definition load_members (fuel : nat) (self : Workflow) : run Workflow :=
  load_members_with (load_loop fuel) fuel self.

Definition load (fuel : nat) (self : Workflow) : run Workflow :=
  load_with (load_loop fuel) fuel self.

(** ** [Workflow.save_message] *)

(** The white space [str.strip()] removes is what [str.isspace] accepts:
    U+0009 to U+000D, U+001C to U+0020, U+0085, U+00A0, U+1680, U+2000 to
    U+200A, U+2028, U+2029, U+202F, U+205F and U+3000.  A string of the
    embedding is the UTF-8 encoding of the text, so that a white space
    character takes one, two or three bytes. *)

(** The white space of one byte. *)
Definition is_space (c : Ascii.ascii) : bool :=
  let n := Ascii.nat_of_ascii c in
  bool_decide (n = 32 ∨ (9 ≤ n ∧ n ≤ 13) ∨ (28 ≤ n ∧ n ≤ 31)).

(** The white space of two bytes: U+0085 and U+00A0. *)
Definition is_space2 (c1 c2 : Ascii.ascii) : bool :=
  let b1 := Ascii.nat_of_ascii c1 in
  let b2 := Ascii.nat_of_ascii c2 in
  bool_decide (b1 = 194 ∧ (b2 = 133 ∨ b2 = 160)).

(** The white space of three bytes: U+1680, U+2000 to U+200A, U+2028,
    U+2029, U+202F, U+205F and U+3000. *)
Definition is_space3 (c1 c2 c3 : Ascii.ascii) : bool :=
  let b1 := Ascii.nat_of_ascii c1 in
  let b2 := Ascii.nat_of_ascii c2 in
  let b3 := Ascii.nat_of_ascii c3 in
  bool_decide
    ((b1 = 225 ∧ b2 = 154 ∧ b3 = 128)
     ∨ (b1 = 226 ∧ b2 = 128
        ∧ ((128 ≤ b3 ∧ b3 ≤ 138) ∨ b3 = 168 ∨ b3 = 169 ∨ b3 = 175))
     ∨ (b1 = 226 ∧ b2 = 129 ∧ b3 = 159)
     ∨ (b1 = 227 ∧ b2 = 128 ∧ b3 = 128)).

(** Every character of the text is white space. *)
Fixpoint all_space (cs : list Ascii.ascii) : bool :=
  match cs with
  | [] => true
  | c1 :: cs1 =>
      if is_space c1 then all_space cs1
      else
        match cs1 with
        | [] => false
        | c2 :: cs2 =>
            if is_space2 c1 c2 then all_space cs2
            else
              match cs2 with
              | [] => false
              | c3 :: cs3 => is_space3 c1 c2 c3 && all_space cs3
              end
        end
  end.

(** [content.strip() == '']: stripping leaves nothing exactly when every
    character is white space. *)
Definition strip_is_empty (content : string) : bool :=
  all_space (String.list_ascii_of_string content).

(** Modelled from the spec: [MessageHistory.add] ([src/utils/messages.py]),
    of which only the call is embedded here.  Following section 4.4, the append stores the message
    and returns its id; here the message carries the turn parity current at
    the append and its id is its position in the history. *)
Definition history_add (h : MessageHistory) (role content member_id : string)
  : MessageHistory * option nat :=
  (mkHistory (alt_turn_state h)
     (messages h ++ [Message role content member_id (alt_turn_state h)]),
   Some (S (length (messages h)))).

(** The content [save_message] goes on with. *)
Definition normalized_content (role content : string) : string :=
  if decide (role = "output") then
    if strip_is_empty content then "The code executed without any output"
    else content
  else content.

(** [save_message(role, content, member_id)]: the workflow afterwards and
    the returned message id. *)
Definition save_message (self : Workflow) (role content member_id : string)
  : Workflow * option nat :=
  let content := normalized_content role content in
  if decide (content = "") then (self, None)
  else
    let new_run :=
      bool_decide (None ∉ (turn_output <$> get_members self None [])) in
    let h := message_history self in
    let h := if new_run then mkHistory (1 - alt_turn_state h) (messages h)
             else h in
    let '(h, id) := history_add h role content member_id in
    (set_message_history h self, id).

(** ** [WorkflowBehaviour.receive]: one turn *)

(** [str.lower()] on ASCII letters. *)
Definition ascii_lower (c : Ascii.ascii) : Ascii.ascii :=
  let n := Ascii.nat_of_ascii c in
  if bool_decide (65 ≤ n ∧ n ≤ 90) then Ascii.ascii_of_nat (n + 32) else c.

Fixpoint lower (s : string) : string :=
  match s with
  | EmptyString => EmptyString
  | String c s' => String (ascii_lower c) (lower s')
  end.

(** What the producer of a member does, step by step: it writes an output
    slot, saves a message, hands a [(key, chunk)] pair to the engine, or
    raises (a cancellation reaches the engine as a raised
    [CancelledError]).  The script ends when the producer is exhausted. *)
Inductive producer_step :=
  | SetTurnOutput (id : string) (v : option string)
  | SetLastOutput (id : string) (v : option string)
  | SaveMessage (role content member_id : string)
  | Emit (key chunk : string)
  | Throw (e : exn).

Definition producer := list producer_step.

Definition with_turn_output (v : option string) (m : Member) : Member :=
  mkMember (member_id m) (m_config m) (agent_id m) (loc_x m) (loc_y m)
    (inputs m) (last_output m) v.

Definition with_last_output (v : option string) (m : Member) : Member :=
  mkMember (member_id m) (m_config m) (agent_id m) (loc_x m) (loc_y m)
    (inputs m) v (turn_output m).

(** Changing in place the member stored under a key. *)
Definition dict_alter {K V} `{EqDecision K} (f : V → V) (k : K)
    (d : list (K * V)) : list (K * V) :=
  (λ kv, if decide (kv.1 = k) then (kv.1, f kv.2) else kv) <$> d.

(** The writes of a producer to the workflow. *)
Definition apply_write (s : producer_step) (self : Workflow) : Workflow :=
  match s with
  | SetTurnOutput id v => set_members (dict_alter (with_turn_output v) id) self
  | SetLastOutput id v => set_members (dict_alter (with_last_output v) id) self
  | SaveMessage role content member_id =>
      (save_message self role content member_id).1
  | Emit _ _ | Throw _ => self
  end.

(** A pair handed to the caller, with the workflow as it was at the
    [yield] and the member whose producer gave the pair. *)
Record yielded := Yielded {
  y_state : Workflow;
  y_member : Member;
  y_key : string;
  y_chunk : string
}.

#[global] Instance yielded_eq_dec : EqDecision yielded.
Proof. solve_decision. Defined.

(** How the body of the [try] block was left. *)
Inductive body_exit :=
  | body_end                 (* the loop and what follows it ran to the end *)
  | body_return              (* a [return] inside the loop *)
  | body_raise (e : exn).    (* an exception leaves the body *)

(** How a turn ended, as seen by the caller. *)
Inductive turn_exit :=
  | exit_no_members          (* the early return before the [try] *)
  | exit_completed
  | exit_paused
  | exit_cancelled
  | exit_error (e : exn).

Record turn := Turn {
  t_self : Workflow;
  t_out : list yielded;
  t_exit : turn_exit
}.

(** [member == nem]: the same member object of the mapping. *)
Definition same_member (member : Member) (nem : option Member) : bool :=
  match nem with
  | Some m => bool_decide (member_id m = member_id member)
  | None => false
  end.

(** The test under which a pair of an ungrouped member is yielded. *)
Definition yields (self : Workflow) (member : Member) (filter_role key : string)
  : bool :=
  let nem := next_expected_member self in
  next_expected_is_last_member self && same_member member nem
  && bool_decide (key = filter_role ∨ filter_role = "all").

(** [async for key, chunk in member.run_member(): ...] for an ungrouped
    member; [None] when the loop ended or broke off, [Some e] when the
    producer raised [e]. *)
Fixpoint stream_member (filter_role : string) (member : Member) (p : producer)
    (self : Workflow) (out : list yielded)
  : Workflow * list yielded * option exn :=
  match p with
  | [] => (self, out, None)
  | Throw e :: _ => (self, out, Some e)
  | Emit key chunk :: p' =>
      if bool_decide (key = "SYS" ∧ chunk = "SKIP") then (self, out, None)
      else if yields self member filter_role key then
        stream_member filter_role member p' self
          (out ++ [Yielded self member key chunk])
      else stream_member filter_role member p' self out
  | s :: p' => stream_member filter_role member p' (apply_write s self) out
  end.

(** [run_member_task]: the producer is driven to its end, its pairs are
    dropped. *)
Fixpoint drain_member (p : producer) (self : Workflow) : Workflow * option exn :=
  match p with
  | [] => (self, None)
  | Throw e :: _ => (self, Some e)
  | s :: p' => drain_member p' (apply_write s self)
  end.

Section turn_engine.

(** What the engine takes from other modules: the producer of each member
    ([Member.run_member]), the last message stored for a nested workflow
    ([MessageHistory.get]) with the path it is stored under
    ([Member.full_member_id]), and whether reading its log from the store
    raises. *)
Variable run_member : Member → producer.
Variable get_final_message : Workflow → option (string * string).
Variable full_member_id : Workflow → string.
Variable read_log : Workflow → option exn.

(** The first loop of [run_group]: a task for every member of the group not
    yet processed; [None] stands for the [KeyError] of an id that is not in
    the mapping. *)
Fixpoint group_tasks (self : Workflow) (member_ids : list string)
    (processed : gset string) : option (list Member * gset string) :=
  match member_ids with
  | [] => Some ([], processed)
  | member_id :: rest =>
      if decide (member_id ∈ processed) then group_tasks self rest processed
      else
        m ← dict_get (members self) member_id;
        '(tasks, processed) ← group_tasks self rest (processed ∪ {[ member_id ]});
        Some (m :: tasks, processed)
  end.

(** [asyncio.gather]: every task of the group has been started before
    the gathering, and a task that raises does not stop the others.  Here
    the scripts of the tasks run one after the other, each to its end (the
    interleaving of their writes is not modelled), and the exception
    gathered is the first one raised. *)
Fixpoint gather (tasks : list Member) (self : Workflow) : Workflow * option exn :=
  match tasks with
  | [] => (self, None)
  | m :: rest =>
      let '(self, e) := drain_member (run_member m) self in
      let '(self, e') := gather rest self in
      (self, match e with Some _ => e | None => e' end)
  end.

(** The [for member in self.workflow.members.values()] loop. *)
Fixpoint receive_loop (from_member_id : option string) (ms : list Member)
    (found_source : bool) (processed : gset string)
    (self : Workflow) (out : list yielded)
  : Workflow * list yielded * body_exit :=
  match ms with
  | [] => (self, out, body_end)
  | member :: rest =>
      let found_source :=
        found_source
        || bool_decide (Some (member_id member) = from_member_id
                        ∨ from_member_id = None) in
      if negb found_source then
        receive_loop from_member_id rest found_source processed self out
      else if decide (member_id member ∈ processed) then
        receive_loop from_member_id rest found_source processed self out
      else
        let filter_role :=
          lower (default "All" (cfg_filter_role (wf_config self))) in
        let async_group_member_ids :=
          get_member_async_group self (member_id member) in
        let '(self, out, processed, stop) :=
          match async_group_member_ids with
          | Some box =>
              let self := set_gen_members (elements box) self in
              match group_tasks self (elements box) processed with
              | Some (tasks, processed) =>
                  let '(self, e) := gather tasks self in
                  (self, out, processed,
                   match e with
                   | None | Some StopIteration => None
                   | Some e => Some (body_raise e)
                   end)
              | None => (self, out, processed, Some (body_raise KeyError))
              end
          | None =>
              let self := set_gen_members [member_id member] self in
              let '(self, out, e) :=
                stream_member filter_role member (run_member member) self out in
              (self, out, processed,
               match e with
               | None => None
               | Some StopIteration => Some body_return
               | Some e => Some (body_raise e)
               end)
          end in
        match stop with
        | Some e => (self, out, e)
        | None =>
            if negb (autorun self) then (self, out, body_return)
            else if bool_decide (member_TYPE member ∈ ["user"; "contact"])
                    && negb (bool_decide (Some (member_id member) = from_member_id))
            then (self, out, body_return)
            else receive_loop from_member_id rest found_source processed self out
        end
  end.

(** What follows the loop: a nested workflow hands its last message up. *)
Definition promote_final_message (self : Workflow) : Workflow * body_exit :=
  if has_parent self then
    match get_final_message self with
    | Some (role, content) =>
        match read_log self with
        | Some e => (self, body_raise e)
        | None =>
            ((save_message self role content (full_member_id self)).1, body_end)
        end
    | None => (self, body_end)
    end
  else (self, body_end).

(** The body of the [try] block. *)
Definition receive_body (from_member_id : option string) (self : Workflow)
  : Workflow * list yielded * body_exit :=
  let '(self, out, e) :=
    receive_loop from_member_id (dict_values (members self)) false ∅ self [] in
  match e with
  | body_end => let '(self, e) := promote_final_message self in (self, out, e)
  | _ => (self, out, e)
  end.

(** The [finally] clause. *)
Definition receive_finally (self : Workflow) : Workflow :=
  set_responding false (set_gen_members [] self).

(** [receive(from_member_id)], the caller taking every pair.
    [CancelledError] is swallowed, any other exception leaves the turn, and
    the [finally] clause runs in either case. *)
Definition receive (from_member_id : option string) (self : Workflow) : turn :=
  let self := set_gen_members [] self in
  if decide (length (members self) = 0) then Turn self [] exit_no_members
  else
    let self := set_responding true self in
    let '(self, out, e) := receive_body from_member_id self in
    let self := receive_finally self in
    Turn self out
      match e with
      | body_end => exit_completed
      | body_return => exit_paused
      | body_raise CancelledError => exit_cancelled
      | body_raise e => exit_error e
      end.

End turn_engine.

(** ** [WorkflowSettings]: the edges of the edited workflow *)

(** [ConnectionLine.config] *)
Record line_config := LineConfig {
  lc_input_type : string;
  lc_looper : bool                 (* config.get('looper', False) *)
}.

(** The line being drawn, [self.new_line]: its source member and the flag
    set while it is dragged. *)
Record new_connection := NewLine {
  nl_input_member_id : string;
  nl_looper : bool
}.

(** A member shown in the view. *)
Record DraggableMember := mkDraggable {
  dm_type : string;
  dm_x : Z;
  dm_y : Z
}.

Record WorkflowSettings := mkSettings {
  members_in_view : list (string * option DraggableMember);
  lines : list ((string * string) * line_config);   (* (member_id, input_member_id): line *)
  new_line : option new_connection;
  db_table : option string;
  selected_item_id : option string;
  saved_inputs : list (list input_info);   (* what [save_config] wrote, oldest first *)
  warnings : list string                   (* the message boxes shown *)
}.

(** The ['inputs'] part of [get_config()]. *)
Definition get_config_inputs (self : WorkflowSettings) : list input_info :=
  (λ kl, InputInfo kl.1.1 kl.1.2 (lc_input_type kl.2) (lc_looper kl.2))
    <$> lines self.

(** [save_config()]: nothing without a table; [NotImplementedError]
    without a selected item. *)
Definition save_config (self : WorkflowSettings) : run WorkflowSettings :=
  match db_table self with
  | None => Done self
  | Some _ =>
      match selected_item_id self with
      | None => Raised NotImplementedError
      | Some _ =>
          Done (mkSettings (members_in_view self) (lines self) (new_line self)
                  (db_table self) (selected_item_id self)
                  (saved_inputs self ++ [get_config_inputs self])
                  (warnings self))
      end
  end.

(** The list comprehension of [check_for_circular_references]: the sources
    of the non-loop lines whose target is one of [input_member_ids]. *)
Definition connected_input_members (self : WorkflowSettings)
    (input_member_ids : list string) : list string :=
  (λ kl, kl.1.2)
    <$> filter (λ kl, kl.1.1 ∈ input_member_ids ∧ lc_looper kl.2 = false)
          (lines self).

(** [check_for_circular_references(member_id, input_member_ids)] *)
Fixpoint check_for_circular_references (fuel : nat) (self : WorkflowSettings)
    (member_id : string) (input_member_ids : list string) : run bool :=
  match fuel with
  | O => OutOfFuel
  | S fuel' =>
      let connected := connected_input_members self input_member_ids in
      if decide (member_id ∈ connected) then Done true
      else if decide (length connected = 0) then Done false
      else check_for_circular_references fuel' self member_id connected
  end.

(** [add_input(member_id)] *)
Definition add_input (fuel : nat) (self : WorkflowSettings) (member_id : string)
  : run WorkflowSettings :=
  new_line ← or_raise AttributeError (new_line self);
  let input_member_id := nl_input_member_id new_line in
  if decide (member_id = input_member_id) then Done self
  else if decide ((member_id, input_member_id) ∈ dict_keys (lines self))
  then Done self
  else
    cr_check ← check_for_circular_references fuel self member_id
                 [input_member_id];
    let is_looper := nl_looper new_line in
    if cr_check && negb is_looper then
      Done (mkSettings (members_in_view self) (lines self) (Some new_line)
              (db_table self) (selected_item_id self) (saved_inputs self)
              (warnings self ++ ["Circular reference detected"]))
    else
      input_member ← or_raise KeyError
                       (dict_get (members_in_view self) input_member_id);
      member ← or_raise KeyError (dict_get (members_in_view self) member_id);
      match input_member with
      | None => Done self
      | Some _ =>
          let line := LineConfig "Message" is_looper in
          save_config
            (mkSettings (members_in_view self)
               (dict_set (lines self) (member_id, input_member_id) line)
               None (db_table self) (selected_item_id self)
               (saved_inputs self) (warnings self))
      end.

(* ================================================================== *)
(** * Vocabulary of the specification *)

(** [non_loop_edge inputs a b]: [b] is a direct dependency of [a] through an
    edge that is not flagged as a loop edge, so following an inbound edge of
    [a] leads to [b]. *)
Definition non_loop_edge (inputs : list input_info) (a b : string) : Prop :=
  ∃ i, i ∈ inputs ∧ in_member_id i = a ∧ in_input_member_id i = b
       ∧ in_looper i = false.

(** [b] is reached from [a] by following one or more inbound non-loop
    edges. *)
Definition reaches (inputs : list input_info) : relation string :=
  tc (non_loop_edge inputs).

(** No cycle remains once the loop-flagged edges are ignored. *)
Definition acyclic (inputs : list input_info) : Prop :=
  ∀ a, ¬ reaches inputs a a.

(** The member object [load_members] builds from a configured entry. *)
Definition built_member (ins : list input_info) (md : member_dict) : Member :=
  mkMember (md_id md) (md_config md) (md_agent_id md) (md_loc_x md)
    (md_loc_y md) (member_input_ids ins (md_id md)) None None.

(** The ids of the configured participants. *)
Definition config_ids (cfg : config) : list string :=
  md_id <$> config_members cfg.

(** Every dependency named by a non-loop edge is a configured participant.
    (A loop-flagged edge is never looked up by the loop.) *)
Definition dependencies_exist (cfg : config) : Prop :=
  ∀ i, i ∈ cfg_inputs cfg → in_looper i = false →
       in_input_member_id i ∈ config_ids cfg.

(** The kind of the entry is one [load_members] builds a member for. *)
Definition known_kind (md : member_dict) : Prop :=
  config_TYPE (md_config md) ∈ known_member_types.

#[global] Instance known_kind_dec md : Decision (known_kind md).
Proof. unfold known_kind. apply _. Defined.

(** The nested workflows among the entries load: with any fuel from some
    amount on, building the member of each and loading it return. *)
Definition nested_load_returns (mds : list member_dict) : Prop :=
  ∃ enough, ∀ fuel md,
    enough ≤ fuel → md ∈ mds → config_TYPE (md_config md) = "workflow" →
    load_nested fuel (md_config md) = Done ().

(** What a successful pass did: restarted the scan, skipped a member whose
    dependencies are not ready, or instantiated one member. *)
Inductive iteration_kind inputs self l : Workflow → load_locals → Prop :=
  | it_restart :
      ll_iterable l = [] →
      iteration_kind inputs self l self (set_iterable (ll_members l) l)
  | it_skip md rest :
      ll_iterable l = md :: rest →
      deferred inputs self (md_id md) = true →
      iteration_kind inputs self l self (set_iterable rest l)
  | it_instantiate md rest members' bs current last_x last_id :
      ll_iterable l = md :: rest →
      deferred inputs self (md_id md) = false →
      config_TYPE (md_config md) ∈ known_member_types →
      list_remove md (ll_members l) = Some members' →
      group_by_position (config_TYPE (md_config md)) (md_id md) (md_loc_x md)
        (boxes self) l = (bs, current, last_x, last_id) →
      iteration_kind inputs self l
        (set_members (λ ms, dict_set ms (md_id md) (built_member inputs md))
           (set_boxes (λ _, bs) self))
        (LoadLocals members' members' last_id last_x current).

(** Every member object carries its own id and the non-loop dependencies
    of that id. *)
Definition inputs_recorded (ins : list input_info) (self : Workflow) : Prop :=
  ∀ k m, dict_get (members self) k = Some m →
         member_id m = k ∧ inputs m = member_input_ids ins k.

(** The walk from some member of the box has answered [True]: the box is
    one the first loop of the validation puts on [del_boxes]. *)
Definition box_found (fuel : nat) (self : Workflow) (box : gset string) : Prop :=
  box_reaches_itself fuel self (elements box) box = Done true.

#[local] Instance box_found_dec fuel self box : Decision (box_found fuel self box).
Proof.
  unfold box_found.
  destruct (box_reaches_itself fuel self (elements box) box) as [[]| |];
    [left | right | right | right]; congruence.
Defined.

(** What holds of the loop state throughout the instantiation, with [cfgm]
    the configured entries and [ins] the configured edges. *)
Record loading (cfgm : list member_dict) (ins : list input_info)
    (self : Workflow) (l : load_locals) : Prop := Loading {
  loading_iterable : ll_iterable l ⊆ ll_members l;
  loading_pending : ll_members l ⊆ cfgm;
  loading_covered :
    ∀ md, md ∈ cfgm →
          md ∈ ll_members l ∨ md_id md ∈ dict_keys (members self);
  loading_built :
    ∀ k m, dict_get (members self) k = Some m →
           ∃ md, md ∈ cfgm ∧ md_id md = k ∧ m = built_member ins md;
  loading_nodup : NoDup (dict_keys (members self))
}.

(** The edge relation confined to a set of ids still to be instantiated. *)
Definition pending_edge (ins : list input_info) (pending : list string)
  : relation string :=
  λ a b, non_loop_edge ins a b ∧ b ∈ pending.

(** The members of the given kinds, in the order of the mapping (with
    distinct ids: the order in which they were instantiated). *)
Definition members_of_kinds (kinds : list string) (ms : list (string * Member))
  : list Member :=
  filter (λ m, member_TYPE m ∈ kinds) (dict_values ms).

(** The first ordinates of two members differ by less than the threshold
    of ten. *)
Definition near (a b : Member) : Prop := (Z.abs (loc_x b - loc_x a) < 10)%Z.

(** Every two members that follow one another among those of the given
    kinds and lie near each other share a group of [bs]. *)
Definition adjacent_grouped (kinds : list string) (bs : list (gset string))
    (ms : list (string * Member)) : Prop :=
  ∀ pre a b post,
    members_of_kinds kinds ms = pre ++ a :: b :: post → near a b →
    ∃ box, box ∈ bs ∧ member_id a ∈ box ∧ member_id b ∈ box.

(** Every id in a group of [bs] belongs to a member of one of the given
    kinds. *)
Definition groups_of_kinds (kinds : list string) (bs : list (gset string))
    (ms : list (string * Member)) : Prop :=
  ∀ box id, box ∈ bs → id ∈ box →
    ∃ m, dict_get ms id = Some m ∧ member_TYPE m ∈ kinds.

(** What the grouping by position keeps true during the instantiation,
    when the configured ids are distinct. *)
Record grouping (self : Workflow) (l : load_locals) : Prop := Grouping {
  grouping_fresh :
    ∀ md, md ∈ ll_members l → md_id md ∉ dict_keys (members self);
  grouping_pending : NoDup (md_id <$> ll_members l);
  grouping_lookup :
    ∀ m, m ∈ dict_values (members self) →
         dict_get (members self) (member_id m) = Some m;
  grouping_last_id :
    ll_last_member_id l
    = member_id <$> last (members_of_kinds boxed_member_types (members self));
  grouping_last_x :
    ll_last_loc_x l
    = default (-100)%Z
        (loc_x <$> last (members_of_kinds boxed_member_types (members self)));
  grouping_pairs :
    adjacent_grouped boxed_member_types
      (boxes self ++ [ll_current_box_member_ids l]) (members self);
  grouping_kinds :
    groups_of_kinds boxed_member_types
      (boxes self ++ [ll_current_box_member_ids l]) (members self)
}.

(** The non-loop lines as a relation: [line_edge self a b] when the line
    keyed [(a, b)] is not flagged as a loop, so [b] is an input of [a]. *)
Definition line_edge (self : WorkflowSettings) (a b : string) : Prop :=
  ∃ c, ((a, b), c) ∈ lines self ∧ lc_looper c = false.

(** A way to see that a configuration is acyclic: a rank that decreases
    along every non-loop edge. *)
Definition ranked (rank : string → nat) (ins : list input_info) : Prop :=
  Forall (λ i, in_looper i = false →
               rank (in_input_member_id i) < rank (in_member_id i)) ins.

#[global] Instance ranked_dec rank ins : Decision (ranked rank ins).
Proof. unfold ranked. apply _. Defined.

(** [dependencies_exist], entry by entry. *)
Definition dependencies_listed (cfg : config) : Prop :=
  Forall (λ i, in_looper i = false →
               in_input_member_id i ∈ config_ids cfg) (cfg_inputs cfg).

#[global] Instance dependencies_listed_dec cfg : Decision (dependencies_listed cfg).
Proof. unfold dependencies_listed. apply _. Defined.

(** The kinds the specification calls substantive. *)
Definition substantive_kinds_as_stated : list string :=
  ["user"; "agent"; "workflow"; "block"].

(** The kinds [get_members()] lets through by default. *)
Definition turn_kinds : list string :=
  ["agent"; "workflow"; "user"; "tool"; "block"].

(** The ids and kinds of the members of a workflow, in mapping order. *)
Definition member_kinds (self : Workflow) : list (string * string) :=
  (λ km, (km.1, member_TYPE km.2)) <$> members self.

(** The non-loop lines form no cycle. *)
Definition acyclic_lines (self : WorkflowSettings) : Prop :=
  ∀ a, ¬ tc (line_edge self) a a.

(** No walk of more than [k] non-loop lines starts in [front]. *)
Definition walks_bounded (self : WorkflowSettings) (front : list string)
    (k : nat) : Prop :=
  ∀ s y, s ∈ front → ¬ nsteps (line_edge self) (S k) s y.

(** The settings after [add_input] has accepted the line [(member_id,
    input_member_id)], before they are saved. *)
Definition with_line (self : WorkflowSettings) (member_id input_member_id : string)
    (looper : bool) : WorkflowSettings :=
  mkSettings (members_in_view self)
    (dict_set (lines self) (member_id, input_member_id)
       (LineConfig "Message" looper))
    None (db_table self) (selected_item_id self) (saved_inputs self)
    (warnings self).

(** The settings after [add_input] has turned the line down with the
    warning. *)
Definition with_warning (self : WorkflowSettings) : WorkflowSettings :=
  mkSettings (members_in_view self) (lines self) (new_line self)
    (db_table self) (selected_item_id self) (saved_inputs self)
    (warnings self ++ ["Circular reference detected"]).

(** The members a turn still waits for: those [get_members()] returns whose
    turn output is unset. *)
Definition pending_members (self : Workflow) : list Member :=
  filter (λ m, turn_output m = None) (get_members self None []).

(** The role filter in force: [filter_role] of the workflow configuration,
    ['All'] by default, in lower case. *)
Definition filter_role_of (self : Workflow) : string :=
  lower (default "All" (cfg_filter_role (wf_config self))).

(** Under what a pair is handed to the caller: its member belongs to no
    group, it is the next expected member and the only pending one, and the
    key is let through by the role filter. *)
Definition yield_condition (y : yielded) : Prop :=
  let self := y_state y in
  get_member_async_group self (member_id (y_member y)) = None
  ∧ (∃ nem, next_expected_member self = Some nem
            ∧ member_id nem = member_id (y_member y)
            ∧ pending_members self = [nem])
  ∧ (y_key y = filter_role_of self ∨ filter_role_of self = "all").

(** The first condition read over every participant of the mapping, the
    structural nodes included: no other participant has its turn output
    unset. *)
Definition only_unset_participant (y : yielded) : Prop :=
  ∀ m, m ∈ dict_values (members (y_state y)) → turn_output m = None →
       member_id m = member_id (y_member y).

(** [grounded ms k]: the member under [k] exists, and so, recursively, do
    the members it depends on: the walk from [k] comes to an end. *)
Inductive grounded (ms : list (string * Member)) : string → Prop :=
  | grounded_member k m :
      dict_get ms k = Some m →
      (∀ inp, inp ∈ inputs m → grounded ms inp) →
      grounded ms k.

(** What the instantiation keeps true and the validation needs: members
    carry the dependencies of their id, every member is grounded, and the
    groups hold ids of members only. *)
Record walkable (ins : list input_info) (self : Workflow) (l : load_locals)
  : Prop := Walkable {
  walkable_recorded : inputs_recorded ins self;
  walkable_grounded :
    ∀ k, k ∈ dict_keys (members self) → grounded (members self) k;
  walkable_boxes :
    ∀ box id, box ∈ boxes self ++ [ll_current_box_member_ids l] → id ∈ box →
              id ∈ dict_keys (members self);
  walkable_last :
    ∀ id, ll_last_member_id l = Some id → id ∈ dict_keys (members self)
}.

(* ================================================================== *)
(** * Concrete configurations and turns used by the examples *)

Definition agent_config : config := Config (Some "agent") [] [] None None None.
Definition block_config : config := Config (Some "block") [] [] None None None.
Definition node_config : config := Config (Some "node") [] [] None None None.

(** The scenario of the specification: a human [U], two agents [A] and [B]
    at the same position that depend on [U], and an agent [C] that depends
    on both. *)
Definition scenario_config : config :=
  Config (Some "workflow")
    [ MemberDict "C" None 200 0 agent_config;
      MemberDict "U" None 0 0 user_config;
      MemberDict "A" None 100 0 agent_config;
      MemberDict "B" None 100 0 agent_config ]
    [ InputInfo "A" "U" "Message" false;
      InputInfo "B" "U" "Message" false;
      InputInfo "C" "A" "Message" false;
      InputInfo "C" "B" "Message" false ]
    None None None.

(** A rank that decreases along the edges of the scenario. *)
Definition scenario_rank (id : string) : nat :=
  if decide (id = "U") then 0
  else if decide (id = "C") then 2
  else 1.

(** A workflow that holds a nested workflow: a human [U], the nested
    workflow [W] of two agents, the second fed by the first, and an agent
    [A]; [W] depends on [U] and [A] on [W]. *)
Definition nested_chain : config :=
  Config (Some "workflow")
    [ MemberDict "1" None 0 0 agent_config;
      MemberDict "2" None 100 0 agent_config ]
    [ InputInfo "2" "1" "Message" false ]
    None None None.

Definition scenario_nested : config :=
  Config (Some "workflow")
    [ MemberDict "U" None 0 0 user_config;
      MemberDict "W" None 100 0 nested_chain;
      MemberDict "A" None 200 0 agent_config ]
    [ InputInfo "W" "U" "Message" false;
      InputInfo "A" "W" "Message" false ]
    None None None.

Definition scenario_nested_rank (id : string) : nat :=
  if decide (id = "U") then 0
  else if decide (id = "W") then 1
  else 2.

Definition scenario_grouped : Workflow :=
  Eval vm_compute in
    match load_members_grouping 8 (new_workflow scenario_config false) with
    | Done w => w
    | _ => new_workflow scenario_config false
    end.

Definition scenario_validated : Workflow :=
  Eval vm_compute in
    match validate_boxes 8 scenario_grouped with
    | Done w => w
    | _ => scenario_grouped
    end.

Definition scenario_loaded : Workflow :=
  Eval vm_compute in
    match load_members 8 (new_workflow scenario_config false) with
    | Done w => w
    | _ => new_workflow scenario_config false
    end.

(** A human and an agent five units apart. *)
Definition human_next_to_agent : config :=
  Config (Some "workflow")
    [ MemberDict "1" None 100 0 user_config;
      MemberDict "2" None 105 0 agent_config ]
    [] None None None.

Definition human_next_to_agent_grouped : Workflow :=
  Eval vm_compute in
    match load_members_grouping 8 (new_workflow human_next_to_agent false) with
    | Done w => w
    | _ => new_workflow human_next_to_agent false
    end.

(** An agent that has produced its output and a structural node next to
    it, after loading. *)
Definition agent_and_node : config :=
  Config (Some "workflow")
    [ MemberDict "1" None 0 0 agent_config;
      MemberDict "2" None 100 0 node_config ]
    [] None None None.

Definition agent_and_node_loaded : Workflow :=
  Eval vm_compute in
    match load_members 8 (new_workflow agent_and_node false) with
    | Done w => w
    | _ => new_workflow agent_and_node false
    end.

Definition agent_done_node_pending : Workflow :=
  Eval vm_compute in
    apply_write (SetTurnOutput "1" (Some "done")) agent_and_node_loaded.

(** A single agent document, loaded: a human and the agent, no output
    yet. *)
Definition single_agent_loaded : Workflow :=
  Eval vm_compute in
    match load_members 8 (new_workflow agent_config false) with
    | Done w => w
    | _ => new_workflow agent_config false
    end.

(** The same after both members have produced their output. *)
Definition single_agent_done : Workflow :=
  Eval vm_compute in
    apply_write (SetTurnOutput "2" (Some "Hello"))
      (apply_write (SetTurnOutput "1" (Some "Hi")) single_agent_loaded).

(** An edited workflow with the lines [2 <- 1] and [3 <- 2], while a line
    from member [3] is being drawn. *)
Definition settings_chain (looper : bool) : WorkflowSettings :=
  mkSettings
    [ ("1", Some (mkDraggable "user" 0 0));
      ("2", Some (mkDraggable "agent" 100 0));
      ("3", Some (mkDraggable "agent" 200 0)) ]
    [ (("2", "1"), LineConfig "Message" false);
      (("3", "2"), LineConfig "Message" false) ]
    (Some (NewLine "3" looper))
    None None [] [].

(** Scripts for the examples.  In the pair of a human [1] and an agent [2]:
    the human stores its message, the agent streams two chunks and stores
    its answer. *)
Definition human_script (id : string) : producer :=
  [ SaveMessage "user" "Hi" id; SetTurnOutput id (Some "Hi") ].

Definition agent_script (id : string) : producer :=
  [ Emit "assistant" "Hel"; Emit "assistant" "lo";
    SaveMessage "assistant" "Hello" id; SetTurnOutput id (Some "Hello") ].

Definition scripts_normal (m : Member) : producer :=
  if decide (member_TYPE m = "user") then human_script (member_id m)
  else if decide (member_TYPE m = "agent") then agent_script (member_id m)
  else [].

(** The agent is cancelled after its first chunk. *)
Definition scripts_cancelled (m : Member) : producer :=
  if decide (member_TYPE m = "user") then human_script (member_id m)
  else [ Emit "assistant" "Hel"; Throw CancelledError ].

(** The agent fails after its first chunk. *)
Definition scripts_failing (m : Member) : producer :=
  if decide (member_TYPE m = "user") then human_script (member_id m)
  else [ Emit "assistant" "Hel"; Throw (ProducerError "connection lost") ].

(** A root workflow: nothing to hand up, no log to read. *)
Definition no_final_message (self : Workflow) : option (string * string) := None.
Definition root_member_id (self : Workflow) : string := "".
Definition log_readable (self : Workflow) : option exn := None.

(** The examples of a turn: the human [1] starts it and the agent answers;
    no member is named as the start; the agent is cancelled; the agent
    fails. *)
Definition turn_completed : turn :=
  receive scripts_normal no_final_message root_member_id log_readable
    (Some "1") single_agent_loaded.

Definition turn_paused : turn :=
  receive scripts_normal no_final_message root_member_id log_readable
    None single_agent_loaded.

Definition turn_cancelled : turn :=
  receive scripts_cancelled no_final_message root_member_id log_readable
    (Some "1") single_agent_loaded.

Definition turn_failed : turn :=
  receive scripts_failing no_final_message root_member_id log_readable
    (Some "1") single_agent_loaded.

(** The first pair of the completed turn. *)
Definition first_yield_completed : yielded :=
  Eval vm_compute in
    default (Yielded single_agent_loaded
               (mkMember "" agent_config None 0 0 [] None None) "" "")
      (head (t_out turn_completed)).

(** A turn of the agent next to a structural node, and its first pair. *)
Definition turn_beside_node : turn :=
  receive scripts_normal no_final_message root_member_id log_readable
    None agent_and_node_loaded.

Definition first_yield_beside_node : yielded :=
  Eval vm_compute in
    default (Yielded agent_and_node_loaded
               (mkMember "" agent_config None 0 0 [] None None) "" "")
      (head (t_out turn_beside_node)).

(** The turn of the scenario, started by the human [U]. *)
Definition turn_scenario : turn :=
  receive scripts_normal no_final_message root_member_id log_readable
    (Some "U") scenario_loaded.


(* ================================================================== *)
(** * More of the edited workflow *)

(** ** [WorkflowSettings]: walking, reloading and deleting lines *)

Module Settings.

(** The comprehension of [WorkflowSettings.walk_inputs_recursive]: the
    sources of the non-loop lines whose target is [member_id]. *)
Definition member_inputs (self : WorkflowSettings) (member_id : string)
  : list string :=
  (λ kl, kl.1.2)
    <$> filter (λ kl, kl.1.1 = member_id ∧ lc_looper kl.2 = false)
          (lines self).

(** [WorkflowSettings.walk_inputs_recursive(member_id, search_list)], the
    walk the view runs over its lines; [search_list] is the id list of a
    group. *)
Fixpoint walk_inputs_recursive (fuel : nat) (self : WorkflowSettings)
    (member_id : string) (search_list : list string) : run bool :=
  match fuel with
  | O => OutOfFuel
  | S fuel' =>
      (fix for_inp (inps : list string) (found : bool) : run bool :=
         match inps with
         | [] => Done found
         | inp :: rest =>
             if decide (inp ∈ search_list) then Done true
             else if found then for_inp rest true
             else
               r ← walk_inputs_recursive fuel' self inp search_list;
               for_inp rest r
         end) (member_inputs self member_id) false
  end.

End Settings.

(** The settings with other lines. *)
Definition set_lines (ls : list ((string * string) * line_config))
    (self : WorkflowSettings) : WorkflowSettings :=
  mkSettings (members_in_view self) ls (new_line self) (db_table self)
    (selected_item_id self) (saved_inputs self) (warnings self).

(** The [for input_dict in inputs_data] loop of [load_inputs]; the
    [return] on an input whose source member is not in the view ends it. *)
Fixpoint load_inputs_loop (self : WorkflowSettings)
    (inputs_data : list input_info)
    (ls : list ((string * string) * line_config))
  : list ((string * string) * line_config) :=
  match inputs_data with
  | [] => ls
  | input_dict :: rest =>
      let member_id := in_member_id input_dict in
      let input_member_id := in_input_member_id input_dict in
      let input_config :=
        LineConfig (in_input_type input_dict) (in_looper input_dict) in
      match dict_get (members_in_view self) input_member_id with
      | Some (Some _) =>
          load_inputs_loop self rest
            (dict_set ls (member_id, input_member_id) input_config)
      | _ => ls
      end
  end.

(** [load_inputs()], with [inputs_data] the ['inputs'] list of the
    configuration being shown. *)
Definition load_inputs (inputs_data : list input_info)
    (self : WorkflowSettings) : WorkflowSettings :=
  set_lines (load_inputs_loop self inputs_data []) self.

(** [d.pop(k)]; [None] stands for the [KeyError] of a missing key. *)
Definition dict_pop {K V} `{EqDecision K} (d : list (K * V)) (k : K)
  : option (list (K * V)) :=
  if decide (k ∈ dict_keys d) then Some (filter (λ kv, kv.1 ≠ k) d) else None.

(** [for k in keys: d.pop(k)] *)
Fixpoint pop_all {K V} `{EqDecision K} (keys : list K) (d : list (K * V))
  : run (list (K * V)) :=
  match keys with
  | [] => Done d
  | k :: rest =>
      d' ← or_raise KeyError (dict_pop d k);
      pop_all rest d'
  end.

(** What can be selected in the scene. *)
Inductive scene_item :=
  | MemberItem (id : string)                         (* a [DraggableMember] *)
  | LineItem (member_id input_member_id : string).   (* a [ConnectionLine] *)

(** The keys of the lines that start or end at a member. *)
Definition lines_of_member (self : WorkflowSettings) (id : string)
  : list (string * string) :=
  filter (λ key, key.1 = id ∨ key.2 = id) (dict_keys (lines self)).

(** The first loop of [delete_selected_items], filling [del_member_ids] and
    [del_inputs]. *)
Fixpoint selected_for_deletion (self : WorkflowSettings)
    (selected : list scene_item)
    (del_member_ids : gset string) (del_inputs : gset (string * string))
  : gset string * gset (string * string) :=
  match selected with
  | [] => (del_member_ids, del_inputs)
  | MemberItem id :: rest =>
      selected_for_deletion self rest (del_member_ids ∪ {[ id ]})
        (del_inputs ∪ list_to_set (lines_of_member self id))
  | LineItem member_id input_member_id :: rest =>
      selected_for_deletion self rest del_member_ids
        (del_inputs ∪ {[ (member_id, input_member_id) ]})
  end.

(** [CustomGraphicsView.delete_selected_items()], on the settings it
    belongs to; [selected] is the selection of the scene and [confirmed]
    the answer to the message box.  The two sets are popped in the order of
    their elements (any order gives the same dicts); the tinting of the
    items and the reload of the page after the save are left to the
    view. *)
Definition delete_selected_items (selected : list scene_item)
    (confirmed : bool) (self : WorkflowSettings) : run WorkflowSettings :=
  let '(del_member_ids, del_inputs) :=
    selected_for_deletion self selected ∅ ∅ in
  let del_count := size del_member_ids + size del_inputs in
  if decide (del_count = 0) then Done self
  else if negb confirmed then Done self
  else
    members ← pop_all (elements del_member_ids) (members_in_view self);
    ls ← pop_all (elements del_inputs) (lines self);
    save_config
      (mkSettings members ls (new_line self) (db_table self)
         (selected_item_id self) (saved_inputs self) (warnings self)).

Module InputSettings.

(** [self.parent.lines[self.input_key].config = conf] *)
Definition set_line_config (parent : WorkflowSettings)
    (input_key : string * string) (conf : line_config)
  : run WorkflowSettings :=
  _ ← or_raise KeyError (dict_get (lines parent) input_key);
  Done (set_lines (dict_set (lines parent) input_key conf) parent).

(** [InputSettings.save_config()], on the settings it edits a line of;
    [conf] is what the two fields of the form hold. *)
Definition save_config (fuel : nat) (parent : WorkflowSettings)
    (input_key : string * string) (conf : line_config)
  : run WorkflowSettings :=
  let is_looper := lc_looper conf in
  cr_check ←
    (if negb is_looper then
       check_for_circular_references fuel parent input_key.1 [input_key.2]
     else Done false);
  if negb is_looper && cr_check then
    let conf := LineConfig (lc_input_type conf) true in
    set_line_config
      (mkSettings (members_in_view parent) (lines parent) (new_line parent)
         (db_table parent) (selected_item_id parent) (saved_inputs parent)
         (warnings parent ++ ["Circular reference detected"]))
      input_key conf
  else
    parent ← set_line_config parent input_key conf;
    save_config parent.

End InputSettings.

(** ** Vocabulary for the lines *)

(** Both ends of every line are members shown in the view. *)
Definition lines_in_view (self : WorkflowSettings) : Prop :=
  ∀ key, key ∈ dict_keys (lines self) →
         key.1 ∈ dict_keys (members_in_view self)
         ∧ key.2 ∈ dict_keys (members_in_view self).

(** The source of every line is a member shown in the view. *)
Definition sources_in_view (self : WorkflowSettings)
    (inputs_data : list input_info) : Prop :=
  Forall (λ i, ∃ m, dict_get (members_in_view self) (in_input_member_id i)
                    = Some (Some m)) inputs_data.

(** A relation with one more pair. *)
Definition with_edge (R : relation string) (a b : string) : relation string :=
  λ x y, R x y ∨ (x = a ∧ y = b).

(* ================================================================== *)
(** * More of the loaded workflow *)

(** ** Vocabulary for the groups and the order of the members *)

(** Two different groups share no member. *)
Definition boxes_disjoint (bs : list (gset string)) : Prop :=
  ∀ b1 b2, b1 ∈ bs → b2 ∈ bs → b1 ≠ b2 → b1 ## b2.

(** What the grouping by position keeps true of the groups already
    flushed: they are not empty, they share no member with one another nor
    with the group being built, and the last grouped member is in none of
    them. *)
Record apart (self : Workflow) (l : load_locals) : Prop := Apart {
  apart_boxes : boxes_disjoint (boxes self);
  apart_current :
    ∀ b, b ∈ boxes self → b ## ll_current_box_member_ids l;
  apart_last :
    ∀ b id, b ∈ boxes self → ll_last_member_id l = Some id → id ∉ b;
  apart_nonempty : ∀ b, b ∈ boxes self → b ≠ ∅
}.

(** In a list of ids, every non-loop dependency of an id stands before
    it. *)
Definition dependency_ordered (ins : list input_info) (keys : list string)
  : Prop :=
  ∀ i k, keys !! i = Some k →
         ∀ inp, inp ∈ member_input_ids ins k → inp ∈ take i keys.

(** A configured participant that the instantiation loop can never get
    to: it reaches itself over non-loop edges, or one of its non-loop
    dependencies is not a configured participant. *)
Definition unloadable (cfg : config) (a : string) : Prop :=
  a ∈ config_ids cfg
  ∧ (reaches (cfg_inputs cfg) a a
     ∨ ∃ b, non_loop_edge (cfg_inputs cfg) a b ∧ b ∉ config_ids cfg).

(** No nested workflow among the entries raises while it is built and
    loaded. *)
Definition nested_load_never_raises (mds : list member_dict) : Prop :=
  ∀ fuel md e,
    md ∈ mds → config_TYPE (md_config md) = "workflow" →
    load_nested fuel (md_config md) ≠ Raised e.

(** The workflow [b] with the members and the groups of [a]. *)
Definition graft (b a : Workflow) : Workflow :=
  mkWorkflow (wf_config b) (has_parent b) (members a) (boxes a) (autorun b)
    (gen_members b) (responding b) (stop_requested b) (chat_name b)
    (message_history b).

(* ================================================================== *)
(** * More of [src/utils/helpers.py] *)

(** ** [flatten_list] *)

(** A list item: a value, or a list of items again
    ([isinstance(item, list)]). *)
Inductive nested (A : Type) :=
  | Item (a : A)
  | Nested (lst : list (nested A)).
Arguments Item {A} a.
Arguments Nested {A} lst.

(** What one item of the loop of [flatten_list] adds to [flat_list]: the
    item itself, or the flattening of the list it is. *)
Fixpoint flatten_item {A} (item : nested A) : list A :=
  match item with
  | Item a => [a]
  | Nested lst =>
      (fix flatten_list (lst : list (nested A)) : list A :=
         match lst with
         | [] => []
         | item :: rest => flatten_item item ++ flatten_list rest
         end) lst
  end.

(** [flatten_list(lst)] *)
Definition flatten_list {A} (lst : list (nested A)) : list A :=
  flatten_item (Nested lst).

(** ** [split_lang_and_code] *)

(** A Python [str] is taken apart as the list of its characters; the
    fence and the line break are ASCII, so the characters of a UTF-8 text
    can be its bytes. *)
Definition fence : list Ascii.ascii :=
  String.list_ascii_of_string "```".

Definition line_break : Ascii.ascii := Ascii.ascii_of_nat 10.

(** [text.startswith(prefix)] and [text.endswith(suffix)] *)
Definition startswith (prefix text : list Ascii.ascii) : bool :=
  bool_decide (take (length prefix) text = prefix).

Definition endswith (suffix text : list Ascii.ascii) : bool :=
  bool_decide (drop (length text - length suffix) text = suffix).

(** [text[3:-3]]: empty when the text has fewer than six characters. *)
Definition slice_3_3 (text : list Ascii.ascii) : list Ascii.ascii :=
  take (length text - 3 - 3) (drop 3 text).

(** [s.split(sep, 1)]: the two parts around the first [sep]; [None] when
    there is no [sep] and the list [split] returns has one element. *)
Fixpoint split_once (sep : Ascii.ascii) (s : list Ascii.ascii)
  : option (list Ascii.ascii * list Ascii.ascii) :=
  match s with
  | [] => None
  | c :: rest =>
      if decide (c = sep) then Some ([], rest)
      else '(before, after) ← split_once sep rest; Some (c :: before, after)
  end.

(** [split_lang_and_code(text)]; unpacking a list of one element into
    [lang, code] raises [ValueError]. *)
Definition split_lang_and_code (text : string) : run (option string * string) :=
  let chars := String.list_ascii_of_string text in
  if startswith fence chars && endswith fence chars then
    match split_once line_break (slice_3_3 chars) with
    | Some (lang, code) =>
        Done (Some (String.string_of_list_ascii lang),
              String.string_of_list_ascii code)
    | None => Raised ValueError
    end
  else Done (None, text).

(** ** [convert_to_safe_case] *)

Fixpoint map_chars (f : Ascii.ascii → Ascii.ascii) (s : string) : string :=
  match s with
  | EmptyString => EmptyString
  | String c s' => String (f c) (map_chars f s')
  end.

(** [text.replace(old, new)] for one-character strings. *)
Definition replace_char (old new : Ascii.ascii) (text : string) : string :=
  map_chars (λ c, if decide (c = old) then new else c) text.

(** The class [[a-zA-Z0-9_.]] of the pattern. *)
Definition is_safe_char (c : Ascii.ascii) : bool :=
  let n := Ascii.nat_of_ascii c in
  bool_decide ((97 ≤ n ∧ n ≤ 122) ∨ (65 ≤ n ∧ n ≤ 90) ∨ (48 ≤ n ∧ n ≤ 57)
               ∨ n = 95 ∨ n = 46).

(** [convert_to_safe_case(text)], on ASCII text (on other text [lower()]
    and the pattern work on characters where this works on bytes). *)
Definition convert_to_safe_case (text : string) : string :=
  let text :=
    lower (replace_char (Ascii.ascii_of_nat 45) (Ascii.ascii_of_nat 95)
             (replace_char (Ascii.ascii_of_nat 32) (Ascii.ascii_of_nat 95)
                text)) in
  map_chars (λ c, if is_safe_char c then c else Ascii.ascii_of_nat 95) text.

(** The characters [a-z0-9_.]. *)
Definition is_lower_safe_char (c : Ascii.ascii) : bool :=
  let n := Ascii.nat_of_ascii c in
  bool_decide ((97 ≤ n ∧ n ≤ 122) ∨ (48 ≤ n ∧ n ≤ 57) ∨ n = 95 ∨ n = 46).

(** What [convert_to_safe_case] does to one character. *)
Definition safe_char (c : Ascii.ascii) : Ascii.ascii :=
  let c := if decide (c = Ascii.ascii_of_nat 32) then Ascii.ascii_of_nat 95
           else c in
  let c := if decide (c = Ascii.ascii_of_nat 45) then Ascii.ascii_of_nat 95
           else c in
  let c := ascii_lower c in
  if is_safe_char c then c else Ascii.ascii_of_nat 95.

(* ================================================================== *)
(** * Concrete settings, documents and turns used by the further examples *)

(** The chain [2 <- 1], [3 <- 2] shown for the entity [7] of a table,
    while a line from member [1] is being drawn; and what [add_input]
    makes of it when the line is dropped on member [3]. *)
Definition settings_saved : WorkflowSettings :=
  mkSettings (members_in_view (settings_chain false))
    (lines (settings_chain false)) (Some (NewLine "1" false))
    (Some "entities") (Some "7") [] [].

Definition settings_saved_added : WorkflowSettings :=
  Eval vm_compute in
    match add_input 2 settings_saved "3" with
    | Done r => r
    | _ => settings_saved
    end.

(** A rank that decreases along the lines of the chain. *)
Definition chain_rank (id : string) : nat :=
  if decide (id = "1") then 0
  else if decide (id = "2") then 1
  else 2.

(** The chain closed by a line [1 <- 3] that is flagged as a loop; and
    what becomes of it when the form of that line asks for the flag to be
    taken off. *)
Definition settings_loop : WorkflowSettings :=
  mkSettings (members_in_view (settings_chain false))
    (lines (settings_chain false) ++ [(("1", "3"), LineConfig "Message" true)])
    None None None [] [].

Definition settings_loop_edited : WorkflowSettings :=
  Eval vm_compute in
    match InputSettings.save_config 3 settings_loop ("1", "3")
            (LineConfig "Message" false) with
    | Done r => r
    | _ => settings_loop
    end.

(** The chain after member [2] has been deleted. *)
Definition settings_deleted : WorkflowSettings :=
  Eval vm_compute in
    match delete_selected_items [MemberItem "2"] true (settings_chain false) with
    | Done r => r
    | _ => settings_chain false
    end.


(** An agent that depends on a participant [9] that is not configured. *)
Definition dangling_config : config :=
  Config (Some "workflow")
    [ MemberDict "1" None 0 0 user_config;
      MemberDict "2" None 100 0 agent_config ]
    [ InputInfo "2" "9" "Message" false ]
    None None None.

(** A workflow without edges whose one participant is a nested workflow
    that cannot load: the nested document is [dangling_config]. *)
Definition nested_dangling : config :=
  Config (Some "workflow")
    [ MemberDict "W" None 0 0 dangling_config ]
    []
    None None None.

(** A workflow whose one participant is of a kind [load_members] does
    not know. *)
Definition tool_alone : config :=
  Config (Some "workflow")
    [ MemberDict "1" None 0 0 (Config (Some "tool") [] [] None None None) ]
    []
    None None None.

(** Two configured participants under one id. *)
Definition same_id_config : config :=
  Config (Some "workflow")
    [ MemberDict "1" None 0 0 user_config;
      MemberDict "1" None 100 0 agent_config ]
    []
    None None None.

(** An agent document that carries an edge of its own. *)
Definition agent_with_inputs : config :=
  Config (Some "agent") [] [ InputInfo "2" "1" "Message" false ] None None None.

(** The texts of one character U+00A0 (no-break space), U+3000
    (ideographic space) and U+00E9 (e with acute accent), in UTF-8. *)
Definition no_break_space : string :=
  String (Ascii.ascii_of_nat 194) (String (Ascii.ascii_of_nat 160) EmptyString).

Definition ideographic_space : string :=
  String (Ascii.ascii_of_nat 227)
    (String (Ascii.ascii_of_nat 128)
       (String (Ascii.ascii_of_nat 128) EmptyString)).

Definition e_acute : string :=
  String (Ascii.ascii_of_nat 195) (String (Ascii.ascii_of_nat 169) EmptyString).

(** The human of the loaded single-agent document. *)
Definition single_agent_human : Member :=
  Eval vm_compute in
    default (mkMember "" user_config None 0 0 [] None None)
      (head (dict_values (members single_agent_loaded))).

(** The workflow document of the chain: the members in view, with the
    edges the view writes for its lines; and the workflow loaded from
    it. *)
Definition chain_config : config :=
  Config (Some "workflow")
    [ MemberDict "1" None 0 0 user_config;
      MemberDict "2" None 100 0 agent_config;
      MemberDict "3" None 200 0 agent_config ]
    (get_config_inputs (settings_chain false))
    None None None.

Definition chain_loaded : Workflow :=
  Eval vm_compute in
    match load_members 8 (new_workflow chain_config false) with
    | Done w => w
    | _ => new_workflow chain_config false
    end.
(* ================================================================== *)
(** * Proofs *)

(** ** The [run] monad *)

Lemma bind_Done {A B} (c : run A) (k : A → run B) (b : B) :
  c ≫= k = Done b → ∃ a, c = Done a ∧ k a = Done b.
Proof. destruct c as [a| |]; simpl; intros H; try discriminate. eauto. Qed.

Lemma or_raise_Done {A} e (o : option A) a : or_raise e o = Done a → o = Some a.
Proof. destruct o; simpl; congruence. Qed.

(** Closing a decidable goal by evaluating its decision procedure. *)
Ltac by_compute := apply (bool_decide_unpack _); vm_compute; exact I.

Ltac run_inv H :=
  let a := fresh "r" in
  let Ha := fresh "Hr" in
  apply bind_Done in H as (a & Ha & H).

(** ** Dictionaries and [remove] *)

Section dict_facts.
Context {K V : Type} `{EqDecision K}.
Implicit Types (d : list (K * V)) (k : K) (v : V).

Lemma dict_get_is_Some d k : is_Some (dict_get d k) ↔ k ∈ dict_keys d.
Proof.
  unfold dict_keys. induction d as [|[k' v'] d IH]; simpl.
  - split; [intros [? ?]; done | intros H; inversion H].
  - case_decide; subst.
    + split; [intros _; left | eauto].
    + rewrite IH, elem_of_cons. naive_solver.
Qed.

Lemma dict_keys_set d k v :
  ∀ x, x ∈ dict_keys (dict_set d k v) ↔ x = k ∨ x ∈ dict_keys d.
Proof.
  unfold dict_keys. induction d as [|[k' v'] d IH]; intros x; simpl.
  - rewrite list_elem_of_singleton. set_solver.
  - case_decide; subst; simpl; rewrite !elem_of_cons; [naive_solver|].
    rewrite IH. naive_solver.
Qed.

Lemma dict_keys_set_NoDup d k v :
  NoDup (dict_keys d) → NoDup (dict_keys (dict_set d k v)).
Proof.
  unfold dict_keys. induction d as [|[k' v'] d IH]; simpl; intros Hnd.
  - apply NoDup_singleton.
  - apply NoDup_cons in Hnd as [Hk Hnd].
    case_decide; subst; simpl; apply NoDup_cons; split; auto.
    intros Hin. apply (dict_keys_set d k v) in Hin as [->|Hin]; auto.
Qed.

Lemma dict_get_set d k v k' :
  dict_get (dict_set d k v) k' = if decide (k = k') then Some v else dict_get d k'.
Proof.
  induction d as [|[k0 v0] d IH]; simpl.
  - done.
  - destruct (decide (k0 = k)) as [->|Hne]; simpl.
    + destruct (decide (k = k')); done.
    + rewrite IH. destruct (decide (k0 = k')), (decide (k = k')); congruence.
Qed.

Lemma dict_set_fresh d k v :
  k ∉ dict_keys d → dict_set d k v = d ++ [(k, v)].
Proof.
  unfold dict_keys. induction d as [|[k0 v0] d IH]; simpl; [done|].
  rewrite not_elem_of_cons. intros [Hne Hnin].
  case_decide; [congruence|]. by rewrite IH.
Qed.

End dict_facts.

Section remove_facts.
Context `{EqDecision A}.
Implicit Types (x : A) (l k : list A).

Lemma list_remove_Some x l k : list_remove x l = Some k → l ≡ₚ x :: k.
Proof.
  revert k. induction l as [|y l IH]; intros k; simpl; [done|].
  case_decide; subst.
  - intros [= ->]. done.
  - destruct (list_remove x l) as [k'|]; simpl; [|done].
    intros [= <-]. rewrite (IH k' eq_refl). apply Permutation_swap.
Qed.

Lemma list_remove_elem x l : x ∈ l → is_Some (list_remove x l).
Proof.
  induction l as [|y l IH]; [intros H; inversion H|].
  simpl. case_decide; [eauto|].
  rewrite elem_of_cons. intros [->|Hin]; [done|].
  destruct (IH Hin) as [k ->]. eauto.
Qed.

Lemma list_remove_app_fresh x l k :
  x ∉ k → list_remove x (k ++ x :: l) = Some (k ++ l).
Proof.
  induction k as [|y k IH]; simpl.
  - intros _. by rewrite decide_True.
  - rewrite not_elem_of_cons. intros [Hne Hnin].
    rewrite decide_False by congruence. by rewrite IH.
Qed.

End remove_facts.

(** ** The instantiation loop, one iteration at a time *)

Lemma instantiate_member_Done nested md ids m :
  instantiate_member nested md ids = Done m →
  config_TYPE (md_config md) ∈ known_member_types
  ∧ m = mkMember (md_id md) (md_config md) (md_agent_id md) (md_loc_x md)
          (md_loc_y md) ids None None.
Proof.
  unfold instantiate_member. case_decide as Hk; [|done].
  intros Hm. run_inv Hm. injection Hm as <-. auto.
Qed.

(** The instantiation of an entry of a known kind returns the member as
    soon as the nested loading the kind asks for returns. *)
Lemma instantiate_member_ready nested md ids :
  known_kind md →
  (config_TYPE (md_config md) = "workflow" → nested (md_config md) = Done ()) →
  instantiate_member nested md ids
  = Done (mkMember (md_id md) (md_config md) (md_agent_id md) (md_loc_x md)
            (md_loc_y md) ids None None).
Proof.
  intros Hk Hn. unfold instantiate_member. rewrite decide_True by done.
  case_decide as Hw; [|done]. by rewrite (Hn Hw).
Qed.

Lemma instantiate_member_unknown nested md ids :
  ¬ known_kind md → instantiate_member nested md ids = Raised NotImplementedError.
Proof. intros Hk. unfold instantiate_member. by rewrite decide_False. Qed.

Lemma load_loop_end fuel ins self l :
  ll_members l = [] → load_loop fuel ins self l = Done (self, l).
Proof. intros H. destruct fuel; simpl; by rewrite H. Qed.

Lemma load_loop_step fuel ins self l :
  ll_members l ≠ [] →
  load_loop (S fuel) ins self l
  = load_iteration (load_nested fuel) ins self l
      ≫= (λ '(s, l'), load_loop fuel ins s l').
Proof.
  intros H. change (load_loop (S fuel) ins self l) with
    (match ll_members l with
     | [] => Done (self, l)
     | _ :: _ =>
         load_iteration (load_nested fuel) ins self l
           ≫= (λ '(s, l'), load_loop fuel ins s l')
     end).
  by destruct (ll_members l).
Qed.

Lemma load_iteration_Done nested inputs self l self' l' :
  load_iteration nested inputs self l = Done (self', l') →
  iteration_kind inputs self l self' l'.
Proof.
  unfold load_iteration. intros H.
  destruct (ll_iterable l) as [|md rest] eqn:Hit.
  - injection H as <- <-. by constructor.
  - destruct (deferred inputs self (md_id md)) eqn:Hdef.
    + injection H as <- <-. by econstructor.
    + run_inv H. apply instantiate_member_Done in Hr as [Hknown ->].
      destruct (group_by_position _ _ _ _ _) as [[[bs current] last_x] last_id]
        eqn:Hg.
      run_inv H. apply or_raise_Done in Hr.
      injection H as <- <-. by eapply it_instantiate.
Qed.

(** A property kept by every pass holds when the loop ends. *)
Lemma load_loop_invariant (P : Workflow → load_locals → Prop) inputs :
  (∀ self l self' l',
     P self l → iteration_kind inputs self l self' l' → P self' l') →
  ∀ fuel self l self' l',
    P self l → load_loop fuel inputs self l = Done (self', l') →
    P self' l' ∧ ll_members l' = [].
Proof.
  intros Hstep fuel. induction fuel as [|fuel IH]; intros self l self' l' HP H;
    (destruct (decide (ll_members l = [])) as [Hm|Hm];
     [rewrite load_loop_end in H by done; injection H as <- <-; auto|]).
  - simpl in H. by destruct (ll_members l).
  - rewrite load_loop_step in H by done.
    run_inv H. destruct r as [self1 l1].
    apply load_iteration_Done in Hr. eauto.
Qed.

(** The fields the loop never writes. *)
Lemma iteration_kind_frame inputs self l self' l' :
  iteration_kind inputs self l self' l' →
  wf_config self' = wf_config self ∧ has_parent self' = has_parent self
  ∧ autorun self' = autorun self ∧ gen_members self' = gen_members self
  ∧ responding self' = responding self
  ∧ message_history self' = message_history self.
Proof. by destruct 1. Qed.

(** ** Members carry the non-loop dependencies of their id *)

Lemma member_input_ids_edge ins a b :
  b ∈ member_input_ids ins a ↔ non_loop_edge ins a b.
Proof.
  unfold member_input_ids, non_loop_edge.
  rewrite list_elem_of_fmap. setoid_rewrite list_elem_of_filter.
  naive_solver.
Qed.

Lemma inputs_recorded_iteration ins self l self' l' :
  inputs_recorded ins self → iteration_kind ins self l self' l' →
  inputs_recorded ins self'.
Proof.
  intros HP [| |md rest ms' bs cur lx lid _ _ _ _ _]; try done.
  intros k m. simpl. rewrite dict_get_set.
  case_decide; [intros [= <-]; subst; done | apply HP].
Qed.

Lemma load_loop_frame fuel ins self l self' l' :
  load_loop fuel ins self l = Done (self', l') →
  wf_config self' = wf_config self ∧ has_parent self' = has_parent self
  ∧ autorun self' = autorun self ∧ gen_members self' = gen_members self
  ∧ responding self' = responding self
  ∧ message_history self' = message_history self.
Proof.
  intros H.
  refine (proj1 (load_loop_invariant
    (λ s _, wf_config s = wf_config self ∧ has_parent s = has_parent self
            ∧ autorun s = autorun self ∧ gen_members s = gen_members self
            ∧ responding s = responding self
            ∧ message_history s = message_history self)
    ins _ fuel self l self' l' _ H)); [|done].
  intros s1 l1 s2 l2 HP Hk. apply iteration_kind_frame in Hk.
  destruct Hk as (?&?&?&?&?&?), HP as (?&?&?&?&?&?). repeat split; congruence.
Qed.

(** ** More fuel changes no result *)

Lemma walk_inputs_recursive_mono self box :
  ∀ f k b,
    walk_inputs_recursive f self k box = Done b →
    ∀ f', f ≤ f' → walk_inputs_recursive f' self k box = Done b.
Proof.
  induction f as [|f IH]; intros k b H f' Hle; [done|].
  destruct f' as [|f']; [lia|]. simpl in *.
  destruct (dict_get (members self) k) as [m|]; [|done]. simpl in *.
  revert H. generalize false. generalize (inputs m).
  intros inps. induction inps as [|inp inps IHi]; intros found H; [done|].
  case_decide; [done|]. destruct found; [by apply IHi|].
  destruct (walk_inputs_recursive f self inp box) as [r| |] eqn:Hw;
    simpl in H; try done.
  rewrite (IH _ _ Hw f') by lia. simpl. by apply IHi.
Qed.

Lemma box_reaches_itself_mono f f' self ids box b :
  f ≤ f' →
  box_reaches_itself f self ids box = Done b →
  box_reaches_itself f' self ids box = Done b.
Proof.
  intros Hle. induction ids as [|id ids IH]; simpl; [done|]. intros H.
  destruct (walk_inputs_recursive f self id box) as [r| |] eqn:Hw;
    simpl in H; try done.
  rewrite (walk_inputs_recursive_mono _ _ _ _ _ Hw f' Hle). simpl.
  destruct r; [done | by apply IH].
Qed.

Lemma collect_del_boxes_mono f f' self bs del :
  f ≤ f' →
  collect_del_boxes f self bs = Done del →
  collect_del_boxes f' self bs = Done del.
Proof.
  intros Hle. revert del. induction bs as [|box bs IH]; intros del; simpl;
    [done|]. intros H.
  destruct (box_reaches_itself f self (elements box) box) as [r| |] eqn:Hb;
    simpl in H; try done.
  rewrite (box_reaches_itself_mono _ _ _ _ _ _ Hle Hb). simpl.
  destruct (collect_del_boxes f self bs) as [d| |] eqn:Hd; simpl in H; try done.
  by rewrite (IH d eq_refl).
Qed.

Lemma validate_boxes_mono f f' self r :
  f ≤ f' → validate_boxes f self = Done r → validate_boxes f' self = Done r.
Proof.
  intros Hle. unfold validate_boxes. intros H.
  destruct (collect_del_boxes f self (boxes self)) as [d| |] eqn:Hd;
    simpl in H; try done.
  by rewrite (collect_del_boxes_mono _ _ _ _ _ Hle Hd).
Qed.

Section mono_with.
Variables loop loop' :
  list input_info → Workflow → load_locals → run (Workflow * load_locals).
Variables f f' : nat.
Hypothesis loop_mono : ∀ ins s l r, loop ins s l = Done r → loop' ins s l = Done r.
Hypothesis fuel_mono : f ≤ f'.

Lemma load_members_with_mono self r :
  load_members_with loop f self = Done r →
  load_members_with loop' f' self = Done r.
Proof using loop_mono fuel_mono.
  unfold load_members_with, load_members_grouping_with. intros H.
  run_inv H. run_inv Hr. rewrite (loop_mono _ _ _ _ Hr0). simpl.
  destruct r1 as [s1 l1]. rewrite Hr. simpl.
  run_inv H. by rewrite (validate_boxes_mono _ _ _ _ fuel_mono Hr1).
Qed.

Lemma load_nested_with_mono cfg :
  load_nested_with loop f cfg = Done () →
  load_nested_with loop' f' cfg = Done ().
Proof using loop_mono fuel_mono.
  unfold load_nested_with, load_with. intros H.
  run_inv H. rewrite (load_members_with_mono _ _ Hr). simpl.
  run_inv H. by rewrite (load_members_with_mono _ _ Hr0).
Qed.

End mono_with.

Lemma load_iteration_mono nested nested' ins self l r :
  (∀ cfg, nested cfg = Done () → nested' cfg = Done ()) →
  load_iteration nested ins self l = Done r →
  load_iteration nested' ins self l = Done r.
Proof.
  intros Hn. unfold load_iteration.
  destruct (ll_iterable l) as [|md rest]; [done|].
  destruct (deferred ins self (md_id md)); [done|].
  intros H. run_inv H.
  assert (Hi : instantiate_member nested' md (member_input_ids ins (md_id md))
               = Done r0).
  { revert Hr. unfold instantiate_member. case_decide; [|done].
    case_decide; [|done]. intros Hr. run_inv Hr. destruct r1.
    by rewrite (Hn _ Hr0). }
  by rewrite Hi.
Qed.

Lemma load_loop_mono :
  ∀ fuel ins self l r,
    load_loop fuel ins self l = Done r →
    ∀ fuel', fuel ≤ fuel' → load_loop fuel' ins self l = Done r.
Proof.
  induction fuel as [|fuel IH]; intros ins self l r H fuel' Hle;
    (destruct (decide (ll_members l = [])) as [Hm|Hm];
     [rewrite load_loop_end in H by done; by rewrite load_loop_end|]).
  - simpl in H. by destruct (ll_members l).
  - destruct fuel' as [|fuel']; [lia|].
    rewrite load_loop_step in H by done. rewrite load_loop_step by done.
    run_inv H. destruct r0 as [self1 l1].
    assert (Hn : ∀ cfg, load_nested fuel cfg = Done () →
                        load_nested fuel' cfg = Done ()).
    { intros cfg. apply load_nested_with_mono; [|lia].
      intros ins' s l' r' Hl. apply (IH _ _ _ _ Hl). lia. }
    rewrite (load_iteration_mono _ _ _ _ _ _ Hn Hr). simpl.
    apply (IH _ _ _ _ H). lia.
Qed.

Lemma load_nested_mono fuel cfg :
  load_nested fuel cfg = Done () →
  ∀ fuel', fuel ≤ fuel' → load_nested fuel' cfg = Done ().
Proof.
  intros H fuel' Hle. revert H. apply load_nested_with_mono; [|done].
  intros ins s l r Hl. by apply (load_loop_mono _ _ _ _ _ Hl).
Qed.

(** The nested workflows among the entries load as soon as each does with
    some one amount of fuel. *)
Lemma nested_load_returns_at fuel mds :
  Forall (λ md, config_TYPE (md_config md) = "workflow" →
                load_nested fuel (md_config md) = Done ()) mds →
  nested_load_returns mds.
Proof.
  rewrite Forall_forall. intros H. exists fuel. intros f md Hle Hin Hw.
  by apply (load_nested_mono fuel); [apply H|].
Qed.

Lemma load_members_grouping_mono fuel self grouped :
  load_members_grouping fuel self = Done grouped →
  ∀ fuel', fuel ≤ fuel' → load_members_grouping fuel' self = Done grouped.
Proof.
  unfold load_members_grouping, load_members_grouping_with. intros H fuel' Hle.
  run_inv H. by rewrite (load_loop_mono _ _ _ _ _ Hr fuel' Hle).
Qed.

Lemma load_members_unfold fuel self :
  load_members fuel self
  = (self ← load_members_grouping fuel self;
     self ← validate_boxes fuel self;
     load_chat_name self).
Proof. done. Qed.

(** What [load_members_grouping] returns, in terms of the loop. *)
Lemma load_members_grouping_Done fuel self self' :
  load_members_grouping fuel self = Done self' →
  ∃ self1 l1,
    load_loop fuel (cfg_inputs (wf_config self))
      (set_boxes (λ _, []) (set_members (λ _, []) self))
      (LoadLocals (sorted_by_loc_x (config_members (wf_config self)))
         (sorted_by_loc_x (config_members (wf_config self))) None (-100) ∅)
    = Done (self1, l1)
    ∧ members self' = members self1
    ∧ wf_config self' = wf_config self
    ∧ boxes self' =
        if decide (ll_current_box_member_ids l1 = ∅) then boxes self1
        else boxes self1 ++ [ll_current_box_member_ids l1].
Proof.
  unfold load_members_grouping, load_members_grouping_with.
  intros H. run_inv H. destruct r as [self1 l1].
  exists self1, l1. split; [done|].
  pose proof (load_loop_frame _ _ _ _ _ _ Hr) as (Hc & _).
  case_decide; injection H as <-; simpl; auto.
Qed.

Lemma load_members_grouping_inputs_recorded fuel self self' :
  load_members_grouping fuel self = Done self' →
  inputs_recorded (cfg_inputs (wf_config self)) self'.
Proof.
  intros (self1 & l1 & Hloop & Hm & _ & _)%load_members_grouping_Done.
  intros k m. rewrite Hm.
  refine (proj1 (load_loop_invariant
    (λ s _, inputs_recorded (cfg_inputs (wf_config self)) s)
    _ _ _ _ _ _ _ _ Hloop) k m).
  - intros ????. apply inputs_recorded_iteration.
  - intros ? ?. simpl. done.
Qed.

(** ** The walk over inbound non-loop edges *)

(** When the walk answers [False], no dependency, direct or not, is in the
    searched set. *)
Lemma walk_inputs_recursive_false ins self search_list :
  inputs_recorded ins self →
  ∀ fuel a, walk_inputs_recursive fuel self a search_list = Done false →
  ∀ b, reaches ins a b → b ∉ search_list.
Proof.
  intros Hrec fuel. induction fuel as [|fuel IH]; intros a H; [done|].
  simpl in H. run_inv H. apply or_raise_Done in Hr.
  destruct (Hrec _ _ Hr) as [_ Hin].
  assert (Hall : ∀ inp, inp ∈ inputs r →
            (inp ∉ search_list)
            ∧ walk_inputs_recursive fuel self inp search_list = Done false).
  { clear Hin Hr. revert H. generalize (inputs r) as inps.
    induction inps as [|inp inps IHi]; intros H x Hx; [inversion Hx|].
    case_decide; [done|].
    destruct (walk_inputs_recursive fuel self inp search_list)
      as [[]| |] eqn:Hw; simpl in H; try done.
    - exfalso. clear -H. induction inps as [|y inps IHy]; [done|].
      case_decide; [done|auto].
    - apply elem_of_cons in Hx as [->|Hx]; auto. }
  intros b Hab. destruct Hab as [a b Hab | a c b Hac Hcb].
  - apply member_input_ids_edge in Hab. rewrite <- Hin in Hab.
    by apply Hall.
  - apply member_input_ids_edge in Hac. rewrite <- Hin in Hac.
    apply Hall in Hac as [_ Hw]. by apply (IH c).
Qed.

(** ** The validation of the groups *)

Lemma box_reaches_itself_false fuel self ids box :
  box_reaches_itself fuel self ids box = Done false →
  ∀ a, a ∈ ids → walk_inputs_recursive fuel self a box = Done false.
Proof.
  induction ids as [|x ids IH]; simpl; intros H a Ha; [inversion Ha|].
  run_inv H. destruct r; [done|].
  apply elem_of_cons in Ha as [->|Ha]; auto.
Qed.

Lemma collect_del_boxes_Done fuel self bs del_boxes :
  collect_del_boxes fuel self bs = Done del_boxes →
  del_boxes = filter (box_found fuel self) bs
  ∧ ∀ box, box ∈ bs → ¬ box_found fuel self box →
           box_reaches_itself fuel self (elements box) box = Done false.
Proof.
  revert del_boxes. induction bs as [|box bs IH]; simpl; intros del H.
  - injection H as <-. split; [done|]. intros ? Hin; inversion Hin.
  - run_inv H. run_inv H. injection H as <-.
    destruct (IH _ Hr0) as [-> Hothers]. split.
    + rewrite filter_cons.
      destruct (decide (box_found fuel self box)) as [Hf|Hf];
        unfold box_found in Hf; destruct r; congruence.
    + intros b [->|Hb]%elem_of_cons Hnf; [|auto].
      unfold box_found in Hnf. destruct r; congruence.
Qed.

Lemma remove_boxes_filter (P : gset string → Prop) `{∀ b, Decision (P b)} bs :
  ∀ kept, Forall (λ b, ¬ P b) kept →
    remove_boxes (filter P bs) (kept ++ bs)
    = Done (kept ++ filter (λ b, ¬ P b) bs).
Proof.
  induction bs as [|box bs IH]; intros kept Hkept; simpl.
  - done.
  - rewrite !filter_cons. destruct (decide (P box)) as [HP|HP].
    + rewrite decide_False by tauto. simpl.
      rewrite list_remove_app_fresh; simpl; [by apply IH|].
      intros Hin. rewrite Forall_forall in Hkept. by apply (Hkept box).
    + rewrite decide_True by done.
      rewrite (cons_middle box kept bs), app_assoc.
      rewrite IH; [by rewrite <- app_assoc|].
      apply Forall_app; split; [done|]. by apply Forall_singleton.
Qed.

Lemma validate_boxes_Done fuel self self' :
  validate_boxes fuel self = Done self' →
  members self' = members self ∧ wf_config self' = wf_config self
  ∧ ∀ box, box ∈ boxes self' →
      box ∈ boxes self
      ∧ ∀ a, a ∈ box → walk_inputs_recursive fuel self a box = Done false.
Proof.
  unfold validate_boxes. intros H. run_inv H. run_inv H. injection H as <-.
  apply collect_del_boxes_Done in Hr as [-> Hfalse].
  rewrite (remove_boxes_filter (box_found fuel self) (boxes self) []) in Hr0
    by constructor.
  injection Hr0 as <-. simpl. do 2 (split; [done|]).
  intros box [Hnf Hin]%list_elem_of_filter. split; [done|].
  intros a Ha. eapply box_reaches_itself_false; [by apply Hfalse|].
  by apply elem_of_elements.
Qed.

Lemma load_chat_name_Done self self' :
  load_chat_name self = Done self' →
  members self' = members self ∧ boxes self' = boxes self
  ∧ wf_config self' = wf_config self.
Proof.
  unfold load_chat_name. case_decide; intros Hc.
  - run_inv Hc. by injection Hc as <-.
  - by injection Hc as <-.
Qed.

(** ** The instantiation loop ends on an acyclic configuration *)

Lemma insert_by_loc_x_perm x l : insert_by_loc_x x l ≡ₚ x :: l.
Proof.
  induction l as [|y l IH]; simpl; [done|].
  case_bool_decide; [done|]. rewrite IH. apply Permutation_swap.
Qed.

Lemma sorted_by_loc_x_perm l : sorted_by_loc_x l ≡ₚ l.
Proof.
  induction l as [|x l IH]; simpl; [done|].
  rewrite insert_by_loc_x_perm. by rewrite IH.
Qed.

(** The result is in ascending order of the first ordinate, and entries
    with the same ordinate keep their order: the two properties that fix
    the result of Python's stable [sorted]. *)
Lemma insert_by_loc_x_sorted x l :
  StronglySorted (λ a b, (md_loc_x a ≤ md_loc_x b)%Z) l →
  StronglySorted (λ a b, (md_loc_x a ≤ md_loc_x b)%Z) (insert_by_loc_x x l).
Proof.
  induction 1 as [|y l Hs IH Hall]; simpl.
  - repeat constructor.
  - case_bool_decide as Hle.
    + constructor; [by constructor|]. constructor; [done|].
      eapply Forall_impl; [exact Hall|]. simpl. intros z Hz. lia.
    + constructor; [done|]. rewrite insert_by_loc_x_perm.
      constructor; [lia | done].
Qed.

Lemma sorted_by_loc_x_sorted l :
  StronglySorted (λ a b, (md_loc_x a ≤ md_loc_x b)%Z) (sorted_by_loc_x l).
Proof.
  induction l as [|x l IH]; simpl; [constructor|].
  by apply insert_by_loc_x_sorted.
Qed.

Lemma insert_by_loc_x_stable (z : Z) x l :
  filter (λ y, md_loc_x y = z) (insert_by_loc_x x l)
  = filter (λ y, md_loc_x y = z) (x :: l).
Proof.
  induction l as [|y l IH]; simpl; [done|].
  case_bool_decide as Hle; [done|].
  rewrite filter_cons, IH, !filter_cons.
  destruct (decide (md_loc_x y = z)), (decide (md_loc_x x = z)); try done.
  lia.
Qed.

Lemma sorted_by_loc_x_stable (z : Z) l :
  filter (λ y, md_loc_x y = z) (sorted_by_loc_x l)
  = filter (λ y, md_loc_x y = z) l.
Proof.
  induction l as [|x l IH]; simpl; [done|].
  by rewrite insert_by_loc_x_stable, !filter_cons, IH.
Qed.

Lemma loading_iteration cfgm ins self l self' l' :
  loading cfgm ins self l → iteration_kind ins self l self' l' →
  loading cfgm ins self' l'.
Proof.
  intros [Hit Hpend Hcov Hbuilt Hnd]
    [Hnil | md rest Hnext Hdef
     | md rest ms' bs cur lx lid Hnext Hdef Hknown Hrem Hgrp].
  - by constructor.
  - constructor; simpl; try done.
    intros x Hx. apply Hit. rewrite Hnext. by right.
  - apply list_remove_Some in Hrem.
    assert (Hmd : md ∈ ll_members l) by (apply Hit; rewrite Hnext; left).
    constructor; simpl.
    + done.
    + intros x Hx. apply Hpend. rewrite Hrem. by right.
    + intros md0 Hmd0. rewrite dict_keys_set.
      destruct (Hcov md0 Hmd0) as [Hin|Hin]; [|auto].
      rewrite Hrem in Hin. apply elem_of_cons in Hin as [->|Hin]; auto.
    + intros k m. rewrite dict_get_set. case_decide; [|apply Hbuilt].
      intros [= <-]. exists md. auto.
    + by apply dict_keys_set_NoDup.
Qed.

Lemma pending_edge_reaches ins (pending : list string) a b :
  tc (pending_edge ins pending) a b → reaches ins a b ∧ b ∈ pending.
Proof.
  induction 1 as [a b [Hab Hb] | a c b [Hac Hc] _ [IH1 IH2]].
  - split; [by apply tc_once | done].
  - split; [by eapply tc_l | done].
Qed.

Lemma pending_edge_red_dec ins (pending : list string) a :
  Decision (red (pending_edge ins pending) a).
Proof.
  destruct (decide (Exists (λ b, b ∈ pending) (member_input_ids ins a)))
    as [He|He]; [left | right]; unfold red, pending_edge;
    rewrite Exists_exists in He; setoid_rewrite member_input_ids_edge in He;
    naive_solver.
Qed.

(** In an acyclic graph every non-empty set of pending ids has a member
    none of whose dependencies is pending. *)
Lemma acyclic_pending_minimal ins (pending : list string) a :
  acyclic ins → a ∈ pending →
  ∃ b, b ∈ pending ∧ ∀ c, non_loop_edge ins b c → c ∉ pending.
Proof.
  intros Hacyc Ha.
  assert (Hsn : sn (pending_edge ins pending) a).
  { apply tc_finite_sn.
    - intros x Hx. apply pending_edge_reaches in Hx as [Hx _].
      by apply (Hacyc x).
    - exists pending. by intros x [_ Hx]%pending_edge_reaches. }
  apply (@sn_wn _ _ (pending_edge_red_dec ins pending)) in Hsn
    as (b & Hab & Hnf).
  exists b. split.
  - apply rtc_tc in Hab as [<-|Hab]; [done|].
    by apply pending_edge_reaches in Hab as [_ ?].
  - intros c Hbc Hc. apply Hnf. by exists c.
Qed.

(** Progress: while something is pending, some pending entry is ready. *)
Lemma loading_progress cfg self l :
  loading (config_members cfg) (cfg_inputs cfg) self l →
  acyclic (cfg_inputs cfg) → dependencies_exist cfg →
  ll_members l ≠ [] →
  ∃ md, md ∈ ll_members l ∧ deferred (cfg_inputs cfg) self (md_id md) = false.
Proof.
  intros [Hit Hpend Hcov Hbuilt Hnd] Hacyc Hdeps Hne.
  destruct (ll_members l) as [|md0 pend] eqn:Hm; [done|]. clear Hne.
  destruct (acyclic_pending_minimal (cfg_inputs cfg) (md_id <$> (md0 :: pend))
              (md_id md0) Hacyc) as (b & Hb & Hmin).
  { apply list_elem_of_fmap. exists md0. split; [done | left]. }
  apply list_elem_of_fmap in Hb as (md & -> & Hmd).
  exists md. split; [done|].
  unfold deferred. apply andb_false_iff. right.
  apply negb_false_iff, bool_decide_eq_true, Forall_forall.
  intros c Hc. apply member_input_ids_edge in Hc.
  pose proof (Hmin c Hc) as Hnp.
  destruct Hc as (i & Hi & _ & <- & Hloop).
  pose proof (Hdeps i Hi Hloop) as Hex.
  apply list_elem_of_fmap in Hex as (mdc & Hid & Hmdc).
  destruct (Hcov mdc Hmdc) as [Hin|Hin]; [|by rewrite Hid].
  exfalso. apply Hnp. apply list_elem_of_fmap. eauto.
Qed.

(** Skipping over entries that are not ready costs one pass each. *)
Lemma load_loop_skip ins self pre :
  Forall (λ md, deferred ins self (md_id md) = true) pre →
  ∀ l rest fuel,
    ll_members l ≠ [] → ll_iterable l = pre ++ rest →
    load_loop (length pre + fuel) ins self l
    = load_loop fuel ins self (set_iterable rest l).
Proof.
  induction 1 as [|md pre Hmd _ IH]; intros l rest fuel Hne Hit.
  - destruct l; simpl in *; by subst.
  - change (length (md :: pre) + fuel) with (S (length pre + fuel)).
    rewrite load_loop_step by done.
    unfold load_iteration. rewrite Hit. simpl. rewrite Hmd. simpl.
    by rewrite (IH _ rest).
Qed.

Lemma load_loop_restart ins self l fuel :
  ll_members l ≠ [] → ll_iterable l = [] →
  load_loop (S fuel) ins self l
  = load_loop fuel ins self (set_iterable (ll_members l) l).
Proof.
  intros Hne Hit. rewrite load_loop_step by done.
  unfold load_iteration. by rewrite Hit.
Qed.

Lemma first_not_deferred ins self (l : list member_dict) :
  Exists (λ md, deferred ins self (md_id md) = false) l →
  ∃ pre md post,
    l = pre ++ md :: post
    ∧ Forall (λ md, deferred ins self (md_id md) = true) pre
    ∧ deferred ins self (md_id md) = false.
Proof.
  induction l as [|x l IH]; intros Hex; [inversion Hex|].
  destruct (deferred ins self (md_id x)) eqn:Hx.
  - apply Exists_cons in Hex as [Hex|Hex]; [congruence|].
    destruct (IH Hex) as (pre & md & post & -> & Hpre & Hmd).
    exists (x :: pre), md, post. auto.
  - exists [], x, l. auto.
Qed.

(** From any state with something pending, a bounded number of passes
    brings the scan in front of an entry that is ready. *)
Lemma load_loop_reach_ready cfg self l :
  loading (config_members cfg) (cfg_inputs cfg) self l →
  acyclic (cfg_inputs cfg) → dependencies_exist cfg →
  ll_members l ≠ [] →
  ∃ k md post,
    md ∈ ll_members l
    ∧ deferred (cfg_inputs cfg) self (md_id md) = false
    ∧ (md :: post) ⊆ ll_members l
    ∧ ∀ fuel, load_loop (k + fuel) (cfg_inputs cfg) self l
              = load_loop fuel (cfg_inputs cfg) self
                  (set_iterable (md :: post) l).
Proof.
  intros Hl Hacyc Hdeps Hne.
  set (ins := cfg_inputs cfg).
  destruct (decide (Exists (λ md, deferred ins self (md_id md) = false)
                      (ll_iterable l))) as [Hex|Hex].
  - destruct (first_not_deferred _ _ _ Hex) as (pre & md & post & Hit & Hpre & Hmd).
    pose proof (loading_iterable _ _ _ _ Hl) as Hsub.
    exists (length pre), md, post. repeat split; [| done | |].
    + apply Hsub. rewrite Hit. apply elem_of_app. right. left.
    + intros x Hx. apply Hsub. rewrite Hit. apply elem_of_app. by right.
    + intros fuel. by apply load_loop_skip.
  - apply not_Exists_Forall in Hex; [|intros ?; apply _].
    assert (Hall : Forall (λ md, deferred ins self (md_id md) = true)
                     (ll_iterable l)).
    { eapply Forall_impl; [exact Hex|]. simpl. intros md Hmd.
      by destruct (deferred ins self (md_id md)). }
    destruct (loading_progress cfg self l Hl Hacyc Hdeps Hne) as (md0 & Hin0 & Hr0).
    destruct (first_not_deferred ins self (ll_members l))
      as (pre & md & post & Hms & Hpre & Hmd).
    { apply Exists_exists. eauto. }
    exists (length (ll_iterable l) + S (length pre)), md, post.
    repeat split; [| done | |].
    + rewrite Hms. apply elem_of_app. right. left.
    + intros x Hx. rewrite Hms. apply elem_of_app. by right.
    + intros fuel. rewrite <- Nat.add_assoc.
      rewrite (load_loop_skip ins self (ll_iterable l) Hall l [])
        by (done || by rewrite app_nil_r).
      change (S (length pre) + fuel) with (S (length pre + fuel)).
      rewrite load_loop_restart by done.
      by rewrite (load_loop_skip ins self pre Hpre _ (md :: post)).
Qed.

(** The pass that stands in front of a ready entry instantiates it, or
    raises when its kind is unknown. *)
Lemma load_loop_instantiate ins self l md post :
  ll_iterable l = md :: post →
  deferred ins self (md_id md) = false →
  md ∈ ll_members l →
  (known_kind md →
     ∃ self' l',
       iteration_kind ins self l self' l'
       ∧ ll_members l ≡ₚ md :: ll_members l'
       ∧ ∀ fuel,
           (config_TYPE (md_config md) = "workflow" →
            load_nested fuel (md_config md) = Done ()) →
           load_loop (S fuel) ins self l = load_loop fuel ins self' l')
  ∧ (¬ known_kind md →
     ∀ fuel, load_loop (S fuel) ins self l = Raised NotImplementedError).
Proof.
  intros Hit Hdef Hin.
  assert (Hne : ll_members l ≠ []) by (intros Hnil; rewrite Hnil in Hin; inversion Hin).
  destruct (list_remove_elem _ _ Hin) as [ms' Hrem].
  split; intros Hk.
  - destruct (group_by_position (config_TYPE (md_config md)) (md_id md)
                (md_loc_x md) (boxes self) l)
      as [[[bs cur] lx] lid] eqn:Hg.
    eexists _, _. split; [by eapply it_instantiate|].
    split; [by apply list_remove_Some|].
    intros fuel Hnested. rewrite load_loop_step by done.
    unfold load_iteration. rewrite Hit. simpl. rewrite Hdef.
    rewrite instantiate_member_ready by done. simpl.
    rewrite Hg, Hrem. done.
  - intros fuel. rewrite load_loop_step by done.
    unfold load_iteration. rewrite Hit. simpl. rewrite Hdef.
    by rewrite instantiate_member_unknown.
Qed.

(** Without a ready entry the loop never ends: it keeps scanning the
    pending entries. *)
Lemma load_loop_stuck ins self :
  ∀ fuel l,
    ll_members l ≠ [] →
    Forall (λ md, deferred ins self (md_id md) = true) (ll_members l) →
    ll_iterable l ⊆ ll_members l →
    load_loop fuel ins self l = OutOfFuel.
Proof.
  induction fuel as [|fuel IH]; intros l Hne Hall Hsub.
  - simpl. by destruct (ll_members l).
  - rewrite load_loop_step by done. unfold load_iteration.
    destruct (ll_iterable l) as [|md rest] eqn:Hit; simpl.
    + by apply IH.
    + assert (Hmd : deferred ins self (md_id md) = true).
      { rewrite Forall_forall in Hall. apply Hall, Hsub. left. }
      rewrite Hmd. simpl. apply IH; simpl; [done..|].
      intros x Hx. apply Hsub. by right.
Qed.

Lemma loading_set_iterable cfgm ins self l it :
  loading cfgm ins self l → it ⊆ ll_members l →
  loading cfgm ins self (set_iterable it l).
Proof. intros [] ?. by constructor. Qed.

(** The loop ends, given that the nested workflows among the entries load
    with any fuel from [enough] on: with a final state when every pending
    entry has a known kind, with [NotImplementedError] otherwise. *)
Lemma load_loop_terminates cfg enough :
  acyclic (cfg_inputs cfg) → dependencies_exist cfg →
  (∀ fuel md, enough ≤ fuel → md ∈ config_members cfg →
     config_TYPE (md_config md) = "workflow" →
     load_nested fuel (md_config md) = Done ()) →
  ∀ n self l,
    length (ll_members l) = n →
    loading (config_members cfg) (cfg_inputs cfg) self l →
    ∃ k, ∀ fuel, enough ≤ fuel →
      (Forall known_kind (ll_members l) →
         ∃ self' l',
           load_loop (k + fuel) (cfg_inputs cfg) self l = Done (self', l'))
      ∧ (¬ Forall known_kind (ll_members l) →
         load_loop (k + fuel) (cfg_inputs cfg) self l
         = Raised NotImplementedError).
Proof.
  intros Hacyc Hdeps Hnested n. induction n as [|n IH]; intros self l Hlen Hl.
  - apply nil_length_inv in Hlen. exists 0. intros fuel _.
    rewrite load_loop_end by done. split.
    + eauto.
    + intros Hk. destruct Hk. rewrite Hlen. constructor.
  - assert (Hne : ll_members l ≠ []) by (intros Hnil; by rewrite Hnil in Hlen).
    destruct (load_loop_reach_ready cfg self l Hl Hacyc Hdeps Hne)
      as (k & md & post & Hin & Hdef & Hsub & Hk).
    pose proof (loading_set_iterable _ _ _ _ _ Hl Hsub) as Hl2.
    destruct (load_loop_instantiate (cfg_inputs cfg) self
                (set_iterable (md :: post) l) md post eq_refl Hdef Hin)
      as [Hknown Hunknown].
    destruct (decide (known_kind md)) as [Hkd|Hkd].
    + destruct (Hknown Hkd) as (self' & l' & Hkind & Hperm & Hstep).
      simpl in Hperm.
      destruct (IH self' l') as (k' & Hrest).
      { apply Permutation_length in Hperm. simpl in Hperm. lia. }
      { by eapply loading_iteration. }
      exists (k + S k'). intros fuel Hfuel.
      destruct (Hrest fuel Hfuel) as [Hdone Hraise].
      rewrite <- Nat.add_assoc, Hk.
      change (S k' + fuel) with (S (k' + fuel)). rewrite Hstep.
      2:{ intros Hw. apply Hnested; [lia| |done].
          by apply (loading_pending _ _ _ _ Hl). }
      split.
      * intros Hall. apply Hdone. rewrite Hperm in Hall.
        by apply Forall_cons in Hall as [_ ?].
      * intros Hall. apply Hraise. intros Hall'. apply Hall.
        rewrite Hperm. by constructor.
    + exists (k + 1). intros fuel _.
      rewrite <- Nat.add_assoc, Hk. change (1 + fuel) with (S fuel).
      rewrite (Hunknown Hkd). split; [|done].
      intros Hall. rewrite Forall_forall in Hall. destruct (Hkd (Hall _ Hin)).
Qed.

Lemma NoDup_fmap_eq {A B} (f : A → B) (l : list A) x y :
  NoDup (f <$> l) → x ∈ l → y ∈ l → f x = f y → x = y.
Proof.
  induction l as [|a l IH]; intros Hnd Hx Hy Hf; [inversion Hx|].
  rewrite fmap_cons in Hnd. apply NoDup_cons in Hnd as [Hna Hnd].
  apply elem_of_cons in Hx as [->|Hx], Hy as [->|Hy]; auto.
  - destruct Hna. rewrite Hf. by apply list_elem_of_fmap_2.
  - destruct Hna. rewrite <- Hf. by apply list_elem_of_fmap_2.
Qed.

Lemma loading_initial cfg self :
  let members := sorted_by_loc_x (config_members cfg) in
  loading (config_members cfg) (cfg_inputs cfg)
    (set_boxes (λ _, []) (set_members (λ _, []) self))
    (LoadLocals members members None (-100) ∅).
Proof.
  constructor; simpl.
  - done.
  - intros x. by rewrite sorted_by_loc_x_perm.
  - intros md Hmd. left. by rewrite sorted_by_loc_x_perm.
  - done.
  - constructor.
Qed.

(** C2.  Take a configuration whose non-loop edges form no cycle and name
    only configured participants, whose participants have distinct ids, and
    whose participants of kind workflow each load (the construction and the
    loading of the nested workflow return, whatever fuel they are given from
    some amount on).  Then the instantiation loop of [load_members] ends,
    with every amount of fuel from some amount on.  When every participant
    has a kind the loop knows, it ends with a mapping that holds each
    configured participant exactly once: its keys are a rearrangement of the
    configured ids, without repetition; under the id of each configured
    participant it holds the member built from that participant; and it has
    as many entries as there are configured participants.  Otherwise it
    ends with the [NotImplementedError] of the unknown kind. *)
Theorem load_members_loop_terminates self :
  let cfg := wf_config self in
  acyclic (cfg_inputs cfg) → dependencies_exist cfg →
  NoDup (config_ids cfg) →
  nested_load_returns (config_members cfg) →
  ∃ enough, ∀ fuel, enough ≤ fuel →
    (Forall known_kind (config_members cfg) →
       ∃ self',
         load_members_grouping fuel self = Done self'
         ∧ dict_keys (members self') ≡ₚ config_ids cfg
         ∧ NoDup (dict_keys (members self'))
         ∧ (∀ md, md ∈ config_members cfg →
              dict_get (members self') (md_id md)
              = Some (built_member (cfg_inputs cfg) md))
         ∧ length (members self') = length (config_members cfg))
    ∧ (¬ Forall known_kind (config_members cfg) →
         load_members_grouping fuel self = Raised NotImplementedError).
Proof.
  intros cfg Hacyc Hdeps Hndc [enough Hnested].
  pose proof (loading_initial cfg self) as Hinit. simpl in Hinit.
  destruct (load_loop_terminates cfg enough Hacyc Hdeps Hnested _ _ _ eq_refl Hinit)
    as (k & Hloop).
  exists (k + enough). intros fuel Hfuel.
  destruct (Hloop (fuel - k)) as [Hdone Hraise]; [lia|].
  replace (k + (fuel - k)) with fuel in Hdone, Hraise by lia.
  simpl in Hdone, Hraise.
  unfold load_members_grouping, load_members_grouping_with. fold cfg. split.
  - intros Hall. destruct Hdone as (self1 & l1 & Hl1).
    { by rewrite sorted_by_loc_x_perm. }
    rewrite Hl1. simpl.
    destruct (load_loop_invariant (loading (config_members cfg) (cfg_inputs cfg))
                (cfg_inputs cfg)
                (λ s l s' l' H, loading_iteration _ _ s l s' l' H)
                _ _ _ _ _ Hinit Hl1) as [[_ _ Hcov Hbuilt Hnd] Hnil].
    assert (Hkeys : ∀ id, id ∈ dict_keys (members self1) ↔ id ∈ config_ids cfg).
    { intros id. split.
      - intros (m & Hm)%dict_get_is_Some.
        destruct (Hbuilt _ _ Hm) as (md & Hmd & <- & _).
        apply list_elem_of_fmap. eauto.
      - intros (md & -> & Hmd)%list_elem_of_fmap.
        destruct (Hcov md Hmd) as [Hin|Hin]; [|done].
        rewrite Hnil in Hin. inversion Hin. }
    assert (Hperm : dict_keys (members self1) ≡ₚ config_ids cfg)
      by (by apply NoDup_Permutation).
    exists (if decide (ll_current_box_member_ids l1 = ∅) then self1
            else set_boxes (λ bs, bs ++ [ll_current_box_member_ids l1]) self1).
    split; [by case_decide|].
    assert (Hms : members (if decide (ll_current_box_member_ids l1 = ∅) then self1
            else set_boxes (λ bs, bs ++ [ll_current_box_member_ids l1]) self1)
            = members self1) by (by case_decide).
    rewrite Hms. repeat split; try done.
    + intros md Hmd.
      assert (Hin : md_id md ∈ dict_keys (members self1)).
      { apply Hkeys, list_elem_of_fmap. eauto. }
      apply dict_get_is_Some in Hin as [m Hm]. rewrite Hm.
      destruct (Hbuilt _ _ Hm) as (md' & Hmd' & Hid & ->).
      by rewrite (NoDup_fmap_eq md_id (config_members cfg) md' md Hndc Hmd' Hmd Hid).
    + apply Permutation_length in Hperm.
      unfold dict_keys, config_ids in Hperm.
      by rewrite !length_fmap in Hperm.
  - intros Hall. rewrite Hraise; [done|].
    by rewrite sorted_by_loc_x_perm.
Qed.

(** ** The grouping by position *)

Lemma snoc_eq_pair {A} (l : list A) m pre a b post :
  l ++ [m] = pre ++ a :: b :: post →
  (∃ post', post = post' ++ [m] ∧ l = pre ++ a :: b :: post')
  ∨ (post = [] ∧ b = m ∧ l = pre ++ [a]).
Proof.
  destruct post as [|x post _] using rev_ind; intros Heq.
  - right. change (pre ++ [a; b]) with (pre ++ [a] ++ [b]) in Heq.
    rewrite app_assoc in Heq. apply app_inj_tail in Heq as [-> ->]. auto.
  - left. exists post.
    change (pre ++ a :: b :: post ++ [x]) with (pre ++ (a :: b :: post) ++ [x]) in Heq.
    rewrite app_assoc in Heq. apply app_inj_tail in Heq as [-> ->]. auto.
Qed.

Lemma dict_get_snoc_fresh {K V} `{EqDecision K} (d : list (K * V)) k v k' :
  k ∉ dict_keys d →
  dict_get (d ++ [(k, v)]) k'
  = match dict_get d k' with Some x => Some x | None => if decide (k = k') then Some v else None end.
Proof.
  intros Hk. rewrite <- dict_set_fresh by done. rewrite dict_get_set.
  destruct (decide (k = k')) as [<-|Hne].
  - destruct (dict_get d k) eqn:Hg; [|done].
    destruct Hk. apply dict_get_is_Some. eauto.
  - by destruct (dict_get d k').
Qed.

Lemma members_of_kinds_snoc kinds ms k m :
  members_of_kinds kinds (ms ++ [(k, m)])
  = members_of_kinds kinds ms
    ++ (if decide (member_TYPE m ∈ kinds) then [m] else []).
Proof.
  unfold members_of_kinds, dict_values. rewrite fmap_app, filter_app. simpl.
  rewrite filter_cons, filter_nil. done.
Qed.

Lemma adjacent_grouped_mono kinds (bs bs' : list (gset string)) ms :
  adjacent_grouped kinds bs ms →
  (∀ box, box ∈ bs → box ≠ ∅ → ∃ box', box' ∈ bs' ∧ box ⊆ box') →
  adjacent_grouped kinds bs' ms.
Proof.
  intros Hadj Hsub pre a b post Heq Hnear.
  destruct (Hadj pre a b post Heq Hnear) as (box & Hbox & Ha & Hb).
  destruct (Hsub box Hbox) as (box' & Hbox' & Hincl); [set_solver|].
  exists box'. set_solver.
Qed.

(** Appending a member extends the adjacent pairs by at most the pair made
    of the previous last member and the new one. *)
Lemma adjacent_grouped_snoc kinds (bs : list (gset string)) ms k m :
  adjacent_grouped kinds bs ms →
  (member_TYPE m ∈ kinds →
   ∀ a, last (members_of_kinds kinds ms) = Some a → near a m →
        ∃ box, box ∈ bs ∧ member_id a ∈ box ∧ member_id m ∈ box) →
  adjacent_grouped kinds bs (ms ++ [(k, m)]).
Proof.
  intros Hadj Hnew pre a b post. rewrite members_of_kinds_snoc.
  case_decide as Hkind.
  - intros [(post' & -> & Heq) | (-> & -> & Heq)]%snoc_eq_pair Hnear.
    + by eapply Hadj.
    + apply Hnew; [done | | done]. rewrite Heq. apply last_snoc.
  - rewrite app_nil_r. apply Hadj.
Qed.

Lemma groups_of_kinds_snoc kinds (bs : list (gset string)) ms k m :
  k ∉ dict_keys ms →
  groups_of_kinds kinds bs ms →
  groups_of_kinds kinds bs (ms ++ [(k, m)]).
Proof.
  intros Hk Hg box id Hbox Hid.
  destruct (Hg box id Hbox Hid) as (m0 & Hm0 & Hkind).
  exists m0. rewrite dict_get_snoc_fresh by done. by rewrite Hm0.
Qed.

Lemma grouping_iteration ins self l self' l' :
  grouping self l → iteration_kind ins self l self' l' → grouping self' l'.
Proof.
  intros [Hfresh Hnd Hlook Hlid Hlx Hpairs Hkinds]
    [Hnil | md rest Hnext Hdef
     | md rest ms' bs cur lx lid Hnext Hdef Hknown Hrem Hgrp].
  - by constructor.
  - by constructor.
  - apply list_remove_Some in Hrem.
    assert (Hmd : md ∈ ll_members l) by (rewrite Hrem; left).
    pose proof (Hfresh md Hmd) as Hk.
    rewrite Hrem in Hnd. simpl in Hnd. apply NoDup_cons in Hnd as [Hnotin Hnd'].
    set (m := built_member ins md).
    assert (Hget : dict_get (members self ++ [(md_id md, m)]) (md_id md) = Some m).
    { rewrite dict_get_snoc_fresh by done.
      destruct (dict_get (members self) (md_id md)) eqn:E.
      - destruct Hk. apply dict_get_is_Some. eauto.
      - by rewrite decide_True. }
    assert (Hbox :
      ll_last_member_id (LoadLocals ms' ms' lid lx cur)
      = member_id <$> last (members_of_kinds boxed_member_types
                              (members self ++ [(md_id md, m)]))
      ∧ ll_last_loc_x (LoadLocals ms' ms' lid lx cur)
        = default (-100)%Z
            (loc_x <$> last (members_of_kinds boxed_member_types
                               (members self ++ [(md_id md, m)])))
      ∧ adjacent_grouped boxed_member_types (bs ++ [cur])
          (members self ++ [(md_id md, m)])
      ∧ groups_of_kinds boxed_member_types (bs ++ [cur])
          (members self ++ [(md_id md, m)])).
    { simpl. unfold group_by_position in Hgrp.
      rewrite members_of_kinds_snoc.
      change (member_TYPE m) with (config_TYPE (md_config md)).
      destruct (decide (config_TYPE (md_config md) ∈ boxed_member_types))
        as [Hkind|Hkind].
      - rewrite last_snoc. simpl.
        assert (Hnewkind : ∀ id, id = md_id md →
                  ∃ m0, dict_get (members self ++ [(md_id md, m)]) id = Some m0
                        ∧ member_TYPE m0 ∈ boxed_member_types)
          by (intros ? ->; eauto).
        assert (Hlastkind : ∀ last, ll_last_member_id l = Some last →
                  ∃ m0, dict_get (members self ++ [(md_id md, m)]) last = Some m0
                        ∧ member_TYPE m0 ∈ boxed_member_types).
        { intros last0 Hl0. rewrite Hlid in Hl0.
          destruct (last (members_of_kinds boxed_member_types (members self)))
            as [a|] eqn:Hlast; [|done].
          injection Hl0 as <-. apply last_Some_elem_of in Hlast.
          apply list_elem_of_filter in Hlast as [Hka Hin].
          exists a. rewrite dict_get_snoc_fresh by done.
          by rewrite (Hlook _ Hin). }
        case_bool_decide as Hnear.
        + injection Hgrp as <- <- <- <-. repeat split.
          * apply adjacent_grouped_snoc.
            -- eapply adjacent_grouped_mono; [exact Hpairs|].
               intros box [Hin | ->%list_elem_of_singleton]%elem_of_app _.
               ++ exists box. split; [|done]. apply elem_of_app. by left.
               ++ eexists. split; [apply elem_of_app; right; left|].
                  destruct (ll_last_member_id l); set_solver.
            -- intros _ a Ha _. eexists. split; [apply elem_of_app; right; left|].
               rewrite Hlid, Ha. simpl. set_solver.
          * intros box id [Hin | ->%list_elem_of_singleton]%elem_of_app Hid.
            -- eapply groups_of_kinds_snoc; [done | exact Hkinds | | done].
               apply elem_of_app. by left.
            -- destruct (ll_last_member_id l) as [last0|] eqn:Hl0.
               ++ apply elem_of_union in Hid as [[Hid|Hid]%elem_of_union|Hid].
                  ** eapply groups_of_kinds_snoc; [done | exact Hkinds | | done].
                     apply elem_of_app. right. left.
                  ** apply elem_of_singleton in Hid as ->. by apply Hlastkind.
                  ** apply elem_of_singleton in Hid as ->. by apply Hnewkind.
               ++ apply elem_of_union in Hid as [Hid|Hid].
                  ** eapply groups_of_kinds_snoc; [done | exact Hkinds | | done].
                     apply elem_of_app. right. left.
                  ** apply elem_of_singleton in Hid as ->. by apply Hnewkind.
        + assert (Hfar : ∀ a, last (members_of_kinds boxed_member_types
                                      (members self)) = Some a → ¬ near a m).
          { intros a Ha Hn. apply Hnear. rewrite Hlx, Ha. exact Hn. }
          case_decide as Hcur; injection Hgrp as <- <- <- <-; repeat split.
          * apply adjacent_grouped_snoc; [done|].
            intros _ a Ha Hn. by destruct (Hfar a Ha).
          * by apply groups_of_kinds_snoc.
          * apply adjacent_grouped_snoc.
            -- eapply adjacent_grouped_mono; [exact Hpairs|].
               intros box Hin _. exists box. split; [|done].
               apply elem_of_app. by left.
            -- intros _ a Ha Hn. by destruct (Hfar a Ha).
          * apply groups_of_kinds_snoc; [done|].
            intros box id [Hin | ->%list_elem_of_singleton]%elem_of_app Hid.
            -- by eapply Hkinds.
            -- set_solver.
      - injection Hgrp as <- <- <- <-. rewrite app_nil_r. repeat split; try done.
        + apply adjacent_grouped_snoc; [done|]. intros Hc. by destruct Hkind.
        + by apply groups_of_kinds_snoc. }
    destruct Hbox as (Hb1 & Hb2 & Hb3 & Hb4).
    constructor; simpl; rewrite ?(dict_set_fresh _ _ _ Hk); try done.
    + intros md' Hmd'. unfold dict_keys. rewrite fmap_app, elem_of_app. simpl.
      intros [Hin | Hin%list_elem_of_singleton].
      * apply (Hfresh md'); [rewrite Hrem; by right | done].
      * apply Hnotin. rewrite <- Hin. apply list_elem_of_fmap. eauto.
    + intros m0. unfold dict_values. rewrite fmap_app, elem_of_app. simpl.
      intros [Hin | ->%list_elem_of_singleton]; [|done].
      rewrite dict_get_snoc_fresh by done. by rewrite (Hlook _ Hin).
Qed.

Lemma boxed_not_user_node t :
  t ∈ boxed_member_types → t ≠ "user" ∧ t ≠ "node".
Proof.
  unfold boxed_member_types. rewrite !elem_of_cons, elem_of_nil.
  intros [->|[->|[->|[]]]]; split; discriminate.
Qed.

Lemma grouping_initial cfg self :
  NoDup (config_ids cfg) →
  let members := sorted_by_loc_x (config_members cfg) in
  grouping (set_boxes (λ _, []) (set_members (λ _, []) self))
    (LoadLocals members members None (-100) ∅).
Proof.
  intros Hnd. constructor; simpl; try done.
  - intros md _ Hin. inversion Hin.
  - unfold config_ids in Hnd. by rewrite sorted_by_loc_x_perm.
  - intros m Hin. inversion Hin.
  - intros pre a b post Heq. by destruct pre.
  - intros box id ->%list_elem_of_singleton Hid. set_solver.
Qed.

(** C7, as the code has it.  With distinct configured ids, the groups are
    built among the members of the kinds agent, sub-workflow and block only,
    in the order of their instantiation: two such members that follow one
    another (members of other kinds between them do not count) and whose
    first ordinates differ by less than ten are put in the same group, and
    every id in a group, before the validation and after it, is the id of a
    member of one of these three kinds, so never of a human or of a
    structural node. *)
Theorem load_members_groups_by_position fuel self grouped :
  NoDup (config_ids (wf_config self)) →
  load_members_grouping fuel self = Done grouped →
  adjacent_grouped boxed_member_types (boxes grouped) (members grouped)
  ∧ groups_of_kinds boxed_member_types (boxes grouped) (members grouped)
  ∧ (∀ box id m, box ∈ boxes grouped → id ∈ box →
       dict_get (members grouped) id = Some m →
       member_TYPE m ≠ "user" ∧ member_TYPE m ≠ "node")
  ∧ (∀ f self', validate_boxes f grouped = Done self' →
       groups_of_kinds boxed_member_types (boxes self') (members self')).
Proof.
  intros Hnd (self1 & l1 & Hloop & Hms & _ & Hbs)%load_members_grouping_Done.
  destruct (load_loop_invariant grouping _
              (λ s l s' l' H, grouping_iteration _ s l s' l' H)
              _ _ _ _ _ (grouping_initial _ self Hnd) Hloop)
    as [[_ _ _ _ _ Hpairs Hkinds] _].
  rewrite Hms, Hbs.
  assert (Hk : groups_of_kinds boxed_member_types
                 (if decide (ll_current_box_member_ids l1 = ∅) then boxes self1
                  else boxes self1 ++ [ll_current_box_member_ids l1])
                 (members self1)).
  { intros box id Hbox. apply Hkinds. case_decide; [|done].
    apply elem_of_app. by left. }
  split; [|split; [done|split]].
  - eapply adjacent_grouped_mono; [exact Hpairs|].
    intros box Hbox Hne. exists box. split; [|done].
    case_decide as Hcur; [|done].
    apply elem_of_app in Hbox as [?| ->%list_elem_of_singleton]; done.
  - intros box id m Hbox Hid Hm.
    destruct (Hk box id Hbox Hid) as (m' & Hm' & Hkind).
    rewrite Hm in Hm'. injection Hm' as <-.
    by apply boxed_not_user_node.
  - intros f self' (Hms' & _ & Hkept)%validate_boxes_Done box id Hbox Hid.
    rewrite Hms', Hms. destruct (Hkept box Hbox) as [Hin _].
    rewrite Hbs in Hin. by eapply Hk.
Qed.

(** ** The scenario of the specification *)

Lemma ranked_acyclic rank ins : ranked rank ins → acyclic ins.
Proof.
  intros Hr.
  assert (Hlt : ∀ a b, reaches ins a b → rank b < rank a).
  { induction 1 as [a b Hab | a c b Hac _ IH].
    - destruct Hab as (i & Hi & <- & <- & Hl).
      unfold ranked in Hr. rewrite Forall_forall in Hr. by apply Hr.
    - destruct Hac as (i & Hi & <- & <- & Hl).
      unfold ranked in Hr. rewrite Forall_forall in Hr.
      specialize (Hr i Hi Hl). lia. }
  intros a Ha. apply Hlt in Ha. lia.
Qed.

Lemma dependencies_listed_exist cfg : dependencies_listed cfg → dependencies_exist cfg.
Proof.
  unfold dependencies_listed. rewrite Forall_forall. intros H i Hi. by apply H.
Qed.

Lemma scenario_acyclic : acyclic (cfg_inputs scenario_config).
Proof.
  apply (ranked_acyclic scenario_rank).
  by_compute.
Qed.

Lemma scenario_dependencies_exist : dependencies_exist scenario_config.
Proof.
  apply dependencies_listed_exist. by_compute.
Qed.

(** The scenario loads into the members [U], [A], [B], [C] with the one
    group [{A, B}]. *)
Example scenario_load_members :
  load_members 8 (new_workflow scenario_config false) = Done scenario_loaded
  ∧ dict_keys (members scenario_loaded) = ["U"; "A"; "B"; "C"]
  ∧ boxes scenario_loaded = [{[ "A" ]} ∪ {[ "B" ]}].
Proof. vm_compute. done. Qed.

Lemma scenario_nested_acyclic : acyclic (cfg_inputs scenario_nested).
Proof.
  apply (ranked_acyclic scenario_nested_rank).
  by_compute.
Qed.

Lemma scenario_nested_dependencies_exist : dependencies_exist scenario_nested.
Proof.
  apply dependencies_listed_exist. by_compute.
Qed.

(** The nested workflow [W] of the example loads with three passes of the
    loop or more. *)
Lemma scenario_nested_load_returns :
  nested_load_returns (config_members scenario_nested).
Proof.
  apply (nested_load_returns_at 3).
  repeat constructor; intros _; vm_compute; reflexivity.
Qed.

Lemma load_members_loop_terminates_witness :
  acyclic (cfg_inputs scenario_nested)
  ∧ dependencies_exist scenario_nested
  ∧ NoDup (config_ids scenario_nested)
  ∧ nested_load_returns (config_members scenario_nested)
  ∧ ∃ enough, ∀ fuel, enough ≤ fuel →
      (Forall known_kind (config_members scenario_nested) →
         ∃ self',
           load_members_grouping fuel (new_workflow scenario_nested false)
           = Done self'
           ∧ dict_keys (members self') ≡ₚ config_ids scenario_nested
           ∧ NoDup (dict_keys (members self'))
           ∧ (∀ md, md ∈ config_members scenario_nested →
                dict_get (members self') (md_id md)
                = Some (built_member (cfg_inputs scenario_nested) md))
           ∧ length (members self') = length (config_members scenario_nested))
      ∧ (¬ Forall known_kind (config_members scenario_nested) →
           load_members_grouping fuel (new_workflow scenario_nested false)
           = Raised NotImplementedError).
Proof.
  split; [exact scenario_nested_acyclic|].
  split; [exact scenario_nested_dependencies_exist|].
  assert (Hnd : NoDup (config_ids scenario_nested)) by by_compute.
  split; [exact Hnd|].
  split; [exact scenario_nested_load_returns|].
  exact (load_members_loop_terminates (new_workflow scenario_nested false)
           scenario_nested_acyclic scenario_nested_dependencies_exist
           Hnd scenario_nested_load_returns).
Defined.

Lemma load_members_groups_by_position_witness :
  NoDup (config_ids scenario_config)
  ∧ load_members_grouping 8 (new_workflow scenario_config false)
    = Done scenario_grouped
  ∧ adjacent_grouped boxed_member_types (boxes scenario_grouped)
      (members scenario_grouped)
  ∧ groups_of_kinds boxed_member_types (boxes scenario_grouped)
      (members scenario_grouped).
Proof.
  assert (H1 : NoDup (config_ids (wf_config (new_workflow scenario_config false))))
    by (by_compute).
  assert (H2 : load_members_grouping 8 (new_workflow scenario_config false)
               = Done scenario_grouped) by (vm_compute; reflexivity).
  split; [exact H1|]. split; [exact H2|].
  destruct (load_members_groups_by_position 8
              (new_workflow scenario_config false) scenario_grouped H1 H2)
    as (Ha & Hg & _).
  split; [exact Ha | exact Hg].
Defined.

(** C7 as stated fails: a human and an agent that follow one another five
    units apart, both of kinds the statement calls substantive, end up in no
    common group (here: in no group at all). *)
Lemma human_agent_not_grouped :
  load_members_grouping 8 (new_workflow human_next_to_agent false)
  = Done human_next_to_agent_grouped
  ∧ boxes human_next_to_agent_grouped = []
  ∧ ¬ adjacent_grouped substantive_kinds_as_stated
        (boxes human_next_to_agent_grouped)
        (members human_next_to_agent_grouped).
Proof.
  split; [vm_compute; reflexivity|]. split; [reflexivity|].
  intros Hadj.
  destruct (Hadj []
              (built_member [] (MemberDict "1" None 100 0 user_config))
              (built_member [] (MemberDict "2" None 105 0 agent_config)) [])
    as (box & Hbox & _).
  - vm_compute. reflexivity.
  - unfold near. simpl. lia.
  - inversion Hbox.
Qed.

(** ** The next expected member and the turn parity *)

Section head_filter.
Context {A : Type} (P : A → Prop) `{∀ x, Decision (P x)}.

Lemma head_filter_None (l : list A) :
  head (filter P l) = None ↔ Forall (λ x, ¬ P x) l.
Proof.
  induction l as [|x l IH]; simpl.
  - split; [constructor | done].
  - rewrite filter_cons. case_decide; simpl.
    + split; [done|]. intros Hall. apply Forall_cons in Hall as [? _]. done.
    + rewrite IH. split; [by constructor|]. by intros [_ ?]%Forall_cons.
Qed.

Lemma head_filter_Some (l : list A) x :
  head (filter P l) = Some x
  ↔ ∃ pre post, l = pre ++ x :: post ∧ Forall (λ y, ¬ P y) pre ∧ P x.
Proof.
  induction l as [|y l IH]; simpl.
  - split; [done|]. intros (pre & post & Heq & _). by destruct pre.
  - rewrite filter_cons. case_decide as Hy; simpl.
    + split.
      * intros [= ->]. exists [], l. auto.
      * intros (pre & post & Heq & Hpre & Hx).
        destruct pre as [|z pre]; simpl in Heq; injection Heq as -> ->; [done|].
        apply Forall_cons in Hpre as [? _]. done.
    + rewrite IH. split.
      * intros (pre & post & -> & Hpre & Hx). exists (y :: pre), post. auto.
      * intros (pre & post & Heq & Hpre & Hx).
        destruct pre as [|z pre]; simpl in Heq; injection Heq as -> ->; [done|].
        apply Forall_cons in Hpre as [_ Hpre]. eauto.
Qed.

End head_filter.

Lemma get_members_default self :
  get_members self None []
  = filter (λ m, member_TYPE m ∈ turn_kinds) (dict_values (members self)).
Proof. reflexivity. Qed.

(** C6, as the code has it.  [next_expected_member()] looks only at the
    members [get_members()] returns, which leaves the structural nodes out:
    it returns none iff each of those has its turn output set, and otherwise
    the first of them, in the order of the mapping, whose turn output is
    unset. *)
Theorem next_expected_member_spec self :
  let considered := get_members self None [] in
  considered
  = filter (λ m, member_TYPE m ∈ turn_kinds) (dict_values (members self))
  ∧ (next_expected_member self = None
     ↔ Forall (λ m, turn_output m ≠ None) considered)
  ∧ (∀ m, next_expected_member self = Some m
          ↔ ∃ pre post,
              considered = pre ++ m :: post
              ∧ Forall (λ m, turn_output m ≠ None) pre
              ∧ turn_output m = None).
Proof.
  intros considered. split; [apply get_members_default|].
  unfold next_expected_member. fold considered. split.
  - rewrite head_filter_None. done.
  - intros m. rewrite head_filter_Some. done.
Qed.

(** C6 as stated fails: with the agent done and the structural node still
    without a turn output, [next_expected_member()] returns none although
    not every participant's turn output is set. *)
Lemma next_expected_member_ignores_nodes :
  next_expected_member agent_done_node_pending = None
  ∧ ¬ Forall (λ m, turn_output m ≠ None)
        (dict_values (members agent_done_node_pending))
  ∧ member_TYPE <$> dict_values (members agent_done_node_pending)
    = ["agent"; "node"].
Proof.
  split; [reflexivity|]. split; [|reflexivity].
  intros Hall. rewrite Forall_forall in Hall.
  refine (Hall (mkMember "2" node_config None 100 0 [] None None) _ eq_refl).
  by_compute.
Qed.

Lemma turn_outputs_all_set ms :
  None ∉ (turn_output <$> ms) ↔ Forall (λ m : Member, turn_output m ≠ None) ms.
Proof.
  rewrite Forall_forall, list_elem_of_fmap. split.
  - intros Hnone m Hm Heq. apply Hnone. eauto.
  - intros Hall (m & Heq & Hm). by apply (Hall m).
Qed.

(** C5, as the code has it.  [save_message] flips the turn parity exactly
    when it stores a message (the content is not empty after the
    normalisation) and every member returned by [get_members()] had its turn
    output set just before; in every other case the parity is left as it
    was.  A message id is returned exactly when a message is stored. *)
Theorem save_message_turn_parity self role content member_id :
  let after := save_message self role content member_id in
  let stored := normalized_content role content ≠ "" in
  let all_set :=
    Forall (λ m, turn_output m ≠ None) (get_members self None []) in
  (stored ∧ all_set →
     alt_turn_state (message_history after.1)
     = (1 - alt_turn_state (message_history self))%Z)
  ∧ (¬ (stored ∧ all_set) →
     alt_turn_state (message_history after.1)
     = alt_turn_state (message_history self))
  ∧ (stored ↔ is_Some after.2).
Proof.
  simpl. unfold save_message.
  destruct (decide (normalized_content role content = "")) as [He|He]; simpl.
  - split; [tauto|]. split; [done|]. split; [done | by intros [? ?]].
  - destruct (decide (Forall (λ m, turn_output m ≠ None)
                        (get_members self None []))) as [Hall|Hall].
    + rewrite bool_decide_eq_true_2 by (by apply turn_outputs_all_set). simpl.
      split; [done|]. split; [tauto|]. split; eauto.
    + rewrite bool_decide_eq_false_2 by (by rewrite turn_outputs_all_set). simpl.
      split; [tauto|]. split; [done|]. split; eauto.
Qed.

(** C5 as stated fails in both directions: at the first message of a fresh
    turn, when no participant has a turn output yet, the parity is left
    alone; once every participant has one, the next message flips it. *)
Lemma save_message_fresh_turn_keeps_parity :
  Forall (λ m, turn_output m = None) (dict_values (members single_agent_loaded))
  ∧ alt_turn_state
      (message_history (save_message single_agent_loaded "user" "Hi" "1").1)
    = alt_turn_state (message_history single_agent_loaded)
  ∧ (save_message single_agent_loaded "user" "Hi" "1").2 = Some 1
  ∧ Forall (λ m, turn_output m ≠ None) (dict_values (members single_agent_done))
  ∧ alt_turn_state
      (message_history (save_message single_agent_done "user" "Hi" "1").1)
    = (1 - alt_turn_state (message_history single_agent_done))%Z.
Proof.
  split; [by_compute|]. split; [reflexivity|]. split; [reflexivity|].
  split; [by_compute | reflexivity].
Qed.

(** ** Wrapping a single-entity document *)

Lemma load_iteration_ready nested ins self l md rest ms' :
  ll_iterable l = md :: rest →
  deferred ins self (md_id md) = false →
  known_kind md →
  (config_TYPE (md_config md) = "workflow" → nested (md_config md) = Done ()) →
  list_remove md (ll_members l) = Some ms' →
  load_iteration nested ins self l
  = let g := group_by_position (config_TYPE (md_config md)) (md_id md)
               (md_loc_x md) (boxes self) l in
    Done (set_members (λ ms, dict_set ms (md_id md) (built_member ins md))
            (set_boxes (λ _, g.1.1.1) self),
          LoadLocals ms' ms' g.2 g.1.2 g.1.1.2).
Proof.
  intros Hit Hdef Hk Hn Hrem.
  unfold load_iteration. rewrite Hit, Hdef.
  rewrite instantiate_member_ready by done. simpl.
  destruct (group_by_position _ _ _ _ _) as [[[bs cur] lx] lid].
  by rewrite Hrem.
Qed.

Lemma load_members_grouping_single cfg parent md :
  cfg_inputs cfg = [] →
  config_members cfg = [md] →
  known_kind md → config_TYPE (md_config md) ≠ "workflow" →
  ∃ w, load_members_grouping 1 (new_workflow cfg parent) = Done w
       ∧ members w = [(md_id md, built_member [] md)].
Proof.
  intros Hins Hms Hk Hw.
  unfold load_members_grouping, load_members_grouping_with.
  simpl wf_config. rewrite Hms, Hins.
  change (sorted_by_loc_x [md]) with [md].
  rewrite load_loop_step by done.
  rewrite (load_iteration_ready _ _ _ _ md [] []); try done;
    [|simpl; by rewrite decide_True].
  cbn [mbind run_bind]. rewrite load_loop_end by done.
  cbn [mbind run_bind].
  case_decide; eexists; split; reflexivity.
Qed.

Lemma load_members_grouping_pair cfg parent md1 md2 :
  cfg_inputs cfg = [] →
  config_members cfg = [md1; md2] →
  (md_loc_x md1 ≤ md_loc_x md2)%Z →
  md_id md1 ≠ md_id md2 →
  known_kind md1 → known_kind md2 →
  config_TYPE (md_config md1) ≠ "workflow" →
  config_TYPE (md_config md2) ≠ "workflow" →
  ∃ w, load_members_grouping 2 (new_workflow cfg parent) = Done w
       ∧ members w = [(md_id md1, built_member [] md1);
                      (md_id md2, built_member [] md2)].
Proof.
  intros Hins Hms Hle Hne Hk1 Hk2 Hw1 Hw2.
  unfold load_members_grouping, load_members_grouping_with.
  simpl wf_config. rewrite Hms, Hins.
  assert (Hs : sorted_by_loc_x [md1; md2] = [md1; md2])
    by (simpl; by rewrite bool_decide_eq_true_2).
  rewrite Hs.
  rewrite load_loop_step by done.
  rewrite (load_iteration_ready _ _ _ _ md1 [md2] [md2]); try done;
    [|simpl; by rewrite decide_True].
  cbn [mbind run_bind].
  rewrite load_loop_step by done.
  rewrite (load_iteration_ready _ _ _ _ md2 [] []); try done;
    [|simpl; by rewrite decide_True].
  cbn [mbind run_bind]. rewrite load_loop_end by done.
  cbn [mbind run_bind].
  case_decide; eexists; (split; [reflexivity|]); simpl;
    by rewrite (decide_False _ _ Hne).
Qed.

(** C8, as the code has it.  A document that is not a workflow document is
    wrapped into a workflow document without edges.  When its kind is agent
    (also the kind of a document that names none) the wrapper holds two
    participants, a human with id 1 and the configured one with id 2, and
    these are the two members [load_members] instantiates.  For every other
    kind the wrapper holds the configured participant alone, with id 1, and
    no human is added. *)
Theorem merge_config_wraps_single_entity cfg entity_id :
  config_TYPE cfg ≠ "workflow" →
  let wrapped := merge_config_into_workflow_config cfg entity_id in
  config_TYPE wrapped = "workflow"
  ∧ cfg_inputs wrapped = []
  ∧ config_members cfg
    = cfg_members (merge_config_into_workflow_config cfg None)
  ∧ (config_TYPE cfg = "agent" →
       cfg_members wrapped
       = [ MemberDict "1" None 20 64 user_config;
           MemberDict "2" entity_id 100 80 cfg ]
       ∧ (cfg_inputs cfg = [] →
          ∀ parent, ∃ w,
            load_members_grouping 2 (new_workflow cfg parent) = Done w
            ∧ member_kinds w = [("1", "user"); ("2", "agent")]))
  ∧ (config_TYPE cfg ≠ "agent" →
       cfg_members wrapped = [ MemberDict "1" None 100 80 cfg ]
       ∧ (cfg_inputs cfg = [] → config_TYPE cfg ∈ known_member_types →
          ∀ parent, ∃ w,
            load_members_grouping 1 (new_workflow cfg parent) = Done w
            ∧ member_kinds w = [("1", config_TYPE cfg)])).
Proof.
  intros Hwf wrapped.
  assert (Hcm : config_members cfg
                = cfg_members (merge_config_into_workflow_config cfg None))
    by (unfold config_members; by rewrite decide_False).
  unfold wrapped, merge_config_into_workflow_config.
  rewrite decide_False by done. simpl.
  split; [done|]. split; [done|]. split; [done|]. split; intros Hag.
  - rewrite decide_True by done. split; [done|].
    intros Hins parent.
    destruct (load_members_grouping_pair cfg parent
                (MemberDict "1" None 20 64 user_config)
                (MemberDict "2" None 100 80 cfg)) as (w & Hw & Hm); try done.
    + rewrite Hcm. unfold merge_config_into_workflow_config.
      rewrite decide_False by done. by rewrite decide_True.
    + by_compute.
    + unfold known_kind. simpl. rewrite Hag. by_compute.
    + exists w. split; [done|]. unfold member_kinds. rewrite Hm. simpl.
      unfold member_TYPE. simpl. by rewrite Hag.
  - rewrite decide_False by done. split; [done|].
    intros Hins Hknown parent.
    destruct (load_members_grouping_single cfg parent
                (MemberDict "1" None 100 80 cfg)) as (w & Hw & Hm); try done.
    + rewrite Hcm. unfold merge_config_into_workflow_config.
      rewrite decide_False by done. by rewrite decide_False.
    + exists w. split; [done|]. unfold member_kinds. by rewrite Hm.
Qed.

Lemma merge_config_wraps_single_entity_witness :
  config_TYPE agent_config ≠ "workflow"
  ∧ cfg_members (merge_config_into_workflow_config agent_config None)
    = [ MemberDict "1" None 20 64 user_config;
        MemberDict "2" None 100 80 agent_config ].
Proof.
  assert (H : config_TYPE agent_config ≠ "workflow") by discriminate.
  split; [exact H|].
  destruct (merge_config_wraps_single_entity agent_config None H)
    as (_ & _ & _ & Hagent & _).
  exact (proj1 (Hagent eq_refl)).
Defined.

(** C8 as stated fails: a single block document is wrapped into a workflow
    document of one participant, the block itself; no human is added, and
    one member is instantiated. *)
Lemma merge_config_block_alone :
  config_TYPE block_config ≠ "workflow"
  ∧ cfg_members (merge_config_into_workflow_config block_config None)
    = [ MemberDict "1" None 100 80 block_config ]
  ∧ ∃ w, load_members 4 (new_workflow block_config false) = Done w
         ∧ member_kinds w = [("1", "block")].
Proof.
  split; [discriminate|]. split; [reflexivity|].
  eexists. split; vm_compute; reflexivity.
Qed.

(** ** [add_input] *)

(** C10.  When the line being drawn ends on its own source member, or a
    line with the same target and source is already there, [add_input]
    returns with the settings as they were: no line is added and nothing is
    saved. *)
Theorem add_input_ignored fuel self member_id nl :
  new_line self = Some nl →
  member_id = nl_input_member_id nl
  ∨ (member_id, nl_input_member_id nl) ∈ dict_keys (lines self) →
  add_input fuel self member_id = Done self.
Proof.
  intros Hnl Hcase. unfold add_input. rewrite Hnl. simpl.
  destruct (decide (member_id = nl_input_member_id nl)) as [|Hne]; [done|].
  destruct Hcase as [|Hin]; [done|]. by rewrite decide_True.
Qed.

Lemma add_input_ignored_witness :
  add_input 0 (settings_chain false) "3" = Done (settings_chain false)
  ∧ add_input 0
      (mkSettings (members_in_view (settings_chain false))
         (lines (settings_chain false)) (Some (NewLine "1" false))
         (Some "entities") (Some "7") [] []) "2"
    = Done
        (mkSettings (members_in_view (settings_chain false))
           (lines (settings_chain false)) (Some (NewLine "1" false))
           (Some "entities") (Some "7") [] []).
Proof.
  split.
  - apply (add_input_ignored 0 (settings_chain false) "3" (NewLine "3" false));
      [reflexivity | left; reflexivity].
  - apply (add_input_ignored 0 _ "2" (NewLine "1" false));
      [reflexivity | right; by_compute].
Defined.

(** ** The check for circular references *)

Lemma connected_input_members_edge self (front : list string) c :
  c ∈ connected_input_members self front
  ↔ ∃ s, s ∈ front ∧ line_edge self s c.
Proof.
  unfold connected_input_members, line_edge.
  rewrite list_elem_of_fmap. setoid_rewrite list_elem_of_filter. split.
  - intros ([[a b] cfg] & -> & [Ha Hl] & Hin). simpl in *. eauto.
  - intros (s & Hs & cfg & Hin & Hl). exists ((s, c), cfg). auto.
Qed.

Lemma check_for_circular_references_true self tgt :
  ∀ fuel front,
    check_for_circular_references fuel self tgt front = Done true →
    ∃ s, s ∈ front ∧ tc (line_edge self) s tgt.
Proof.
  induction fuel as [|fuel IH]; intros front H; [done|].
  simpl in H. destruct (decide (tgt ∈ connected_input_members self front)) as [Hin|Hin].
  - apply connected_input_members_edge in Hin as (s & Hs & He).
    exists s. split; [done | by apply tc_once].
  - case_decide as Hlen; [done|].
    destruct (IH _ H) as (c & Hc & Hreach).
    apply connected_input_members_edge in Hc as (s & Hs & He).
    exists s. split; [done | by eapply tc_l].
Qed.

Lemma check_for_circular_references_false self tgt :
  ∀ fuel front,
    check_for_circular_references fuel self tgt front = Done false →
    ∀ s, s ∈ front → ¬ tc (line_edge self) s tgt.
Proof.
  induction fuel as [|fuel IH]; intros front H s Hs Hreach; [done|].
  simpl in H. destruct (decide (tgt ∈ connected_input_members self front)) as [Hin|Hin];
    [done|].
  assert (Hstep : ∀ c, line_edge self s c → c ∈ connected_input_members self front)
    by (intros c Hc; apply connected_input_members_edge; eauto).
  destruct Hreach as [s tgt He | s c tgt He Hreach].
  - by apply Hin, Hstep.
  - apply Hstep in He. case_decide as Hlen.
    + apply nil_length_inv in Hlen. rewrite Hlen in He. inversion He.
    + by apply (IH _ H c).
Qed.

Lemma check_for_circular_references_finds self tgt :
  ∀ n front s,
    s ∈ front → nsteps (line_edge self) (S n) s tgt →
    check_for_circular_references (S n) self tgt front = Done true.
Proof.
  induction n as [|n IH]; intros front s Hs Hpath.
  - inversion Hpath as [|? ? c ? He Hrest]; subst. inversion Hrest; subst.
    simpl. rewrite decide_True; [done|].
    apply connected_input_members_edge. eauto.
  - inversion Hpath as [|? ? c ? He Hrest]; subst.
    assert (Hc : c ∈ connected_input_members self front)
      by (apply connected_input_members_edge; eauto).
    change (check_for_circular_references (S (S n)) self tgt front)
      with (let connected := connected_input_members self front in
            if decide (tgt ∈ connected) then Done true
            else if decide (length connected = 0) then Done false
            else check_for_circular_references (S n) self tgt connected).
    simpl. case_decide as Hin; [done|]. case_decide as Hlen.
    + apply nil_length_inv in Hlen. rewrite Hlen in Hc. inversion Hc.
    + by apply (IH _ c).
Qed.

Lemma walks_bounded_mono self front k k' :
  k ≤ k' → walks_bounded self front k → walks_bounded self front k'.
Proof.
  intros Hle Hb s y Hs Hpath.
  replace (S k') with (S k + (k' - k)) in Hpath by lia.
  apply nsteps_add_inv in Hpath as (z & Hp & _). by apply (Hb s z).
Qed.

Lemma walks_bounded_connected self front k :
  walks_bounded self front (S k) →
  walks_bounded self (connected_input_members self front) k.
Proof.
  intros Hb c y Hc Hpath.
  apply connected_input_members_edge in Hc as (s & Hs & He).
  apply (Hb s y Hs). by eapply nsteps_l.
Qed.

(** The check has looked at every line once the walks are exhausted. *)
Lemma check_for_circular_references_returns self tgt :
  ∀ k front, walks_bounded self front k →
    ∃ cr, check_for_circular_references (S k) self tgt front = Done cr.
Proof.
  induction k as [|k IH]; intros front Hb.
  - simpl. case_decide as Hin; [eauto|]. case_decide as Hlen; [eauto|].
    exfalso. destruct (connected_input_members self front) as [|c l] eqn:E;
      [done|].
    assert (Hc : c ∈ connected_input_members self front) by (rewrite E; left).
    apply connected_input_members_edge in Hc as (s & Hs & He).
    apply (Hb s c Hs). by apply nsteps_once.
  - change (check_for_circular_references (S (S k)) self tgt front)
      with (let connected := connected_input_members self front in
            if decide (tgt ∈ connected) then Done true
            else if decide (length connected = 0) then Done false
            else check_for_circular_references (S k) self tgt connected).
    simpl. case_decide as Hin; [eauto|]. case_decide as Hlen; [eauto|].
    apply IH. by apply walks_bounded_connected.
Qed.

Lemma walks_bounded_list self (l : list string) :
  (∀ c, c ∈ l → ∃ k, walks_bounded self [c] k) →
  ∃ k, walks_bounded self l k.
Proof.
  induction l as [|c l IH]; intros Hall.
  - exists 0. intros s y Hs. inversion Hs.
  - destruct (Hall c) as [k1 Hk1]; [left|].
    destruct IH as [k2 Hk2]; [intros c' Hc'; apply Hall; by right|].
    exists (k1 `max` k2). intros s y [->|Hs]%elem_of_cons.
    + apply (walks_bounded_mono self [c] k1); [lia | done | left].
    + by apply (walks_bounded_mono self l k2); [lia | done |].
Qed.

Lemma sn_walks_bounded self s :
  sn (line_edge self) s → ∃ k, walks_bounded self [s] k.
Proof.
  induction 1 as [x _ IH].
  destruct (walks_bounded_list self (connected_input_members self [x]))
    as [k Hk].
  { intros c (s & ->%list_elem_of_singleton & He)%connected_input_members_edge.
    by apply IH. }
  exists (S k). intros s y ->%list_elem_of_singleton Hpath.
  inversion Hpath as [|? ? c ? He Hrest]; subst.
  apply (Hk c y); [|done].
  apply connected_input_members_edge. exists x. split; [left | done].
Qed.

Lemma acyclic_lines_sn self s : acyclic_lines self → sn (line_edge self) s.
Proof.
  intros Hacyc. apply tc_finite_sn.
  - intros x Hx. by apply (Hacyc x).
  - exists ((λ kl, kl.1.2) <$> lines self). intros y Hy.
    assert (Hlast : ∃ z, line_edge self z y).
    { induction Hy as [x y Hxy | x z y _ _ IH]; eauto. }
    destruct Hlast as (z & c & Hin & _).
    apply list_elem_of_fmap. by exists ((z, y), c).
Qed.

Lemma add_input_not_ignored fuel self tgt src looper :
  new_line self = Some (NewLine src looper) →
  tgt ≠ src → (tgt, src) ∉ dict_keys (lines self) →
  add_input fuel self tgt
  = check_for_circular_references fuel self tgt [src] ≫= λ cr_check,
      if cr_check && negb looper then Done (with_warning self)
      else
        input_member ← or_raise KeyError (dict_get (members_in_view self) src);
        member ← or_raise KeyError (dict_get (members_in_view self) tgt);
        match input_member with
        | None => Done self
        | Some _ => save_config (with_line self tgt src looper)
        end.
Proof.
  intros Hnl Hne Hnin. unfold add_input. rewrite Hnl. simpl.
  rewrite decide_False by done. rewrite decide_False by done.
  destruct (check_for_circular_references fuel self tgt [src]) as [cr| |]; simpl;
    [|done..].
  destruct (cr && negb looper); [|done].
  unfold with_warning. by rewrite Hnl.
Qed.

Lemma save_config_warnings self r :
  save_config self = Done r → warnings r = warnings self.
Proof.
  unfold save_config. destruct (db_table self); [|by intros [= <-]].
  destruct (selected_item_id self); [|done]. by intros [= <-].
Qed.

(** C3.  For a proposed line with target [tgt] and source [src], the check
    answers [True] exactly when walking the non-loop lines backwards from
    [src], over one or more lines, arrives at [tgt]; when it answers [False]
    there is no such walk; and it does answer when the non-loop lines form
    no cycle.  A line flagged as a loop is never turned down for a circular
    reference: whatever the check answered, [add_input] shows no warning
    and goes on to put the line in place and save.  The settings it saves
    hold the lines there were followed by the new line with its flag, and
    so do the settings [add_input] returns; it returns whenever the save
    does (no table is set, or an item is selected).  The same line without
    the flag is turned down whenever the check answers [True]: the lines
    stay as they were and the warning is shown. *)
Theorem check_for_circular_references_spec self tgt src :
  (tc (line_edge self) src tgt
   ↔ ∃ fuel, check_for_circular_references fuel self tgt [src] = Done true)
  ∧ (∀ fuel, check_for_circular_references fuel self tgt [src] = Done false →
             ¬ tc (line_edge self) src tgt)
  ∧ (acyclic_lines self →
     ∃ fuel cr, check_for_circular_references fuel self tgt [src] = Done cr)
  ∧ (∀ fuel r, new_line self = Some (NewLine src true) →
               add_input fuel self tgt = Done r → warnings r = warnings self)
  ∧ (∀ fuel cr vS vT,
       new_line self = Some (NewLine src true) →
       tgt ≠ src → (tgt, src) ∉ dict_keys (lines self) →
       check_for_circular_references fuel self tgt [src] = Done cr →
       dict_get (members_in_view self) src = Some (Some vS) →
       dict_get (members_in_view self) tgt = Some vT →
       add_input fuel self tgt = save_config (with_line self tgt src true)
       ∧ lines (with_line self tgt src true)
         = lines self ++ [((tgt, src), LineConfig "Message" true)]
       ∧ (∀ r, add_input fuel self tgt = Done r →
            lines r = lines self ++ [((tgt, src), LineConfig "Message" true)]
            ∧ new_line r = None
            ∧ warnings r = warnings self)
       ∧ (db_table self = None ∨ is_Some (selected_item_id self) →
          ∃ r, add_input fuel self tgt = Done r))
  ∧ (∀ fuel,
       new_line self = Some (NewLine src false) →
       tgt ≠ src → (tgt, src) ∉ dict_keys (lines self) →
       check_for_circular_references fuel self tgt [src] = Done true →
       add_input fuel self tgt = Done (with_warning self)
       ∧ lines (with_warning self) = lines self
       ∧ warnings (with_warning self)
         = warnings self ++ ["Circular reference detected"]).
Proof.
  split; [split|].
  - intros (n & Hpos & Hpath)%tc_nsteps. destruct n as [|n]; [lia|].
    exists (S n). apply (check_for_circular_references_finds self tgt n [src] src);
      [by left | done].
  - intros (fuel & H).
    apply check_for_circular_references_true in H as (s & ->%list_elem_of_singleton & H).
    done.
  - split.
    { intros fuel H. apply (check_for_circular_references_false self tgt fuel [src] H).
      by left. }
    split.
    { intros Hacyc.
      destruct (sn_walks_bounded self src (acyclic_lines_sn self src Hacyc))
        as [k Hk].
      exists (S k). by apply check_for_circular_references_returns. }
    split; [|split].
    + intros fuel r Hnl. unfold add_input. rewrite Hnl. simpl.
      case_decide as Hself; [by intros [= <-]|].
      case_decide as Hdup; [by intros [= <-]|].
      intros H. run_inv H. rewrite andb_false_r in H.
      run_inv H. run_inv H. destruct r1; [|by injection H as <-].
      by apply save_config_warnings in H.
    + intros fuel cr vS vT Hnl Hne Hnin Hcr HS HT.
      assert (Hadd : add_input fuel self tgt
                     = save_config (with_line self tgt src true)).
      { rewrite (add_input_not_ignored fuel self tgt src true Hnl Hne Hnin), Hcr.
        simpl. rewrite andb_false_r, HS, HT. done. }
      assert (Hlines : lines (with_line self tgt src true)
                = lines self ++ [((tgt, src), LineConfig "Message" true)])
        by (simpl; by apply dict_set_fresh).
      split; [done|]. split; [done|]. split.
      * intros r. rewrite Hadd. unfold save_config.
        destruct (db_table (with_line self tgt src true));
          [destruct (selected_item_id (with_line self tgt src true)); [|done]|];
          intros [= <-]; by rewrite <- Hlines.
      * rewrite Hadd. unfold save_config. simpl.
        intros [->|[i ->]]; [eauto|]. destruct (db_table self); eauto.
    + intros fuel Hnl Hne Hnin Hcr.
      by rewrite (add_input_not_ignored fuel self tgt src false Hnl Hne Hnin), Hcr.
Qed.

(** With the lines [2 <- 1] and [3 <- 2] in place, a line from [3] to [1]
    closes a cycle: the check answers [True]; with the flag the line is
    accepted and comes third among the lines, without it the line is
    turned down and the lines stay the two there were. *)
Lemma check_for_circular_references_spec_witness :
  tc (line_edge (settings_chain true)) "3" "1"
  ∧ (∃ r, add_input 2 (settings_chain true) "1" = Done r
          ∧ lines r = [ (("2", "1"), LineConfig "Message" false);
                        (("3", "2"), LineConfig "Message" false);
                        (("1", "3"), LineConfig "Message" true) ]
          ∧ new_line r = None
          ∧ warnings r = [])
  ∧ add_input 2 (settings_chain false) "1"
    = Done (with_warning (settings_chain false))
  ∧ lines (with_warning (settings_chain false))
    = [ (("2", "1"), LineConfig "Message" false);
        (("3", "2"), LineConfig "Message" false) ]
  ∧ warnings (with_warning (settings_chain false))
    = ["Circular reference detected"].
Proof.
  destruct (check_for_circular_references_spec (settings_chain true) "1" "3")
    as (Hreach & _ & _ & _ & Haccept & _).
  destruct (check_for_circular_references_spec (settings_chain false) "1" "3")
    as (_ & _ & _ & _ & _ & Hreject).
  split; [apply Hreach; exists 2; reflexivity|]. split.
  - destruct (Haccept 2 true (mkDraggable "agent" 200 0)
                (Some (mkDraggable "user" 0 0)))
      as (_ & _ & Hlines & Hreturns);
      try reflexivity; [discriminate | by_compute|].
    destruct Hreturns as [r Hr]; [by left|].
    exists r. split; [exact Hr|]. exact (Hlines r Hr).
  - apply Hreject; try reflexivity; [discriminate | by_compute].
Defined.

(** ** One turn *)

Lemma save_message_frame self role content id :
  members (save_message self role content id).1 = members self
  ∧ boxes (save_message self role content id).1 = boxes self
  ∧ wf_config (save_message self role content id).1 = wf_config self.
Proof. unfold save_message. case_decide; [done|]. by case_bool_decide. Qed.

(** A producer writes output slots and messages; it leaves the groups and
    the configuration alone. *)
Lemma apply_write_frame s self :
  boxes (apply_write s self) = boxes self
  ∧ wf_config (apply_write s self) = wf_config self.
Proof.
  destruct s; simpl; try done.
  destruct (save_message_frame self role content member_id0) as (_ & ? & ?).
  done.
Qed.

Lemma yields_true self member filter_role key :
  yields self member filter_role key = true →
  (∃ nem, next_expected_member self = Some nem
          ∧ member_id nem = member_id member
          ∧ pending_members self = [nem])
  ∧ (key = filter_role ∨ filter_role = "all").
Proof.
  unfold yields, next_expected_is_last_member, next_expected_member.
  fold (pending_members self).
  intros [[Hlast Hsame]%andb_true_iff Hrole%bool_decide_eq_true]%andb_true_iff.
  split; [|done].
  apply bool_decide_eq_true in Hlast.
  destruct (pending_members self) as [|nem [|? ?]]; try done.
  simpl in Hsame. apply bool_decide_eq_true in Hsame. eauto.
Qed.

Lemma stream_member_yields member p :
  ∀ self out self' out' e,
    stream_member (filter_role_of self) member p self out = (self', out', e) →
    get_member_async_group self (member_id member) = None →
    Forall yield_condition out →
    Forall yield_condition out'
    ∧ boxes self' = boxes self ∧ wf_config self' = wf_config self.
Proof.
  induction p as [|s p IH]; intros self out self' out' e H Hgrp Hout.
  - injection H as <- <- <-. done.
  - assert (Hwrite :
      stream_member (filter_role_of self) member p (apply_write s self) out
      = (self', out', e) →
      Forall yield_condition out'
      ∧ boxes self' = boxes self ∧ wf_config self' = wf_config self).
    { destruct (apply_write_frame s self) as [Hb Hc]. intros Hrec.
      destruct (IH (apply_write s self) out self' out' e) as (? & ? & ?).
      - unfold filter_role_of. by rewrite Hc.
      - unfold get_member_async_group. by rewrite Hb.
      - done.
      - repeat split; [done | congruence | congruence]. }
    destruct s as [id v | id v | role content id | key chunk | e0];
      try (by apply Hwrite).
    + simpl in H. case_bool_decide; [by injection H as <- <- <-|].
      destruct (yields self member (filter_role_of self) key) eqn:Hy.
      * apply (IH self _ self' out' e H Hgrp).
        apply Forall_app. split; [done|]. apply Forall_singleton.
        apply yields_true in Hy as [Hnem Hrole]. by split.
      * by apply (IH self out self' out' e H Hgrp).
    + simpl in H. by injection H as <- <- <-.
Qed.

Section turn_facts.
Variable run_member : Member → producer.
Variable get_final_message : Workflow → option (string * string).
Variable full_member_id : Workflow → string.
Variable read_log : Workflow → option exn.

Lemma receive_loop_yields from_member_id ms :
  ∀ found_source processed self out self' out' e,
    receive_loop run_member from_member_id ms found_source processed self out
    = (self', out', e) →
    Forall yield_condition out → Forall yield_condition out'.
Proof.
  induction ms as [|member ms IH];
    intros found_source processed self out self' out' e H Hout; simpl in H.
  - by injection H as <- <- <-.
  - destruct (negb _); [by eapply IH|].
    case_decide as Hproc; [by eapply IH|].
    destruct (get_member_async_group self (member_id member)) as [box|] eqn:Hgrp.
    + destruct (group_tasks _ _ _) as [[tasks processed']|].
      * destruct (gather run_member tasks _) as [self1 e1].
        destruct e1 as [e1|].
        -- destruct e1; try (by injection H as <- <- <-).
           destruct (negb (autorun self1)); [by injection H as <- <- <-|].
           destruct (_ && _); [by injection H as <- <- <-|]. by eapply IH.
        -- destruct (negb (autorun self1)); [by injection H as <- <- <-|].
           destruct (_ && _); [by injection H as <- <- <-|]. by eapply IH.
      * by injection H as <- <- <-.
    + destruct (stream_member _ _ _ _ _) as [[self1 out1] e1] eqn:Hs.
      apply (stream_member_yields member _ (set_gen_members [member_id member] self))
        in Hs as (Hout1 & _ & _); [|done..].
      destruct e1 as [e1|].
      * by destruct e1; injection H as <- <- <-.
      * destruct (negb (autorun self1)); [by injection H as <- <- <-|].
        destruct (_ && _); [by injection H as <- <- <-|]. by eapply IH.
Qed.

(** C4, as the code has it.  Every pair a turn hands to its caller was
    given by the producer of a member that belongs to no group, at a moment
    when that member was the next expected member and the only pending one
    among the members [get_members()] returns (all kinds but the structural
    nodes), and its key was let through by the role filter: the filter is
    ["all"] or equals the key. *)
Theorem receive_yields_only_last_pending from_member_id self y :
  y ∈ t_out (receive run_member get_final_message full_member_id read_log
               from_member_id self) →
  yield_condition y.
Proof.
  unfold receive. case_decide as Hlen; [intros Hy; inversion Hy|].
  unfold receive_body.
  destruct (receive_loop _ _ _ _ _ _ _) as [[self1 out1] e1] eqn:Hloop.
  apply receive_loop_yields in Hloop; [|constructor].
  rewrite Forall_forall in Hloop.
  destruct e1; [destruct (promote_final_message _ _ _ _) | |]; simpl;
    apply Hloop.
Qed.

(** C9.  However a turn is left, the bookkeeping of the running members is
    cleared; and on each of the four ways out of a turn that has members to
    run (at its end, on a pause, on a cancellation, or with the error of a
    producer on its way to the caller) the responding flag is false
    afterwards.  Only the call on a workflow without members returns before
    the flag is touched. *)
Theorem receive_cleans_up from_member_id self :
  let t := receive run_member get_final_message full_member_id read_log
             from_member_id self in
  gen_members (t_self t) = []
  ∧ (t_exit t = exit_no_members ↔ members self = [])
  ∧ (t_exit t ≠ exit_no_members → responding (t_self t) = false)
  ∧ (t_exit t = exit_no_members → responding (t_self t) = responding self).
Proof.
  unfold receive. case_decide as Hlen.
  - simpl in Hlen. apply nil_length_inv in Hlen. simpl. by rewrite Hlen.
  - assert (Hne : members self ≠ []).
    { intros Hnil. apply Hlen. simpl. by rewrite Hnil. }
    destruct (receive_body _ _ _ _ _ _) as [[self1 out1] e1]. simpl.
    split; [done|].
    destruct e1 as [| |[]]; (split; [split; [discriminate | done]|]);
      split; try done; discriminate.
Qed.

End turn_facts.

(** ** Example turns *)

(** The scenario of the specification: [U], then [A] and [B] as a group,
    then [C]; only the stream of [C] reaches the caller. *)
Example scenario_turn_yields_last_member :
  t_exit turn_scenario = exit_completed
  ∧ (λ y, (member_id (y_member y), y_key y, y_chunk y)) <$> t_out turn_scenario
    = [("C", "assistant", "Hel"); ("C", "assistant", "lo")]
  ∧ (λ km, (km.1, turn_output km.2)) <$> members (t_self turn_scenario)
    = [("U", Some "Hi"); ("A", Some "Hello"); ("B", Some "Hello");
       ("C", Some "Hello")].
Proof. vm_compute. done. Qed.

Lemma receive_yields_only_last_pending_witness :
  first_yield_completed ∈ t_out turn_completed
  ∧ y_chunk first_yield_completed = "Hel"
  ∧ yield_condition first_yield_completed.
Proof.
  assert (H : first_yield_completed ∈ t_out turn_completed) by by_compute.
  split; [exact H|]. split; [reflexivity|].
  exact (receive_yields_only_last_pending scripts_normal no_final_message
           root_member_id log_readable (Some "1") single_agent_loaded
           first_yield_completed H).
Defined.

(** C4 as stated fails: next to a structural node, whose turn output is
    never set, the chunks of the agent are handed to the caller although
    the agent is not the only participant whose turn output is unset. *)
Lemma receive_yields_beside_unset_node :
  first_yield_beside_node ∈ t_out turn_beside_node
  ∧ member_id (y_member first_yield_beside_node) = "1"
  ∧ (member_TYPE <$> dict_get (members (y_state first_yield_beside_node)) "2")
    = Some "node"
  ∧ (turn_output <$> dict_get (members (y_state first_yield_beside_node)) "2")
    = Some None
  ∧ ¬ only_unset_participant first_yield_beside_node.
Proof.
  split; [by_compute|]. do 3 (split; [reflexivity|]).
  intros Honly.
  specialize (Honly (mkMember "2" node_config None 100 0 [] None None)).
  assert (Heq : "2" = "1"); [|discriminate].
  apply Honly; [by_compute | reflexivity].
Qed.

Lemma receive_cleans_up_witness :
  (t_exit turn_completed = exit_completed
   ∧ gen_members (t_self turn_completed) = []
   ∧ responding (t_self turn_completed) = false)
  ∧ (t_exit turn_paused = exit_paused
     ∧ gen_members (t_self turn_paused) = []
     ∧ responding (t_self turn_paused) = false)
  ∧ (t_exit turn_cancelled = exit_cancelled
     ∧ gen_members (t_self turn_cancelled) = []
     ∧ responding (t_self turn_cancelled) = false)
  ∧ (t_exit turn_failed = exit_error (ProducerError "connection lost")
     ∧ gen_members (t_self turn_failed) = []
     ∧ responding (t_self turn_failed) = false).
Proof.
  destruct (receive_cleans_up scripts_normal no_final_message root_member_id
              log_readable (Some "1") single_agent_loaded)
    as (Hg1 & _ & Hr1 & _).
  destruct (receive_cleans_up scripts_normal no_final_message root_member_id
              log_readable None single_agent_loaded)
    as (Hg2 & _ & Hr2 & _).
  destruct (receive_cleans_up scripts_cancelled no_final_message
              root_member_id log_readable (Some "1") single_agent_loaded)
    as (Hg3 & _ & Hr3 & _).
  destruct (receive_cleans_up scripts_failing no_final_message
              root_member_id log_readable (Some "1") single_agent_loaded)
    as (Hg4 & _ & Hr4 & _).
  assert (E1 : t_exit turn_completed = exit_completed) by (vm_compute; reflexivity).
  assert (E2 : t_exit turn_paused = exit_paused) by (vm_compute; reflexivity).
  assert (E3 : t_exit turn_cancelled = exit_cancelled) by (vm_compute; reflexivity).
  assert (E4 : t_exit turn_failed = exit_error (ProducerError "connection lost"))
    by (vm_compute; reflexivity).
  split; [split; [exact E1 | split; [exact Hg1 | apply Hr1; unfold turn_completed in E1; rewrite E1; discriminate]]|].
  split; [split; [exact E2 | split; [exact Hg2 | apply Hr2; unfold turn_paused in E2; rewrite E2; discriminate]]|].
  split; [split; [exact E3 | split; [exact Hg3 | apply Hr3; unfold turn_cancelled in E3; rewrite E3; discriminate]]|].
  split; [exact E4 | split; [exact Hg4 | apply Hr4; unfold turn_failed in E4; rewrite E4; discriminate]].
Defined.

(** ** The validation ends *)

Lemma grounded_set ins ms k0 m0 :
  (∀ k m, dict_get ms k = Some m → inputs m = member_input_ids ins k) →
  inputs m0 = member_input_ids ins k0 →
  ∀ k, grounded ms k → grounded (dict_set ms k0 m0) k.
Proof.
  intros Hrec Hm0 k. induction 1 as [k m Hget _ IH].
  destruct (decide (k0 = k)) as [->|Hne].
  - apply (grounded_member _ k m0); [rewrite dict_get_set; by rewrite decide_True|].
    intros inp Hinp. apply IH. by rewrite (Hrec _ _ Hget), <- Hm0.
  - apply (grounded_member _ k m); [rewrite dict_get_set; by rewrite decide_False|].
    done.
Qed.

Lemma deferred_false ins self k :
  deferred ins self k = false →
  ∀ inp, inp ∈ member_input_ids ins k → inp ∈ dict_keys (members self).
Proof.
  unfold deferred. intros [Hlen|Hall]%andb_false_iff inp Hinp.
  - apply bool_decide_eq_false in Hlen.
    destruct (member_input_ids ins k); [inversion Hinp | simpl in Hlen; lia].
  - apply negb_false_iff, bool_decide_eq_true in Hall.
    rewrite Forall_forall in Hall. by apply Hall.
Qed.

Lemma group_by_position_ids member_type k x bs l bs' cur lx lid :
  group_by_position member_type k x bs l = (bs', cur, lx, lid) →
  (∀ box id, box ∈ bs' ++ [cur] → id ∈ box →
     id = k ∨ ll_last_member_id l = Some id
     ∨ ∃ box0, box0 ∈ bs ++ [ll_current_box_member_ids l] ∧ id ∈ box0)
  ∧ (∀ id, lid = Some id → id = k ∨ ll_last_member_id l = Some id).
Proof.
  unfold group_by_position. intros H.
  assert (Hold : ∀ id, id ∈ ll_current_box_member_ids l →
            ∃ box0, box0 ∈ bs ++ [ll_current_box_member_ids l] ∧ id ∈ box0).
  { intros id Hid. eexists. split; [apply elem_of_app; right; left | done]. }
  destruct (decide (member_type ∈ boxed_member_types)).
  - case_bool_decide.
    + injection H as <- <- <- <-. split; [|intros id [= <-]; auto].
      intros box id [Hin| ->%list_elem_of_singleton]%elem_of_app Hid.
      * right. right. exists box. split; [apply elem_of_app; by left | done].
      * destruct (ll_last_member_id l) as [last|].
        -- apply elem_of_union in Hid as [[Hid|Hid]%elem_of_union|Hid].
           ++ auto.
           ++ apply elem_of_singleton in Hid as ->. auto.
           ++ apply elem_of_singleton in Hid as ->. auto.
        -- apply elem_of_union in Hid as [Hid|Hid]; [auto|].
           apply elem_of_singleton in Hid as ->. auto.
    + case_decide as Hcur; injection H as <- <- <- <-;
        (split; [|intros id [= <-]; auto]); intros box id Hin Hid.
      * right. right. eauto.
      * apply elem_of_app in Hin as [Hin| ->%list_elem_of_singleton];
          [|set_solver]. right. right. eauto.
  - injection H as <- <- <- <-. split; [|auto].
    intros box id Hin Hid. right. right. eauto.
Qed.

Lemma walkable_iteration ins self l self' l' :
  walkable ins self l → iteration_kind ins self l self' l' →
  walkable ins self' l'.
Proof.
  intros [Hrec Hgr Hbox Hlast]
    [Hnil | md rest Hnext Hdef
     | md rest ms' bs cur lx lid Hnext Hdef Hknown Hrem Hgrp].
  - by constructor.
  - by constructor.
  - assert (Hrec' : ∀ k m, dict_get (members self) k = Some m →
                           inputs m = member_input_ids ins k)
      by (intros k m Hm; by destruct (Hrec k m Hm)).
    assert (Hkeys : ∀ id, id ∈ dict_keys (members self) →
              id ∈ dict_keys (dict_set (members self) (md_id md)
                                (built_member ins md)))
      by (intros id Hid; apply dict_keys_set; by right).
    assert (Hnew : md_id md ∈ dict_keys (dict_set (members self) (md_id md)
                                           (built_member ins md)))
      by (apply dict_keys_set; by left).
    apply group_by_position_ids in Hgrp as [Hids Hlid].
    constructor; simpl.
    + intros k m. simpl. rewrite dict_get_set.
      case_decide; [intros [= <-]; subst; done | apply Hrec].
    + intros k [->|Hk]%dict_keys_set.
      * apply (grounded_member _ _ (built_member ins md));
          [rewrite dict_get_set; by rewrite decide_True|].
        intros inp Hinp. apply (grounded_set ins); [done..|].
        apply Hgr. by apply (deferred_false ins self (md_id md)).
      * apply (grounded_set ins); [done..|]. by apply Hgr.
    + intros box id Hin Hid.
      destruct (Hids box id Hin Hid) as [->|[Hl|(box0 & Hin0 & Hid0)]]; eauto.
    + intros id Hid. destruct (Hlid id Hid) as [->|Hl]; eauto.
Qed.

Lemma uniform_fuel {A} (P : A → nat → Prop) (l : list A) :
  (∀ x, x ∈ l → ∃ f0, ∀ f, f0 ≤ f → P x f) →
  ∃ f0, ∀ x f, x ∈ l → f0 ≤ f → P x f.
Proof.
  induction l as [|x l IH]; intros Hall.
  - exists 0. intros x f Hx. inversion Hx.
  - destruct (Hall x) as [f1 Hf1]; [left|].
    destruct IH as [f2 Hf2]; [intros y Hy; apply Hall; by right|].
    exists (f1 `max` f2). intros y f [->|Hy]%elem_of_cons Hf.
    + apply Hf1. lia.
    + apply Hf2; [done | lia].
Qed.

(** From a grounded member the walk returns, whatever set is searched,
    once the fuel covers the depth of its dependencies. *)
Lemma walk_inputs_recursive_returns self k :
  grounded (members self) k →
  ∃ f0, ∀ f, f0 ≤ f →
    ∀ box, ∃ b, walk_inputs_recursive f self k box = Done b.
Proof.
  induction 1 as [k m Hget _ IH].
  destruct (uniform_fuel
              (λ inp f, ∀ box, ∃ b, walk_inputs_recursive f self inp box = Done b)
              (inputs m) IH) as [f0 Hf0].
  exists (S f0). intros f Hf box. destruct f as [|f]; [lia|].
  simpl. rewrite Hget. simpl.
  assert (Hinps : ∀ inp, inp ∈ inputs m →
            ∃ b, walk_inputs_recursive f self inp box = Done b)
    by (intros inp Hinp; apply Hf0; [done | lia]).
  revert Hinps. generalize (inputs m) as inps. generalize false as found.
  intros found inps. revert found.
  induction inps as [|inp inps IHi]; intros found Hinps; [eauto|].
  case_decide; [eauto|].
  assert (Hrest : ∀ x, x ∈ inps →
            ∃ b, walk_inputs_recursive f self x box = Done b)
    by (intros x Hx; apply Hinps; by right).
  destruct found; [by apply IHi|].
  destruct (Hinps inp) as [b Hb]; [left|]. rewrite Hb. simpl. by apply IHi.
Qed.

Lemma box_reaches_itself_returns f self ids box :
  (∀ id, id ∈ ids → ∃ b, walk_inputs_recursive f self id box = Done b) →
  ∃ b, box_reaches_itself f self ids box = Done b.
Proof.
  induction ids as [|id ids IH]; intros Hall; simpl; [eauto|].
  destruct (Hall id) as [b Hb]; [left|]. rewrite Hb. simpl.
  destruct b; [eauto|]. apply IH. intros x Hx. apply Hall. by right.
Qed.

Lemma collect_del_boxes_returns f self bs :
  (∀ box, box ∈ bs → ∃ b, box_reaches_itself f self (elements box) box = Done b) →
  ∃ del, collect_del_boxes f self bs = Done del.
Proof.
  induction bs as [|box bs IH]; intros Hall; simpl; [eauto|].
  destruct (Hall box) as [b Hb]; [left|]. rewrite Hb. simpl.
  destruct IH as [del Hdel]; [intros x Hx; apply Hall; by right|].
  rewrite Hdel. simpl. eauto.
Qed.

(** On a workflow whose members are grounded and whose groups hold ids of
    members, the validation returns for every fuel from some point on. *)
Lemma validate_boxes_returns self :
  (∀ k, k ∈ dict_keys (members self) → grounded (members self) k) →
  (∀ box id, box ∈ boxes self → id ∈ box → id ∈ dict_keys (members self)) →
  ∃ f0, ∀ f, f0 ≤ f → ∃ self', validate_boxes f self = Done self'.
Proof.
  intros Hgr Hbox.
  destruct (uniform_fuel
              (λ k f, ∀ box, ∃ b, walk_inputs_recursive f self k box = Done b)
              (dict_keys (members self))) as [f0 Hf0].
  { intros k Hk. by apply walk_inputs_recursive_returns, Hgr. }
  exists f0. intros f Hf. unfold validate_boxes.
  destruct (collect_del_boxes_returns f self (boxes self)) as [del Hdel].
  { intros box Hin. apply box_reaches_itself_returns.
    intros id Hid%elem_of_elements. apply Hf0; [|done]. by eapply Hbox. }
  rewrite Hdel. simpl.
  apply collect_del_boxes_Done in Hdel as [-> _].
  rewrite (remove_boxes_filter (box_found f self) (boxes self) [])
    by constructor.
  simpl. eauto.
Qed.

Lemma walkable_initial ins self l :
  ll_last_member_id l = None → ll_current_box_member_ids l = ∅ →
  walkable ins (set_boxes (λ _, []) (set_members (λ _, []) self)) l.
Proof.
  intros Hlast Hcur. constructor; simpl.
  - by intros k m.
  - intros k Hk. inversion Hk.
  - intros box id ->%list_elem_of_singleton. rewrite Hcur. set_solver.
  - intros id. by rewrite Hlast.
Qed.

(** Whenever the instantiation loop has returned, so does the rest of
    [load_members], for every fuel from some point on: with the loaded
    workflow, or with the [StopIteration] of the chat name when the members
    are two humans and nothing else. *)
Lemma load_members_returns fuel self grouped :
  load_members_grouping fuel self = Done grouped →
  ∃ f0, ∀ f, f0 ≤ f →
    ∃ validated,
      load_members_grouping f self = Done grouped
      ∧ validate_boxes f grouped = Done validated
      ∧ load_members f self = load_chat_name validated.
Proof.
  intros Hg.
  pose proof Hg as (self1 & l1 & Hloop & Hms & _ & Hbs)%load_members_grouping_Done.
  destruct (load_loop_invariant (walkable (cfg_inputs (wf_config self))) _
              (λ s l s' l' H, walkable_iteration _ s l s' l' H)
              _ _ _ _ _
              (walkable_initial (cfg_inputs (wf_config self)) self
                 (LoadLocals (sorted_by_loc_x (config_members (wf_config self)))
                    (sorted_by_loc_x (config_members (wf_config self)))
                    None (-100) ∅) eq_refl eq_refl) Hloop)
    as [[_ Hgr Hbox _] _].
  destruct (validate_boxes_returns grouped) as [f0 Hf0].
  { rewrite Hms. exact Hgr. }
  { rewrite Hms, Hbs. intros box id Hin. apply Hbox.
    case_decide; [apply elem_of_app; by left | done]. }
  exists (fuel `max` f0). intros f Hf.
  destruct (Hf0 f) as [validated Hv]; [lia|].
  exists validated.
  assert (Hg' : load_members_grouping f self = Done grouped)
    by (apply (load_members_grouping_mono fuel); [done | lia]).
  split; [done|]. split; [done|].
  rewrite load_members_unfold, Hg'. simpl. by rewrite Hv.
Qed.

(** C1.  Whatever the configuration, once the instantiation loop of
    [load_members] has returned, every group that the validation keeps is
    free of internal dependencies: from no member of the group does a walk
    over inbound non-loop edges, of any length, arrive at a member of the
    same group.  And the validation does return, for every fuel from some
    point on, so these groups are those of the loaded workflow. *)
Theorem load_members_boxes_independent fuel self grouped :
  load_members_grouping fuel self = Done grouped →
  (∀ f validated,
     validate_boxes f grouped = Done validated →
     ∀ box a b, box ∈ boxes validated → a ∈ box → b ∈ box →
       ¬ reaches (cfg_inputs (wf_config self)) a b)
  ∧ (∃ f0, ∀ f, f0 ≤ f →
       ∃ validated,
         validate_boxes f grouped = Done validated
         ∧ load_members f self = load_chat_name validated
         ∧ ∀ self', load_members f self = Done self' →
                    boxes self' = boxes validated).
Proof.
  intros Hg. split.
  - intros f validated Hv box a b Hbox Ha Hb Hab.
    apply validate_boxes_Done in Hv as (_ & _ & Hkept).
    destruct (Hkept _ Hbox) as [_ Hwalk].
    apply load_members_grouping_inputs_recorded in Hg.
    exact (walk_inputs_recursive_false _ _ box Hg f a (Hwalk a Ha) b Hab Hb).
  - destruct (load_members_returns fuel self grouped Hg) as [f0 Hf0].
    exists f0. intros f Hf. destruct (Hf0 f Hf) as (validated & _ & Hv & Hl).
    exists validated. split; [done|]. split; [done|].
    intros self' Hself'. rewrite Hl in Hself'.
    by apply load_chat_name_Done in Hself' as (_ & ? & _).
Qed.

Lemma load_members_boxes_independent_witness :
  load_members_grouping 8 (new_workflow scenario_config false)
  = Done scenario_grouped
  ∧ validate_boxes 8 scenario_grouped = Done scenario_validated
  ∧ boxes scenario_validated = [{[ "A" ]} ∪ {[ "B" ]}]
  ∧ ¬ reaches (cfg_inputs scenario_config) "A" "B".
Proof.
  assert (H1 : load_members_grouping 8 (new_workflow scenario_config false)
               = Done scenario_grouped) by (vm_compute; reflexivity).
  assert (H2 : validate_boxes 8 scenario_grouped = Done scenario_validated)
    by (vm_compute; reflexivity).
  assert (H3 : boxes scenario_validated = [{[ "A" ]} ∪ {[ "B" ]}])
    by (vm_compute; reflexivity).
  split; [exact H1|]. split; [exact H2|]. split; [exact H3|].
  destruct (load_members_boxes_independent 8 (new_workflow scenario_config false)
              scenario_grouped H1) as [Hfree _].
  apply (Hfree 8 scenario_validated H2 ({[ "A" ]} ∪ {[ "B" ]}) "A" "B");
    [rewrite H3; left | |]; by_compute.
Defined.

(* ================================================================== *)
(** * More of the edited workflow: proofs *)

(** ** One more edge in an acyclic relation *)

Lemma tc_with_edge (R : relation string) a b x y :
  tc (with_edge R a b) x y → tc R x y ∨ (rtc R x a ∧ rtc R b y).
Proof.
  induction 1 as [x y [Hxy|[-> ->]] | x z y [Hxz|[-> ->]] _ [IH|[IH1 IH2]]].
  - left. by apply tc_once.
  - right. split; apply rtc_refl.
  - left. by eapply tc_l.
  - right. split; [by eapply rtc_l | done].
  - right. split; [apply rtc_refl | by apply tc_rtc].
  - right. split; [apply rtc_refl | done].
Qed.

Lemma acyclic_with_edge (R : relation string) a b :
  (∀ x, ¬ tc R x x) → a ≠ b → ¬ tc R b a →
  ∀ x, ¬ tc (with_edge R a b) x x.
Proof.
  intros Hacyc Hne Hba x [Hx|[Hxa Hbx]]%tc_with_edge; [by apply (Hacyc x)|].
  assert (Hr : rtc R b a) by (by etrans).
  apply rtc_tc in Hr as [Heq|Hr]; [by subst | done].
Qed.

(** ** Lines after an assignment *)

Section dict_more.
Context {K V : Type} `{EqDecision K}.
Implicit Types (d : list (K * V)) (k : K) (v : V).

Lemma elem_of_dict_set d k v kv :
  kv ∈ dict_set d k v → kv ∈ d ∨ kv = (k, v).
Proof.
  induction d as [|[k0 v0] d IH]; simpl.
  - intros ->%list_elem_of_singleton. by right.
  - case_decide as Hk; subst; rewrite !elem_of_cons; [naive_solver|].
    intros [->|Hin]; [by left; left|]. destruct (IH Hin); auto.
Qed.

Lemma dict_set_elem_of d k v kv :
  kv ∈ d → kv.1 ≠ k → kv ∈ dict_set d k v.
Proof.
  induction d as [|[k0 v0] d IH]; simpl; [by intros ?%elem_of_nil|].
  intros [->|Hin]%elem_of_cons Hne.
  - rewrite decide_False by done. left.
  - case_decide; subst; right; auto.
Qed.

Lemma dict_keys_set_elem d k v :
  k ∈ dict_keys d → dict_keys (dict_set d k v) = dict_keys d.
Proof.
  unfold dict_keys. induction d as [|[k0 v0] d IH]; simpl.
  - by intros ?%elem_of_nil.
  - case_decide as Hk; subst; simpl; [done|].
    intros [?|Hin]%elem_of_cons; [congruence|]. f_equal. by apply IH.
Qed.

End dict_more.

Lemma save_config_Done self r :
  save_config self = Done r →
  members_in_view r = members_in_view self ∧ lines r = lines self
  ∧ new_line r = new_line self
  ∧ saved_inputs r
    = match db_table self with
      | Some _ => saved_inputs self ++ [get_config_inputs self]
      | None => saved_inputs self
      end.
Proof.
  unfold save_config. destruct (db_table self).
  - destruct (selected_item_id self); [|done]. by intros [= <-].
  - by intros [= <-].
Qed.

Lemma get_config_inputs_edge self a b :
  non_loop_edge (get_config_inputs self) a b ↔ line_edge self a b.
Proof.
  unfold non_loop_edge, line_edge, get_config_inputs. split.
  - intros (i & (kl & -> & Hin)%list_elem_of_fmap & <- & <- & Hloop).
    simpl in *. exists kl.2. by destruct kl as [[] ?].
  - intros (c & Hin & Hloop).
    exists (InputInfo a b (lc_input_type c) (lc_looper c)). split; [|done].
    apply list_elem_of_fmap. by exists ((a, b), c).
Qed.

Lemma acyclic_get_config_inputs self :
  acyclic (get_config_inputs self) ↔ acyclic_lines self.
Proof.
  unfold acyclic, acyclic_lines, reaches.
  assert (Heq : ∀ a b, tc (non_loop_edge (get_config_inputs self)) a b
                       ↔ tc (line_edge self) a b).
  { intros a b. split; apply tc_congruence with (f := id); intros x y;
      apply get_config_inputs_edge. }
  split; intros Hall a Ha; apply (Hall a); by apply Heq.
Qed.

(** The non-loop lines after the line [(a, b)] has been given the
    configuration [c]. *)
Lemma line_edge_set self a b c x y :
  line_edge (set_lines (dict_set (lines self) (a, b) c) self) x y →
  line_edge self x y ∨ (x = a ∧ y = b ∧ lc_looper c = false).
Proof.
  intros (c' & Hin & Hloop). simpl in Hin.
  apply elem_of_dict_set in Hin as [Hin|[= -> -> ->]]; [|auto].
  left. by exists c'.
Qed.

Lemma acyclic_lines_sub self r :
  (∀ x y, line_edge r x y → line_edge self x y) →
  acyclic_lines self → acyclic_lines r.
Proof.
  intros Hsub Hacyc a Ha. apply (Hacyc a).
  revert Ha. by apply tc_congruence with (f := id).
Qed.

(** Giving a line a configuration keeps the non-loop lines free of cycles
    when the line is flagged as a loop, or when its source does not reach
    its target. *)
Lemma acyclic_lines_set self a b c r :
  acyclic_lines self →
  (∀ x y, line_edge r x y →
          line_edge self x y ∨ (x = a ∧ y = b ∧ lc_looper c = false)) →
  lc_looper c = true ∨ (a ≠ b ∧ ¬ tc (line_edge self) b a) →
  acyclic_lines r.
Proof.
  intros Hacyc Hsub [Hloop|[Hne Hba]].
  - apply (acyclic_lines_sub self); [|done].
    intros x y [?|(_ & _ & ?)]%Hsub; [done | congruence].
  - intros x Hx.
    apply (acyclic_with_edge (line_edge self) a b Hacyc Hne Hba x).
    revert Hx. apply tc_congruence with (f := id).
    intros u v [?|(-> & -> & _)]%Hsub; [by left | by right].
Qed.

(** ** [add_input]: what it adds and what it keeps *)

Lemma add_input_Done fuel self member_id r :
  add_input fuel self member_id = Done r →
  r = self
  ∨ r = with_warning self
  ∨ ∃ nl cr,
      new_line self = Some nl
      ∧ member_id ≠ nl_input_member_id nl
      ∧ ((member_id, nl_input_member_id nl) ∉ dict_keys (lines self))
      ∧ check_for_circular_references fuel self member_id
          [nl_input_member_id nl] = Done cr
      ∧ cr && negb (nl_looper nl) = false
      ∧ member_id ∈ dict_keys (members_in_view self)
      ∧ nl_input_member_id nl ∈ dict_keys (members_in_view self)
      ∧ save_config
          (with_line self member_id (nl_input_member_id nl) (nl_looper nl))
        = Done r.
Proof.
  unfold add_input. destruct (new_line self) as [[src looper]|] eqn:Hnl; [|done].
  simpl. case_decide as Hne; [intros [= <-]; by left|].
  case_decide as Hnin; [intros [= <-]; by left|].
  intros H. run_inv H. rename r0 into cr.
  destruct (cr && negb looper) eqn:Hcr.
  { injection H as <-. right. left. unfold with_warning. by rewrite Hnl. }
  run_inv H. run_inv H. apply or_raise_Done in Hr0, Hr1.
  destruct r0 as [vS|]; [|injection H as <-; auto].
  right. right. exists (NewLine src looper), cr. simpl.
  repeat split; try done; apply dict_get_is_Some; eauto.
Qed.

Lemma acyclic_lines_ranked rank self :
  ranked rank (get_config_inputs self) → acyclic_lines self.
Proof. intros H. by apply acyclic_get_config_inputs, (ranked_acyclic rank). Qed.

(** X1.  Whenever [add_input] returns, the members in view are as before
    and the lines are either as before or have gained exactly one line, put
    last: the line from the source of the line being drawn to [member_id],
    of input type ["Message"] and with the loop flag of the drawn line.  In
    that case the drawn line is gone, and the configuration written to the
    table (when there is a table) holds the new line. *)
Theorem add_input_adds_one_line fuel self member_id r :
  add_input fuel self member_id = Done r →
  members_in_view r = members_in_view self
  ∧ (lines r = lines self
     ∨ ∃ nl,
         new_line self = Some nl
         ∧ lines r
           = lines self
             ++ [((member_id, nl_input_member_id nl),
                  LineConfig "Message" (nl_looper nl))]
         ∧ new_line r = None
         ∧ saved_inputs r
           = match db_table self with
             | Some _ => saved_inputs self ++ [get_config_inputs r]
             | None => saved_inputs self
             end).
Proof.
  intros [->|[->|(nl & cr & Hnl & Hne & Hnin & _ & _ & _ & _ & Hsave)]]%add_input_Done;
    [auto..|].
  apply save_config_Done in Hsave as (Hm & Hl & Hn & Hs).
  split; [done|]. right. exists nl. split; [done|].
  assert (Hlines : lines r = lines self
            ++ [((member_id, nl_input_member_id nl),
                 LineConfig "Message" (nl_looper nl))]).
  { rewrite Hl. simpl. by apply dict_set_fresh. }
  repeat split; [done..|].
  rewrite Hs. simpl. unfold get_config_inputs. by rewrite Hl.
Qed.

(** X2.  [add_input] keeps the non-loop lines free of cycles: a line that
    would close a cycle gets in only with the loop flag.  And every
    configuration it writes to the table has edges that are acyclic in the
    sense [load_members] needs. *)
Theorem add_input_keeps_acyclic fuel self member_id r :
  acyclic_lines self →
  add_input fuel self member_id = Done r →
  acyclic_lines r
  ∧ ∀ ins, ins ∈ saved_inputs r → ins ∈ saved_inputs self ∨ acyclic ins.
Proof.
  intros Hacyc
    [->|[->|(nl & cr & Hnl & Hne & Hnin & Hcr & Hflag & _ & _ & Hsave)]]%add_input_Done;
    [auto..|].
  apply save_config_Done in Hsave as (Hm & Hl & Hn & Hs).
  assert (Hr : acyclic_lines
                 (with_line self member_id (nl_input_member_id nl) (nl_looper nl))).
  { apply (acyclic_lines_set self member_id (nl_input_member_id nl)
             (LineConfig "Message" (nl_looper nl))); [done | |].
    - intros x y. apply line_edge_set.
    - simpl. destruct (nl_looper nl); [by left|]. right. split; [done|].
      rewrite andb_true_r in Hflag. subst cr.
      apply (check_for_circular_references_false _ _ _ _ Hcr). left. }
  split.
  - apply (acyclic_lines_sub
             (with_line self member_id (nl_input_member_id nl) (nl_looper nl)));
      [|done].
    intros x y (c & Hin & Hloop). exists c. by rewrite <- Hl.
  - intros ins. rewrite Hs. simpl. destruct (db_table self); [|auto].
    intros [?| ->%list_elem_of_singleton]%elem_of_app; [auto|].
    right. by apply acyclic_get_config_inputs.
Qed.

(** X3.  [add_input] never leaves a line with an end that is not a member
    in view: the look-ups of both ends raise [KeyError] before the line is
    put in place. *)
Theorem add_input_keeps_lines_in_view fuel self member_id r :
  lines_in_view self →
  add_input fuel self member_id = Done r →
  lines_in_view r.
Proof.
  intros Hview
    [->|[->|(nl & cr & Hnl & Hne & Hnin & _ & _ & Htgt & Hsrc & Hsave)]]%add_input_Done;
    [auto..|].
  apply save_config_Done in Hsave as (Hm & Hl & _ & _).
  intros key. rewrite Hl, Hm. simpl.
  intros [->|Hkey]%dict_keys_set; [done|]. by apply Hview.
Qed.

(** ** [InputSettings.save_config] *)

Lemma set_line_config_Done parent input_key conf r :
  InputSettings.set_line_config parent input_key conf = Done r →
  input_key ∈ dict_keys (lines parent)
  ∧ r = set_lines (dict_set (lines parent) input_key conf) parent.
Proof.
  unfold InputSettings.set_line_config. intros H. run_inv H.
  apply or_raise_Done in Hr. injection H as <-. split; [|done].
  apply dict_get_is_Some. eauto.
Qed.

(** X4.  Editing the configuration of a line between two different members
    keeps the non-loop lines free of cycles and the set of lines as it was.
    When the source of the line reaches its target over other non-loop
    lines, the line ends up flagged as a loop whatever the form said;
    otherwise it gets the configuration of the form. *)
Theorem input_settings_save_config_keeps_acyclic fuel parent input_key conf r :
  acyclic_lines parent → input_key.1 ≠ input_key.2 →
  InputSettings.save_config fuel parent input_key conf = Done r →
  acyclic_lines r
  ∧ dict_keys (lines r) = dict_keys (lines parent)
  ∧ (tc (line_edge parent) input_key.2 input_key.1 →
       dict_get (lines r) input_key
       = Some (LineConfig (lc_input_type conf) true))
  ∧ (¬ tc (line_edge parent) input_key.2 input_key.1 →
       dict_get (lines r) input_key = Some conf).
Proof.
  intros Hacyc Hne. unfold InputSettings.save_config.
  destruct input_key as [tgt src]. destruct conf as [ty looper]. simpl in *.
  intros H. run_inv H. rename r0 into cr.
  assert (Hcr : looper = false → (cr = true → tc (line_edge parent) src tgt)
                                 ∧ (cr = false → ¬ tc (line_edge parent) src tgt)).
  { intros ->. simpl in Hr. split; intros ->.
    - apply check_for_circular_references_true in Hr
        as (s & ->%list_elem_of_singleton & Hs). done.
    - apply (check_for_circular_references_false _ _ _ _ Hr). left. }
  destruct (negb looper && cr) eqn:Hflag.
  - apply andb_true_iff in Hflag as [->%negb_true_iff ->].
    destruct (Hcr eq_refl) as [Htc _].
    apply set_line_config_Done in H as [Hkey ->]. simpl in *.
    split; [|split; [|split]].
    + apply (acyclic_lines_set parent tgt src (LineConfig ty true));
        [done | | by left].
      intros x y (c & Hin & Hloop). apply (line_edge_set parent tgt src).
      by exists c.
    + by apply dict_keys_set_elem.
    + intros _. rewrite dict_get_set. by rewrite decide_True.
    + intros Hn. destruct Hn. by apply Htc.
  - run_inv H. apply set_line_config_Done in Hr0 as [Hkey ->].
    apply save_config_Done in H as (_ & Hl & _ & _). simpl in Hl.
    assert (Hget : dict_get (lines r) (tgt, src) = Some (LineConfig ty looper)).
    { rewrite Hl, dict_get_set. by rewrite decide_True. }
    split; [|split; [|split]].
    + apply (acyclic_lines_set parent tgt src (LineConfig ty looper));
        [done | |].
      * intros x y (c & Hin & Hloop). apply (line_edge_set parent tgt src).
        exists c. simpl. by rewrite <- Hl.
      * simpl. destruct looper; [by left|]. right. split; [done|].
        simpl in Hflag. subst cr. by apply Hcr.
    + rewrite Hl. by apply dict_keys_set_elem.
    + intros Htc. rewrite Hget. destruct looper; [done|].
      simpl in Hflag. subst cr. by destruct (proj2 (Hcr eq_refl) eq_refl).
    + done.
Qed.

(** ** The walk of the view over its lines *)

Lemma settings_member_inputs_edge self a b :
  b ∈ Settings.member_inputs self a ↔ line_edge self a b.
Proof.
  unfold Settings.member_inputs, line_edge.
  rewrite list_elem_of_fmap. setoid_rewrite list_elem_of_filter. split.
  - intros ([[x y] c] & -> & [<- Hloop] & Hin). simpl in *. eauto.
  - intros (c & Hin & Hloop). exists ((a, b), c). auto.
Qed.

Lemma settings_walk_true self search_list :
  ∀ fuel a,
    Settings.walk_inputs_recursive fuel self a search_list = Done true →
    ∃ t, t ∈ search_list ∧ tc (line_edge self) a t.
Proof.
  induction fuel as [|fuel IH]; intros a H; [done|]. simpl in H.
  assert (Hloop : ∃ inp, inp ∈ Settings.member_inputs self a
            ∧ (inp ∈ search_list
               ∨ Settings.walk_inputs_recursive fuel self inp search_list
                 = Done true)).
  { revert H. generalize (Settings.member_inputs self a) as inps.
    assert (Hgen : ∀ inps found,
      (fix for_inp (inps : list string) (found : bool) : run bool :=
         match inps with
         | [] => Done found
         | inp :: rest =>
             if decide (inp ∈ search_list) then Done true
             else if found then for_inp rest true
             else
               r ← Settings.walk_inputs_recursive fuel self inp search_list;
               for_inp rest r
         end) inps found = Done true →
      found = true
      ∨ ∃ inp, inp ∈ inps
          ∧ (inp ∈ search_list
             ∨ Settings.walk_inputs_recursive fuel self inp search_list
               = Done true)).
    { induction inps as [|inp inps IHi]; intros found H.
      - injection H as ->. by left.
      - case_decide as Hin; [right; exists inp; split; [left | by left]|].
        destruct found.
        + by left.
        + right.
          destruct (Settings.walk_inputs_recursive fuel self inp search_list)
            as [[]| |] eqn:Hw; simpl in H; try done.
          * exists inp. split; [left | by right].
          * destruct (IHi _ H) as [?|(x & Hx & Hor)]; [done|].
            exists x. split; [by right | done]. }
    intros inps H. by destruct (Hgen inps false H). }
  destruct Hloop as (inp & Hinp%settings_member_inputs_edge & [Hin|Hw]).
  - exists inp. split; [done | by apply tc_once].
  - destruct (IH _ Hw) as (t & Ht & Htc). exists t. split; [done|].
    by eapply tc_l.
Qed.

Lemma settings_walk_false self search_list :
  ∀ fuel a,
    Settings.walk_inputs_recursive fuel self a search_list = Done false →
    ∀ t, tc (line_edge self) a t → t ∉ search_list.
Proof.
  induction fuel as [|fuel IH]; intros a H; [done|]. simpl in H.
  assert (Hall : ∀ inp, inp ∈ Settings.member_inputs self a →
            (inp ∉ search_list)
            ∧ Settings.walk_inputs_recursive fuel self inp search_list
              = Done false).
  { revert H. generalize (Settings.member_inputs self a) as inps.
    induction inps as [|inp inps IHi]; intros H x Hx; [inversion Hx|].
    case_decide; [done|].
    destruct (Settings.walk_inputs_recursive fuel self inp search_list)
      as [[]| |] eqn:Hw; simpl in H; try done.
    - exfalso. clear -H. induction inps as [|y inps IHy]; [done|].
      case_decide; [done|auto].
    - apply elem_of_cons in Hx as [->|Hx]; auto. }
  intros t Hat. destruct Hat as [a t Hat | a c t Hac Hct].
  - apply settings_member_inputs_edge in Hat. by apply Hall.
  - apply settings_member_inputs_edge in Hac.
    apply Hall in Hac as [_ Hw]. by apply (IH c).
Qed.

Lemma settings_walk_returns self a :
  sn (line_edge self) a →
  ∃ f0, ∀ f, f0 ≤ f →
    ∀ search_list, ∃ b,
      Settings.walk_inputs_recursive f self a search_list = Done b.
Proof.
  induction 1 as [a _ IH].
  destruct (uniform_fuel
              (λ inp f, ∀ search_list, ∃ b,
                 Settings.walk_inputs_recursive f self inp search_list = Done b)
              (Settings.member_inputs self a)) as [f0 Hf0].
  { intros inp Hinp%settings_member_inputs_edge. by apply IH. }
  exists (S f0). intros f Hf search_list. destruct f as [|f]; [lia|].
  simpl.
  assert (Hinps : ∀ inp, inp ∈ Settings.member_inputs self a →
            ∃ b, Settings.walk_inputs_recursive f self inp search_list = Done b)
    by (intros inp Hinp; apply Hf0; [done | lia]).
  revert Hinps. generalize (Settings.member_inputs self a) as inps.
  generalize false as found. intros found inps. revert found.
  induction inps as [|inp inps IHi]; intros found Hinps; [eauto|].
  case_decide; [eauto|].
  assert (Hrest : ∀ x, x ∈ inps →
            ∃ b, Settings.walk_inputs_recursive f self x search_list = Done b)
    by (intros x Hx; apply Hinps; by right).
  destruct found; [by apply IHi|].
  destruct (Hinps inp) as [b Hb]; [left|]. rewrite Hb. simpl. by apply IHi.
Qed.

(** X5.  The walk of the view answers [True] only when a walk over one or
    more non-loop lines leads from [member_id] to a member of
    [search_list], and [False] only when there is none; with non-loop lines
    that form no cycle it does answer.  So it agrees with
    [check_for_circular_references] run the other way round: asking whether
    [src] reaches [tgt] gives the same answer by either function. *)
Theorem settings_walk_inputs_recursive_spec self member_id search_list :
  (∀ fuel,
     Settings.walk_inputs_recursive fuel self member_id search_list = Done true →
     ∃ t, t ∈ search_list ∧ tc (line_edge self) member_id t)
  ∧ (∀ fuel,
       Settings.walk_inputs_recursive fuel self member_id search_list
       = Done false →
       ∀ t, t ∈ search_list → ¬ tc (line_edge self) member_id t)
  ∧ (acyclic_lines self →
     ∃ fuel b,
       Settings.walk_inputs_recursive fuel self member_id search_list = Done b)
  ∧ (∀ f1 f2 tgt b1 b2,
       search_list = [tgt] →
       Settings.walk_inputs_recursive f1 self member_id search_list = Done b1 →
       check_for_circular_references f2 self tgt [member_id] = Done b2 →
       b1 = b2).
Proof.
  split; [|split; [|split]].
  - intros fuel. apply settings_walk_true.
  - intros fuel H t Ht Htc. by apply (settings_walk_false _ _ _ _ H t).
  - intros Hacyc.
    destruct (settings_walk_returns self member_id) as [f0 Hf0];
      [by apply acyclic_lines_sn|].
    exists f0. by apply Hf0.
  - intros f1 f2 tgt b1 b2 -> H1 H2. destruct b1, b2; try done.
    + apply settings_walk_true in H1 as (t & ->%list_elem_of_singleton & Htc).
      destruct (check_for_circular_references_false _ _ _ _ H2 member_id);
        [left | done].
    + apply check_for_circular_references_true in H2
        as (s & ->%list_elem_of_singleton & Htc).
      destruct (settings_walk_false _ _ _ _ H1 tgt Htc). left.
Qed.

(** ** [load_inputs] *)

Lemma set_lines_same self : set_lines (lines self) self = self.
Proof. by destruct self. Qed.

Lemma load_inputs_loop_app self pre rest :
  sources_in_view self pre →
  ∀ ls, load_inputs_loop self (pre ++ rest) ls
        = load_inputs_loop self rest (load_inputs_loop self pre ls).
Proof.
  induction 1 as [|i pre [m Hm] _ IH]; intros ls; simpl; [done|].
  by rewrite Hm, IH.
Qed.

Lemma load_inputs_loop_get_config self (l : list ((string * string) * line_config)) :
  ∀ acc,
    NoDup (dict_keys (acc ++ l)) →
    sources_in_view self
      ((λ kl, InputInfo kl.1.1 kl.1.2 (lc_input_type kl.2) (lc_looper kl.2))
         <$> l) →
    load_inputs_loop self
      ((λ kl, InputInfo kl.1.1 kl.1.2 (lc_input_type kl.2) (lc_looper kl.2))
         <$> l) acc
    = acc ++ l.
Proof.
  induction l as [|[[a b] [ty looper]] l IH]; intros acc Hnd Hsrc; simpl.
  - by rewrite app_nil_r.
  - apply Forall_cons in Hsrc as [[m Hm] Hsrc]. simpl in Hm. rewrite Hm.
    rewrite dict_set_fresh.
    + rewrite IH; [by rewrite <- app_assoc | by rewrite <- app_assoc | done].
    + unfold dict_keys in *. rewrite fmap_app in Hnd.
      apply NoDup_app in Hnd as (_ & Hdisj & _). intros Hin.
      apply (Hdisj _ Hin). left.
Qed.

(** X6.  Reloading the lines from the configuration the view has just
    produced gives the same lines back, in the same order and with the same
    configurations, provided the source of every line is a member in
    view. *)
Theorem load_inputs_get_config_inputs self :
  NoDup (dict_keys (lines self)) →
  sources_in_view self (get_config_inputs self) →
  load_inputs (get_config_inputs self) self = self.
Proof.
  intros Hnd Hsrc. unfold load_inputs, get_config_inputs.
  rewrite (load_inputs_loop_get_config self (lines self) []) by done.
  apply set_lines_same.
Qed.

(** X7.  [load_inputs] stops at the first input whose source member is
    not in view: that input and every input after it are left out, also
    those whose ends are both in view. *)
Theorem load_inputs_stops_at_missing_source self pre input_dict post :
  sources_in_view self pre →
  (∀ m, dict_get (members_in_view self) (in_input_member_id input_dict)
        ≠ Some (Some m)) →
  load_inputs (pre ++ input_dict :: post) self = load_inputs pre self.
Proof.
  intros Hpre Hmiss. unfold load_inputs. f_equal.
  rewrite (load_inputs_loop_app self pre (input_dict :: post) Hpre). simpl.
  destruct (dict_get (members_in_view self) (in_input_member_id input_dict))
    as [[m|]|] eqn:Hget; [by destruct (Hmiss m) | done..].
Qed.

(** ** [delete_selected_items] *)

Lemma pop_all_Done {K V} `{EqDecision K} (keys : list K) :
  ∀ (d d' : list (K * V)),
    pop_all keys d = Done d' → d' = filter (λ kv, kv.1 ∉ keys) d.
Proof.
  induction keys as [|k keys IH]; intros d d' H; simpl in H.
  - injection H as <-. induction d as [|kv d IHd]; [done|].
    rewrite filter_cons_True by apply not_elem_of_nil. by f_equal.
  - run_inv H. apply or_raise_Done in Hr. unfold dict_pop in Hr.
    case_decide; [|done]. injection Hr as <-.
    rewrite (IH _ _ H), list_filter_filter. apply list_filter_iff.
    intros kv. rewrite not_elem_of_cons. tauto.
Qed.

Lemma selected_for_deletion_spec self selected :
  ∀ dm0 di0 dm di,
    selected_for_deletion self selected dm0 di0 = (dm, di) →
    (∀ id, id ∈ dm ↔ id ∈ dm0 ∨ MemberItem id ∈ selected)
    ∧ (∀ key, key ∈ di ↔
         key ∈ di0 ∨ LineItem key.1 key.2 ∈ selected
         ∨ ∃ id, MemberItem id ∈ selected ∧ key ∈ lines_of_member self id).
Proof.
  induction selected as [|[id0|a b] selected IH]; intros dm0 di0 dm di H;
    simpl in H.
  - injection H as <- <-. split.
    + intros id. rewrite elem_of_nil. tauto.
    + intros key. rewrite elem_of_nil. split; [auto|].
      intros [?|[[]|(id & [] %elem_of_nil & _)]]. done.
  - destruct (IH _ _ _ _ H) as [Hm Hi]. split.
    + intros id. rewrite Hm, elem_of_union, elem_of_singleton, elem_of_cons.
      naive_solver.
    + intros key. rewrite Hi, elem_of_union, elem_of_list_to_set.
      setoid_rewrite elem_of_cons. naive_solver.
  - destruct (IH _ _ _ _ H) as [Hm Hi]. split.
    + intros id. rewrite Hm, elem_of_cons. naive_solver.
    + intros key. rewrite Hi, elem_of_union, elem_of_singleton.
      setoid_rewrite elem_of_cons. destruct key as [x y]. simpl. naive_solver.
Qed.

Lemma delete_selected_items_Done selected self r :
  delete_selected_items selected true self = Done r →
  r = self ∧ (∀ id, MemberItem id ∉ selected)
  ∨ ∃ dm di,
      selected_for_deletion self selected ∅ ∅ = (dm, di)
      ∧ members_in_view r = filter (λ kv, kv.1 ∉ dm) (members_in_view self)
      ∧ lines r = filter (λ kl, kl.1 ∉ di) (lines self).
Proof.
  unfold delete_selected_items.
  destruct (selected_for_deletion self selected ∅ ∅) as [dm di] eqn:Hsel.
  case_decide as Hcount.
  - intros [= <-]. left. split; [done|]. intros id Hid.
    destruct (selected_for_deletion_spec _ _ _ _ _ _ Hsel) as [Hm _].
    assert (Hin : id ∈ dm) by (apply Hm; by right).
    assert (size dm = 0) as Hsz%size_empty_inv by lia.
    by apply Hsz in Hin.
  - simpl. intros H. run_inv H. run_inv H.
    apply pop_all_Done in Hr, Hr0.
    apply save_config_Done in H as (Hm & Hl & _ & _). simpl in Hm, Hl.
    right. exists dm, di. split; [done|]. rewrite Hm, Hl, Hr, Hr0.
    split; apply list_filter_iff; intros kv; by rewrite elem_of_elements.
Qed.

(** X8.  After a confirmed deletion no selected member is in view any
    more and no line that is left starts or ends at one of them; the
    members and lines that are left are among those there were. *)
Theorem delete_selected_items_removes_lines selected self r id :
  delete_selected_items selected true self = Done r →
  MemberItem id ∈ selected →
  (id ∉ dict_keys (members_in_view r))
  ∧ (∀ key, key ∈ dict_keys (lines r) → key.1 ≠ id ∧ key.2 ≠ id)
  ∧ members_in_view r ⊆ members_in_view self
  ∧ lines r ⊆ lines self.
Proof.
  intros [[_ Hnone]|(dm & di & Hsel & Hm & Hl)]%delete_selected_items_Done Hid;
    [by destruct (Hnone id)|].
  destruct (selected_for_deletion_spec _ _ _ _ _ _ Hsel) as [Hdm Hdi].
  assert (Hin : id ∈ dm) by (apply Hdm; by right).
  split; [|split; [|split]].
  - rewrite Hm. unfold dict_keys.
    intros (kv & -> & [Hkv _]%list_elem_of_filter)%list_elem_of_fmap. done.
  - intros key. rewrite Hl. unfold dict_keys.
    intros (kl & -> & [Hkl Hkin]%list_elem_of_filter)%list_elem_of_fmap.
    assert (Hnot : ¬ (kl.1.1 = id ∨ kl.1.2 = id)); [|tauto].
    intros Hor. apply Hkl, Hdi. right. right. exists id. split; [done|].
    apply list_elem_of_filter. split; [done|].
    apply list_elem_of_fmap. eauto.
  - rewrite Hm. intros kv [_ ?]%list_elem_of_filter. done.
  - rewrite Hl. intros kv [_ ?]%list_elem_of_filter. done.
Qed.

(** X9.  A deletion, confirmed or not, keeps what the lines need: both
    ends of every line that is left are members in view, and the non-loop
    lines still form no cycle. *)
Theorem delete_selected_items_keeps_lines_sound selected confirmed self r :
  lines_in_view self → acyclic_lines self →
  delete_selected_items selected confirmed self = Done r →
  lines_in_view r ∧ acyclic_lines r.
Proof.
  intros Hview Hacyc H.
  destruct confirmed; cycle 1.
  { unfold delete_selected_items in H.
    destruct (selected_for_deletion self selected ∅ ∅) as [dm di].
    case_decide; simpl in H; injection H as <-; done. }
  apply delete_selected_items_Done in H
    as [[-> _]|(dm & di & Hsel & Hm & Hl)]; [done|].
  destruct (selected_for_deletion_spec _ _ _ _ _ _ Hsel) as [Hdm Hdi].
  split.
  - intros key. rewrite Hl, Hm. unfold dict_keys at 1.
    intros (kl & -> & [Hkl Hkin]%list_elem_of_filter)%list_elem_of_fmap.
    assert (Hkey : kl.1 ∈ dict_keys (lines self))
      by (apply list_elem_of_fmap; eauto).
    destruct (Hview _ Hkey) as [H1 H2].
    assert (Hkept : ∀ x, x ∈ dict_keys (members_in_view self) →
              (x = kl.1.1 ∨ x = kl.1.2) →
              x ∈ dict_keys (filter (λ kv, kv.1 ∉ dm) (members_in_view self))).
    { intros x (kv & -> & Hkv)%list_elem_of_fmap Hx.
      apply list_elem_of_fmap. exists kv. split; [done|].
      apply list_elem_of_filter. split; [|done].
      intros [Hempty|Hsel']%Hdm; [by apply not_elem_of_empty in Hempty|].
      apply Hkl, Hdi. right. right. exists kv.1. split; [done|].
      apply list_elem_of_filter. split; [|done]. destruct Hx; auto. }
    split; apply Hkept; auto.
  - apply (acyclic_lines_sub self); [|done].
    intros x y (c & Hin & Hloop). exists c. split; [|done].
    rewrite Hl in Hin. by apply list_elem_of_filter in Hin as [_ ?].
Qed.

(* ================================================================== *)
(** * More of the loaded workflow: proofs *)

Lemma load_members_Done fuel self self' :
  load_members fuel self = Done self' →
  ∃ grouped validated,
    load_members_grouping fuel self = Done grouped
    ∧ validate_boxes fuel grouped = Done validated
    ∧ load_chat_name validated = Done self'.
Proof.
  rewrite load_members_unfold. intros H. run_inv H. run_inv H. eauto.
Qed.

(** ** Groups share no member *)

Lemma apart_iteration ins self l self' l' :
  grouping self l → walkable ins self l → apart self l →
  iteration_kind ins self l self' l' → apart self' l'.
Proof.
  intros Hgrp Hwalk [Hdisj Hcur Hlast Hne]
    [Hnil | md rest Hnext Hdef
     | md rest ms' bs cur lx lid Hnext Hdef Hknown Hrem Hg].
  - by constructor.
  - by constructor.
  - apply list_remove_Some in Hrem.
    assert (Hfresh : md_id md ∉ dict_keys (members self)).
    { apply (grouping_fresh _ _ Hgrp). rewrite Hrem. left. }
    assert (Hnew : ∀ b, b ∈ boxes self ++ [ll_current_box_member_ids l] →
              md_id md ∉ b).
    { intros b Hb Hin. apply Hfresh. by apply (walkable_boxes _ _ _ Hwalk b). }
    assert (Hnewb : ∀ b, b ∈ boxes self → md_id md ∉ b)
      by (intros b Hb; apply Hnew, elem_of_app; by left).
    unfold group_by_position in Hg.
    destruct (decide (config_TYPE (md_config md) ∈ boxed_member_types)).
    + case_bool_decide.
      * injection Hg as <- <- <- <-. constructor; simpl; try done.
        -- intros b Hb.
           pose proof (Hcur b Hb) as Hc. pose proof (Hnewb b Hb) as Hn.
           pose proof (Hlast b) as Hl.
           destruct (ll_last_member_id l) as [last|].
           ++ specialize (Hl last Hb eq_refl). set_solver.
           ++ set_solver.
        -- intros b id Hb [= <-]. by apply Hnewb.
      * case_decide as Hempty; injection Hg as <- <- <- <-;
          constructor; simpl; try done.
        -- intros b id Hb [= <-]. by apply Hnewb.
        -- intros b1 b2 [H1| ->%list_elem_of_singleton]%elem_of_app
             [H2| ->%list_elem_of_singleton]%elem_of_app Hneq.
           ++ by apply Hdisj.
           ++ by apply Hcur.
           ++ symmetry. by apply Hcur.
           ++ done.
        -- intros b id Hb [= <-]. apply Hnew.
           apply elem_of_app in Hb as [?| ->%list_elem_of_singleton];
             apply elem_of_app; [by left | right; left].
        -- intros b [?| ->%list_elem_of_singleton]%elem_of_app; auto.
    + injection Hg as <- <- <- <-. by constructor.
Qed.

Lemma apart_initial self l :
  ll_last_member_id l = None →
  apart (set_boxes (λ _, []) (set_members (λ _, []) self)) l.
Proof.
  intros Hlast. constructor; simpl.
  - intros b1 b2 Hb. inversion Hb.
  - intros b Hb. inversion Hb.
  - intros b id Hb. inversion Hb.
  - intros b Hb. inversion Hb.
Qed.

Lemma load_members_grouping_apart fuel self grouped :
  NoDup (config_ids (wf_config self)) →
  load_members_grouping fuel self = Done grouped →
  boxes_disjoint (boxes grouped) ∧ ∀ b, b ∈ boxes grouped → b ≠ ∅.
Proof.
  intros Hnd (self1 & l1 & Hloop & Hms & _ & Hbs)%load_members_grouping_Done.
  set (ins := cfg_inputs (wf_config self)) in *.
  set (l0 := LoadLocals (sorted_by_loc_x (config_members (wf_config self)))
               (sorted_by_loc_x (config_members (wf_config self)))
               None (-100) ∅) in *.
  destruct (load_loop_invariant
              (λ s l, grouping s l ∧ walkable ins s l ∧ apart s l) ins)
    with (fuel := fuel)
         (self := set_boxes (λ _, []) (set_members (λ _, []) self))
         (l := l0) (self' := self1) (l' := l1)
    as [(_ & _ & [Hdisj Hcur _ Hne]) _].
  - intros s l s' l' (Hg & Hw & Ha) Hk. split; [|split].
    + by eapply grouping_iteration.
    + by eapply walkable_iteration.
    + by eapply apart_iteration.
  - split; [by apply grouping_initial|].
    split; [by apply walkable_initial | by apply apart_initial].
  - done.
  - rewrite Hbs. case_decide as Hempty; [done|]. split.
    + intros b1 b2 [H1| ->%list_elem_of_singleton]%elem_of_app
        [H2| ->%list_elem_of_singleton]%elem_of_app Hneq.
      * by apply Hdisj.
      * by apply Hcur.
      * symmetry. by apply Hcur.
      * done.
    + intros b [?| ->%list_elem_of_singleton]%elem_of_app; auto.
Qed.

(** X10.  With distinct configured ids, the groups of a loaded workflow
    are not empty and no member is in two of them; so the group
    [get_member_async_group] returns for a member is the one group that
    holds it. *)
Theorem load_members_boxes_disjoint fuel self self' :
  NoDup (config_ids (wf_config self)) →
  load_members fuel self = Done self' →
  boxes_disjoint (boxes self')
  ∧ (∀ b, b ∈ boxes self' → b ≠ ∅)
  ∧ (∀ id box, get_member_async_group self' id = Some box
               ↔ box ∈ boxes self' ∧ id ∈ box).
Proof.
  intros Hnd (grouped & validated & Hg & Hv & Hc)%load_members_Done.
  destruct (load_members_grouping_apart _ _ _ Hnd Hg) as [Hdisj Hne].
  apply validate_boxes_Done in Hv as (_ & _ & Hkept).
  apply load_chat_name_Done in Hc as (_ & Hbs & _).
  assert (Hsub : ∀ b, b ∈ boxes self' → b ∈ boxes grouped)
    by (intros b Hb; rewrite Hbs in Hb; by apply Hkept).
  assert (Hdisj' : boxes_disjoint (boxes self'))
    by (intros b1 b2 H1 H2; apply Hdisj; auto).
  split; [done|]. split; [auto|].
  intros id box. unfold get_member_async_group. split.
  - intros (pre & post & Heq & _ & Hin)%head_filter_Some. split; [|done].
    rewrite Heq. apply elem_of_app. right. left.
  - intros [Hbox Hid].
    destruct (head (filter (λ box0, id ∈ box0) (boxes self'))) as [b|] eqn:Hhd.
    + apply head_filter_Some in Hhd as (pre & post & Heq & _ & Hin).
      assert (Hb : b ∈ boxes self')
        by (rewrite Heq; apply elem_of_app; right; left).
      destruct (decide (b = box)) as [->|Hneq]; [done|].
      destruct (Hdisj' b box Hb Hbox Hneq id Hin Hid).
    + apply head_filter_None in Hhd. rewrite Forall_forall in Hhd.
      destruct (Hhd box Hbox Hid).
Qed.

(** ** Members come after the members they depend on *)

Lemma dict_keys_set_list {K V} `{EqDecision K} (d : list (K * V)) k v :
  dict_keys (dict_set d k v)
  = if decide (k ∈ dict_keys d) then dict_keys d else dict_keys d ++ [k].
Proof.
  case_decide as Hk.
  - by apply dict_keys_set_elem.
  - rewrite dict_set_fresh by done. unfold dict_keys. by rewrite fmap_app.
Qed.

Lemma dependency_ordered_iteration ins self l self' l' :
  dependency_ordered ins (dict_keys (members self)) →
  iteration_kind ins self l self' l' →
  dependency_ordered ins (dict_keys (members self')).
Proof.
  intros Hord [| |md rest ms' bs cur lx lid _ Hdef _ _ _]; try done.
  simpl. rewrite dict_keys_set_list. case_decide as Hk; [done|].
  intros i k Hi inp Hinp.
  apply lookup_app_Some in Hi as [Hi|[Hlen Hi]].
  - rewrite take_app_le by (apply lookup_lt_Some in Hi; lia). by eapply Hord.
  - apply list_lookup_singleton_Some in Hi as [Hi <-].
    assert (i = length (dict_keys (members self))) as -> by lia.
    rewrite take_app_length. by apply (deferred_false ins self (md_id md)).
Qed.

(** What holds of the members when the instantiation loop has returned. *)
Lemma load_members_grouping_ordered fuel self grouped :
  load_members_grouping fuel self = Done grouped →
  let ins := cfg_inputs (wf_config self) in
  NoDup (dict_keys (members grouped))
  ∧ dependency_ordered ins (dict_keys (members grouped))
  ∧ (∀ k, k ∈ config_ids (wf_config self) → k ∈ dict_keys (members grouped))
  ∧ (∀ k, k ∈ dict_keys (members grouped) → k ∈ config_ids (wf_config self)).
Proof.
  intros (self1 & l1 & Hloop & Hms & _ & _)%load_members_grouping_Done ins.
  rewrite Hms.
  destruct (load_loop_invariant
              (λ s l, loading (config_members (wf_config self)) ins s l
                      ∧ dependency_ordered ins (dict_keys (members s))) ins)
    with (fuel := fuel)
         (self := set_boxes (λ _, []) (set_members (λ _, []) self))
         (l := LoadLocals (sorted_by_loc_x (config_members (wf_config self)))
                 (sorted_by_loc_x (config_members (wf_config self)))
                 None (-100)%Z ∅)
         (self' := self1) (l' := l1)
    as [([_ _ Hcov Hbuilt Hnd] & Hord) Hnil].
  - intros s l s' l' [Hl Ho] Hk. split.
    + by eapply loading_iteration.
    + by eapply dependency_ordered_iteration.
  - split; [apply loading_initial|]. intros i k Hi. inversion Hi.
  - done.
  - split; [done|]. split; [done|]. split.
    + intros k (md & -> & Hmd)%list_elem_of_fmap.
      destruct (Hcov md Hmd) as [Hin|Hin]; [|done].
      rewrite Hnil in Hin. inversion Hin.
    + intros k (m & Hm)%dict_get_is_Some.
      destruct (Hbuilt _ _ Hm) as (md & Hmd & <- & _).
      apply list_elem_of_fmap. eauto.
Qed.

Lemma dict_get_lookup {K V} `{EqDecision K} (d : list (K * V)) i k v :
  NoDup (dict_keys d) → d !! i = Some (k, v) → dict_get d k = Some v.
Proof.
  unfold dict_keys. revert i. induction d as [|[k0 v0] d IH]; intros i Hnd Hi.
  - done.
  - simpl in Hnd. apply NoDup_cons in Hnd as [Hk0 Hnd]. simpl.
    destruct i as [|i]; simpl in Hi.
    + injection Hi as -> ->. by rewrite decide_True.
    + case_decide as Hk; [|by eapply IH]. subst k0. destruct Hk0.
      apply list_elem_of_fmap. exists (k, v). split; [done|].
      by eapply list_elem_of_lookup_2.
Qed.


(** ** Configurations the loop never gets through *)

Lemma dependency_ordered_reach ins (keys : list string) :
  dependency_ordered ins keys →
  ∀ a b, reaches ins a b →
  ∀ i, keys !! i = Some a → ∃ j, j < i ∧ keys !! j = Some b.
Proof.
  intros Hord a b Hab.
  induction Hab as [a b Hab | a c b Hac _ IH]; intros i Hi.
  - apply member_input_ids_edge in Hab.
    pose proof (Hord i a Hi b Hab) as Hin.
    apply list_elem_of_lookup in Hin as [j Hj].
    apply lookup_take_Some in Hj as [Hj Hlt]. eauto.
  - apply member_input_ids_edge in Hac.
    pose proof (Hord i a Hi c Hac) as Hin.
    apply list_elem_of_lookup in Hin as [j Hj].
    apply lookup_take_Some in Hj as [Hj Hlt].
    destruct (IH j Hj) as (j' & Hlt' & Hj'). exists j'. split; [lia | done].
Qed.

Lemma load_members_grouping_loadable fuel self grouped a :
  load_members_grouping fuel self = Done grouped →
  ¬ unloadable (wf_config self) a.
Proof.
  intros Hg [Ha Hbad].
  destruct (load_members_grouping_ordered _ _ _ Hg) as (Hnd & Hord & Hin & Hout).
  apply Hin in Ha. apply list_elem_of_lookup in Ha as [i Hi].
  destruct Hbad as [Hcyc|(b & Hab & Hb)].
  - destruct (dependency_ordered_reach _ _ Hord a a Hcyc i Hi) as (j & Hlt & Hj).
    pose proof (NoDup_lookup _ _ _ _ Hnd Hi Hj). lia.
  - apply Hb, Hout. apply member_input_ids_edge in Hab.
    apply (Hord i a Hi) in Hab. by apply (subseteq_take i) in Hab.
Qed.

Lemma load_loop_no_raise cfgm ins :
  Forall known_kind cfgm →
  nested_load_never_raises cfgm →
  ∀ fuel self l e,
    loading cfgm ins self l → load_loop fuel ins self l ≠ Raised e.
Proof.
  intros Hknown Hnested. induction fuel as [|fuel IH]; intros self l e Hl H.
  - simpl in H. by destruct (ll_members l).
  - destruct (ll_members l) as [|md0 pend] eqn:Hm;
      [by rewrite load_loop_end in H|].
    rewrite load_loop_step in H by (by rewrite Hm).
    destruct (load_iteration (load_nested fuel) ins self l)
      as [[self1 l1]|e'|] eqn:Hit; simpl in H.
    + apply load_iteration_Done in Hit.
      by apply (IH self1 l1 e (loading_iteration _ _ _ _ _ _ Hl Hit)).
    + clear H. unfold load_iteration in Hit.
      destruct (ll_iterable l) as [|md rest] eqn:Hnext; [done|].
      destruct (deferred ins self (md_id md)); [done|].
      assert (Hmd : md ∈ ll_members l).
      { apply (loading_iterable _ _ _ _ Hl). rewrite Hnext. left. }
      assert (Hcfg : md ∈ cfgm) by apply (loading_pending _ _ _ _ Hl), Hmd.
      unfold instantiate_member in Hit. rewrite decide_True in Hit.
      * case_decide as Hw.
        -- destruct (load_nested fuel (md_config md)) as [[]|e''|] eqn:Hn;
             simpl in Hit; [| by destruct (Hnested fuel md e'' Hcfg Hw) | done].
           destruct (group_by_position _ _ _ _ _) as [[[bs cur] lx] lid].
           destruct (list_remove_elem _ _ Hmd) as [ms' Hrem].
           by rewrite Hrem in Hit.
        -- simpl in Hit.
           destruct (group_by_position _ _ _ _ _) as [[[bs cur] lx] lid].
           destruct (list_remove_elem _ _ Hmd) as [ms' Hrem].
           by rewrite Hrem in Hit.
      * rewrite Forall_forall in Hknown. by apply Hknown.
    + done.
Qed.

(** With a participant the loop cannot get to, every kind known and no
    nested workflow that raises, the loop is still running when the fuel is
    spent, whatever the fuel. *)
Lemma load_members_grouping_spins fuel self a :
  unloadable (wf_config self) a →
  Forall known_kind (config_members (wf_config self)) →
  nested_load_never_raises (config_members (wf_config self)) →
  load_members_grouping fuel self = OutOfFuel.
Proof.
  intros Hbad Hknown Hnested.
  destruct (load_members_grouping fuel self) as [grouped|e|] eqn:Hg; [| |done].
  - by destruct (load_members_grouping_loadable _ _ _ a Hg).
  - exfalso. unfold load_members_grouping, load_members_grouping_with in Hg.
    destruct (load_loop _ _ _ _) as [[s1 l1]|e'|] eqn:Hloop; simpl in Hg;
      [by case_decide | | done].
    refine (load_loop_no_raise _ _ Hknown Hnested _ _ _ e' _ Hloop).
    apply loading_initial.
Qed.

Lemma load_nested_spins fuel cfg a :
  unloadable cfg a →
  Forall known_kind (config_members cfg) →
  nested_load_never_raises (config_members cfg) →
  load_nested fuel cfg = OutOfFuel.
Proof.
  intros Hbad Hknown Hnested.
  unfold load_nested, load_nested_with, load_with, load_members_with.
  match goal with
  | |- context [load_members_grouping_with (load_loop fuel) ?w] =>
      change (load_members_grouping_with (load_loop fuel) w)
        with (load_members_grouping fuel w);
      by rewrite (load_members_grouping_spins fuel w a)
  end.
Qed.

(** The pass in front of a nested workflow whose loading has not returned
    has not returned either. *)
Lemma load_iteration_nested_spins nested ins self l md rest :
  ll_iterable l = md :: rest →
  deferred ins self (md_id md) = false →
  config_TYPE (md_config md) = "workflow" →
  nested (md_config md) = OutOfFuel →
  load_iteration nested ins self l = OutOfFuel.
Proof.
  intros Hit Hdef Hw Hn. unfold load_iteration. rewrite Hit, Hdef.
  unfold instantiate_member. rewrite Hw, decide_True by by_compute.
  rewrite decide_True by done. by rewrite Hn.
Qed.

Lemma dangling_config_unloadable : unloadable dangling_config "2".
Proof.
  split; [by_compute|]. right. exists "9". split; [|by_compute].
  exists (InputInfo "2" "9" "Message" false). split; [left | done].
Qed.

Lemma dangling_config_never_raises :
  nested_load_never_raises (config_members dangling_config).
Proof.
  intros fuel md e Hmd Hw. exfalso. revert Hw.
  repeat (apply elem_of_cons in Hmd as [->|Hmd]); [done..|].
  inversion Hmd.
Qed.

Lemma load_iteration_unknown nested ins self l md rest :
  ll_iterable l = md :: rest →
  deferred ins self (md_id md) = false →
  ¬ known_kind md →
  load_iteration nested ins self l = Raised NotImplementedError.
Proof.
  intros Hit Hdef Hk. unfold load_iteration. rewrite Hit, Hdef.
  by rewrite instantiate_member_unknown.
Qed.

(** C2, as the claim has it, fails in three ways; each of the three
    workflows below has no edge, so that it meets what the claim asks of a
    configuration.  When the one participant is a nested workflow that
    cannot load, the loop never ends: the pass that builds the nested
    workflow never returns.  When two participants share an id, the loop
    ends with a mapping of one entry, the member built from the second of
    them: the first is dropped.  When the one participant is of a kind the
    loop does not know, the loop ends with [NotImplementedError] and no
    mapping. *)
Lemma load_members_loop_counterexamples :
  (acyclic (cfg_inputs nested_dangling)
   ∧ dependencies_exist nested_dangling
   ∧ Forall known_kind (config_members nested_dangling)
   ∧ NoDup (config_ids nested_dangling)
   ∧ ∀ fuel,
       load_members_grouping fuel (new_workflow nested_dangling false)
       = OutOfFuel)
  ∧ (acyclic (cfg_inputs same_id_config)
     ∧ dependencies_exist same_id_config
     ∧ Forall known_kind (config_members same_id_config)
     ∧ nested_load_returns (config_members same_id_config)
     ∧ ∃ self',
         (∀ fuel, 2 ≤ fuel →
            load_members_grouping fuel (new_workflow same_id_config false)
            = Done self')
         ∧ length (config_members same_id_config) = 2
         ∧ members self'
           = [("1", built_member [] (MemberDict "1" None 100 0 agent_config))])
  ∧ (acyclic (cfg_inputs tool_alone)
     ∧ dependencies_exist tool_alone
     ∧ NoDup (config_ids tool_alone)
     ∧ nested_load_returns (config_members tool_alone)
     ∧ ∀ fuel, 1 ≤ fuel →
         load_members_grouping fuel (new_workflow tool_alone false)
         = Raised NotImplementedError).
Proof.
  assert (Hacyc : acyclic []).
  { apply (ranked_acyclic (λ _, 0)). by_compute. }
  assert (Hdeps : ∀ cfg, cfg_inputs cfg = [] → dependencies_exist cfg).
  { intros cfg Hnil i Hi. rewrite Hnil in Hi. inversion Hi. }
  split; [|split].
  - split; [exact Hacyc|]. split; [by apply Hdeps|].
    split; [by_compute|]. split; [by_compute|].
    intros [|fuel]; [reflexivity|].
    unfold load_members_grouping, load_members_grouping_with.
    rewrite load_loop_step by by_compute.
    rewrite (load_iteration_nested_spins _ _ _ _
               (MemberDict "W" None 0 0 dangling_config) []); try done.
    apply (load_nested_spins fuel dangling_config "2").
    + exact dangling_config_unloadable.
    + by_compute.
    + exact dangling_config_never_raises.
  - split; [exact Hacyc|]. split; [by apply Hdeps|].
    split; [by_compute|]. split.
    { apply (nested_load_returns_at 0). repeat constructor; by intros [=]. }
    eexists. split; [|split; [reflexivity|]].
    + intros fuel Hfuel.
      apply (load_members_grouping_mono 2); [|done].
      vm_compute. reflexivity.
    + reflexivity.
  - split; [exact Hacyc|]. split; [by apply Hdeps|].
    split; [by_compute|]. split.
    { apply (nested_load_returns_at 0). repeat constructor; by intros [=]. }
    intros [|fuel] Hfuel; [lia|].
    unfold load_members_grouping, load_members_grouping_with.
    rewrite load_loop_step by by_compute.
    rewrite (load_iteration_unknown _ _ _ _
               (MemberDict "1" None 0 0 (Config (Some "tool") [] [] None None None))
               []); try done.
    by_compute.
Qed.

(** X12.  [load_members] gets through only when no configured participant
    reaches itself over non-loop edges and every non-loop dependency of a
    configured participant is configured too.  With a participant for which
    this fails [load_members] never returns.  When moreover every kind is
    known and no nested workflow raises while it loads, [load_members]
    raises nothing either: the [while] loop runs for ever. *)
Theorem load_members_unloadable fuel self a :
  unloadable (wf_config self) a →
  (∀ self', load_members fuel self ≠ Done self')
  ∧ (Forall known_kind (config_members (wf_config self)) →
     nested_load_never_raises (config_members (wf_config self)) →
     load_members fuel self = OutOfFuel).
Proof.
  intros Hbad. split.
  - intros self' (grouped & _ & Hg & _)%load_members_Done.
    by apply (load_members_grouping_loadable _ _ _ a Hg).
  - intros Hknown Hnested. rewrite load_members_unfold.
    by rewrite (load_members_grouping_spins fuel self a).
Qed.

(** ** Looking members up *)

(** X13.  What [get_members] returns: the members of the mapping, in
    its order, whose kind is among [incl_types] (every kind by default) and
    not among [excl_types].  A structural node is never returned, not even
    when [incl_types] asks for nodes. *)
Theorem get_members_spec self incl_types excl_types :
  get_members self incl_types excl_types `sublist_of` dict_values (members self)
  ∧ (∀ m, m ∈ get_members self incl_types excl_types
          ↔ m ∈ dict_values (members self)
            ∧ member_TYPE m ∈ default all_types incl_types
            ∧ (member_TYPE m ∉ excl_types)
            ∧ member_TYPE m ≠ "node")
  ∧ get_members self (Some ["node"]) excl_types = [].
Proof.
  split; [apply sublist_filter|]. split.
  - intros m. unfold get_members.
    rewrite list_elem_of_filter, list_elem_of_filter, elem_of_app,
      list_elem_of_singleton.
    tauto.
  - unfold get_members. simpl. rewrite filter_cons_False.
    + induction (dict_values (members self)) as [|m ms IH]; [done|].
      rewrite filter_cons_False; [done | apply not_elem_of_nil].
    + intros Hn. apply Hn, elem_of_app. right. left.
Qed.

Lemma length_filter_split {A} (P Q R : A → Prop)
    `{∀ x, Decision (P x)} `{∀ x, Decision (Q x)} `{∀ x, Decision (R x)}
    (l : list A) :
  (∀ x, R x ↔ P x ∨ Q x) → (∀ x, P x → Q x → False) →
  length (filter R l) = length (filter P l) + length (filter Q l).
Proof.
  intros HR Hex. induction l as [|x l IH]; [done|].
  rewrite !filter_cons.
  destruct (decide (P x)) as [HP|HP], (decide (Q x)) as [HQ|HQ].
  - destruct (Hex x HP HQ).
  - rewrite decide_True by (apply HR; auto). simpl. lia.
  - rewrite decide_True by (apply HR; auto). simpl. lia.
  - rewrite decide_False by (rewrite HR; tauto). done.
Qed.

Lemma get_members_kinds self :
  get_members self None ["user"]
  = filter (λ m, member_TYPE m ∈ ["agent"; "workflow"; "tool"; "block"])
      (dict_values (members self))
  ∧ get_members self (Some ["user"]) []
    = filter (λ m, member_TYPE m ∈ ["user"]) (dict_values (members self)).
Proof. split; reflexivity. Qed.

Lemma count_members_split self :
  length (get_members self None [])
  = length (get_members self None ["user"])
    + length (get_members self (Some ["user"]) []).
Proof.
  destruct (get_members_kinds self) as [-> ->]. rewrite get_members_default.
  apply length_filter_split.
  - intros m. unfold turn_kinds. rewrite !elem_of_cons, !elem_of_nil. tauto.
  - intros m H1 Hu%list_elem_of_singleton. rewrite Hu in H1. revert H1.
    rewrite !elem_of_cons, elem_of_nil.
    intros [?|[?|[?|[?|[]]]]]; discriminate.
Qed.

(** X14.  With its default arguments [count_members] counts the members
    [get_members()] returns (every member but the structural nodes), less
    one when a human is among them: only the first human is left out of
    the count. *)
Theorem count_members_default self :
  count_members self None true
  = length (get_members self None [])
    - (if decide (get_members self (Some ["user"]) [] = []) then 0 else 1).
Proof.
  unfold count_members. rewrite (count_members_split self).
  destruct (get_members self (Some ["user"]) []) as [|u us]; simpl; lia.
Qed.

(** X15.  The chat name set at the end of [load_members] raises exactly
    when the members, structural nodes apart, are two humans and nothing
    else: the count is then one and there is no other member to take
    the name from.  The exception is [StopIteration]; in every other case
    the name is set. *)
Theorem load_chat_name_raises self e :
  load_chat_name self = Raised e
  ↔ e = StopIteration
    ∧ get_members self None ["user"] = []
    ∧ length (get_members self (Some ["user"]) []) = 2.
Proof.
  unfold load_chat_name, count_members.
  destruct (get_members self None ["user"]) as [|m ms] eqn:Hothers; simpl.
  - case_decide as Hcount; simpl.
    + split; [intros [= <-]; split; [done|]; split; [done | lia]|].
      by intros (-> & _ & _).
    + split; [done|]. intros (_ & _ & Hlen). lia.
  - case_decide; split; try done; by intros (_ & ? & _).
Qed.

(** ** Messages produced by code *)

Lemma strip_is_empty_empty : strip_is_empty "" = true.
Proof. reflexivity. Qed.

(** White space outside ASCII is white space to [strip]: a text of
    no-break spaces and ideographic spaces between ASCII blanks is blank;
    an accented letter is not. *)
Example strip_is_empty_unicode :
  strip_is_empty (" " +:+ no_break_space +:+ ideographic_space +:+ " ") = true
  ∧ strip_is_empty no_break_space = true
  ∧ strip_is_empty e_acute = false
  ∧ strip_is_empty (no_break_space +:+ "a") = false.
Proof. vm_compute. done. Qed.

(** X16.  A message of role ["output"] is never dropped: blank content
    (empty, or white space only, the white space being that of
    [str.strip()], Unicode white space included) is handed to the history
    as the fixed text, any other content as it is, and the id the history
    gives is returned.  With the history as modelled, the message is put
    last and the earlier messages are kept. *)
Theorem save_message_output_never_dropped self content member_id :
  let after := save_message self "output" content member_id in
  let stored :=
    if strip_is_empty content then "The code executed without any output"
    else content in
  is_Some after.2
  ∧ ∃ parity,
      messages (message_history after.1)
      = messages (message_history self)
        ++ [Message "output" stored member_id parity].
Proof.
  simpl. unfold save_message, normalized_content. simpl.
  destruct (strip_is_empty content) eqn:Hblank.
  - simpl. case_bool_decide; simpl; eauto.
  - rewrite decide_False by (intros ->; by rewrite strip_is_empty_empty in Hblank).
    case_bool_decide; simpl; eauto.
Qed.

(** An output of one no-break space is stored as the fixed text. *)
Example save_message_output_no_break_space :
  messages (message_history
              (save_message single_agent_loaded "output" no_break_space "2").1)
  = [Message "output" "The code executed without any output" "2" 0].
Proof. vm_compute. reflexivity. Qed.

(** ** Loading reads the configuration only *)

Lemma load_iteration_graft nested ins b a l :
  load_iteration nested ins (graft b a) l
  = load_iteration nested ins a l ≫= λ '(a', l'), Done (graft b a', l').
Proof.
  unfold load_iteration. destruct (ll_iterable l) as [|md rest]; [done|].
  change (deferred ins (graft b a) (md_id md)) with (deferred ins a (md_id md)).
  destruct (deferred ins a (md_id md)); [done|].
  destruct (instantiate_member nested md _) as [m| |]; simpl; [|done..].
  change (boxes (graft b a)) with (boxes a).
  destruct (group_by_position _ _ _ _ _) as [[[bs cur] lx] lid].
  destruct (list_remove md (ll_members l)); done.
Qed.

Lemma load_loop_graft ins b :
  ∀ fuel a l,
    load_loop fuel ins (graft b a) l
    = load_loop fuel ins a l ≫= λ '(a', l'), Done (graft b a', l').
Proof.
  induction fuel as [|fuel IH]; intros a l;
    (destruct (decide (ll_members l = [])) as [Hm|Hm];
     [by rewrite !load_loop_end|]).
  - simpl. by destruct (ll_members l).
  - rewrite !load_loop_step by done. rewrite load_iteration_graft.
    destruct (load_iteration (load_nested fuel) ins a l) as [[a1 l1]| |];
      simpl; [|done..].
    apply IH.
Qed.

Lemma walk_inputs_recursive_graft b a search_list :
  ∀ fuel k,
    walk_inputs_recursive fuel (graft b a) k search_list
    = walk_inputs_recursive fuel a k search_list.
Proof.
  induction fuel as [|fuel IH]; intros k; [done|]. simpl.
  destruct (dict_get (members a) k) as [m|]; simpl; [|done].
  generalize false as found. induction (inputs m) as [|inp inps IHi];
    intros found; [done|].
  case_decide; [done|]. destruct found; [apply IHi|].
  rewrite IH. destruct (walk_inputs_recursive fuel a inp search_list);
    simpl; [apply IHi | done..].
Qed.

Lemma box_reaches_itself_graft fuel b a box ids :
  box_reaches_itself fuel (graft b a) ids box
  = box_reaches_itself fuel a ids box.
Proof.
  induction ids as [|id ids IH]; simpl; [done|].
  rewrite walk_inputs_recursive_graft.
  destruct (walk_inputs_recursive fuel a id box) as [[]| |]; simpl; done.
Qed.

Lemma collect_del_boxes_graft fuel b a bs :
  collect_del_boxes fuel (graft b a) bs = collect_del_boxes fuel a bs.
Proof.
  induction bs as [|box bs IH]; simpl; [done|].
  by rewrite box_reaches_itself_graft, IH.
Qed.

Lemma validate_boxes_graft fuel b a :
  validate_boxes fuel (graft b a)
  = validate_boxes fuel a ≫= λ a', Done (graft b a').
Proof.
  unfold validate_boxes. rewrite collect_del_boxes_graft.
  change (boxes (graft b a)) with (boxes a).
  destruct (collect_del_boxes fuel a (boxes a)) as [del| |]; simpl; [|done..].
  destruct (remove_boxes del (boxes a)); done.
Qed.

Lemma load_chat_name_graft b a :
  load_chat_name (graft b a)
  = load_chat_name a ≫= λ a', Done (set_chat_name (chat_name a') (graft b a')).
Proof.
  unfold load_chat_name.
  change (count_members (graft b a) None true) with (count_members a None true).
  change (get_members (graft b a) None ["user"]) with (get_members a None ["user"]).
  case_decide; [|done].
  destruct (head (get_members a None ["user"])); done.
Qed.

(** The outcome of [load_members] is that of loading any workflow with the
    same configured members and edges; the fields loading does not write
    are those of the workflow it is called on. *)
Lemma load_members_graft fuel b a :
  config_members (wf_config b) = config_members (wf_config a) →
  cfg_inputs (wf_config b) = cfg_inputs (wf_config a) →
  load_members fuel b
  = load_members fuel a ≫= λ r, Done (set_chat_name (chat_name r) (graft b r)).
Proof.
  intros Hm Hi.
  unfold load_members, load_members_with, load_members_grouping_with.
  rewrite Hm, Hi.
  change (set_boxes (λ _, []) (set_members (λ _, []) b))
    with (graft b (set_boxes (λ _, []) (set_members (λ _, []) a))).
  rewrite load_loop_graft.
  destruct (load_loop _ _ _ _) as [[a1 l1]| |]; simpl; [|done..].
  assert (Hv : ∀ a2, (validate_boxes fuel (graft b a2) ≫= load_chat_name)
             = (validate_boxes fuel a2 ≫= load_chat_name) ≫= λ r,
                 Done (set_chat_name (chat_name r) (graft b r))).
  { intros a2. rewrite validate_boxes_graft.
    destruct (validate_boxes fuel a2) as [a3| |]; simpl; [|done..].
    apply load_chat_name_graft. }
  case_decide; [exact (Hv a1)|].
  exact (Hv (set_boxes (λ bs, bs ++ [ll_current_box_member_ids l1]) a1)).
Qed.

Lemma load_members_frame fuel self self' :
  load_members fuel self = Done self' → wf_config self' = wf_config self.
Proof.
  intros (grouped & validated & Hg & Hv & Hc)%load_members_Done.
  apply load_members_grouping_Done in Hg as (_ & _ & _ & _ & Hg & _).
  apply validate_boxes_Done in Hv as (_ & Hv & _).
  apply load_chat_name_Done in Hc as (_ & _ & Hc). congruence.
Qed.

(** X17.  Loading again changes nothing: [load_members] on a workflow it
    has just loaded returns the same workflow.  And what it builds is read
    from the configuration alone: on any workflow with the same
    configuration it builds the same members, groups and chat name,
    whatever members and groups were there before. *)
Theorem load_members_reload fuel self self' :
  load_members fuel self = Done self' →
  load_members fuel self' = Done self'
  ∧ ∀ other, wf_config other = wf_config self →
      ∃ r, load_members fuel other = Done r
           ∧ members r = members self' ∧ boxes r = boxes self'
           ∧ chat_name r = chat_name self'.
Proof.
  intros H. pose proof (load_members_frame _ _ _ H) as Hcfg. split.
  - rewrite (load_members_graft fuel self' self) by (by rewrite Hcfg).
    rewrite H. simpl. by destruct self'.
  - intros other Ho.
    rewrite (load_members_graft fuel other self) by (by rewrite Ho).
    rewrite H. simpl. eauto.
Qed.

Lemma config_members_merge cfg :
  config_members (merge_config_into_workflow_config cfg None)
  = config_members cfg.
Proof.
  unfold merge_config_into_workflow_config, config_members.
  destruct (decide (config_TYPE cfg = "workflow")) as [Hty|Hty].
  - by rewrite !decide_True.
  - rewrite decide_True by done.
    unfold merge_config_into_workflow_config.
    by destruct (decide (config_TYPE cfg = "workflow")).
Qed.

(** X18.  For a workflow document, and for a single-entity document that
    has no ['inputs'] of its own, wrapping is transparent to the loader:
    loading the document directly, or loading the workflow document
    [merge_config_into_workflow_config] makes of it, builds the same
    members, the same groups and the same chat name.  (The loader reads
    the edges from the document it is given, and the wrapper has none: see
    [load_members_inputs_unwrapped] for a single-entity document with
    edges.) *)
Theorem load_members_wrapped fuel cfg parent r :
  config_TYPE cfg = "workflow" ∨ cfg_inputs cfg = [] →
  load_members fuel (new_workflow cfg parent) = Done r →
  ∃ r',
    load_members fuel
      (new_workflow (merge_config_into_workflow_config cfg None) parent)
    = Done r'
    ∧ members r' = members r ∧ boxes r' = boxes r
    ∧ chat_name r' = chat_name r.
Proof.
  intros Hins H.
  rewrite (load_members_graft fuel _ (new_workflow cfg parent)).
  - rewrite H. simpl. eauto.
  - apply config_members_merge.
  - simpl. unfold merge_config_into_workflow_config.
    case_decide; [done | by destruct Hins].
Qed.

(** A single-entity document that carries an edge loads with the edge,
    and the workflow document made of it without. *)
Example load_members_inputs_unwrapped :
  ∃ r r',
    load_members 8 (new_workflow agent_with_inputs false) = Done r
    ∧ load_members 8
        (new_workflow (merge_config_into_workflow_config agent_with_inputs None)
           false) = Done r'
    ∧ inputs <$> dict_values (members r) = [[]; ["1"]]
    ∧ inputs <$> dict_values (members r') = [[]; []].
Proof. eexists _, _. vm_compute. done. Qed.

(** ** The validation keeps the groups without inner dependencies *)

Lemma walk_inputs_recursive_true ins self search_list :
  inputs_recorded ins self →
  ∀ fuel a,
    walk_inputs_recursive fuel self a search_list = Done true →
    ∃ t, t ∈ search_list ∧ reaches ins a t.
Proof.
  intros Hrec. induction fuel as [|fuel IH]; intros a H; [done|].
  simpl in H. run_inv H. apply or_raise_Done in Hr.
  destruct (Hrec _ _ Hr) as [_ Hin].
  assert (Hloop : ∃ inp, inp ∈ inputs r
            ∧ (inp ∈ search_list
               ∨ walk_inputs_recursive fuel self inp search_list = Done true)).
  { clear Hin Hr. revert H. generalize (inputs r) as inps.
    assert (Hgen : ∀ inps found,
      (fix for_inp (inps : list string) (found : bool) : run bool :=
         match inps with
         | [] => Done found
         | inp :: rest =>
             if decide (inp ∈ search_list) then Done true
             else if found then for_inp rest true
             else
               r ← walk_inputs_recursive fuel self inp search_list;
               for_inp rest r
         end) inps found = Done true →
      found = true
      ∨ ∃ inp, inp ∈ inps
          ∧ (inp ∈ search_list
             ∨ walk_inputs_recursive fuel self inp search_list = Done true)).
    { induction inps as [|inp inps IHi]; intros found H.
      - injection H as ->. by left.
      - case_decide as Hin; [right; exists inp; split; [left | by left]|].
        destruct found.
        + by left.
        + right.
          destruct (walk_inputs_recursive fuel self inp search_list)
            as [[]| |] eqn:Hw; simpl in H; try done.
          * exists inp. split; [left | by right].
          * destruct (IHi _ H) as [?|(x & Hx & Hor)]; [done|].
            exists x. split; [by right | done]. }
    intros inps H. by destruct (Hgen inps false H). }
  destruct Hloop as (inp & Hinp & Hor). rewrite Hin in Hinp.
  apply member_input_ids_edge in Hinp. destruct Hor as [Hs|Hw].
  - exists inp. split; [done | by apply tc_once].
  - destruct (IH _ Hw) as (t & Ht & Htc). exists t. split; [done|].
    by eapply tc_l.
Qed.

Lemma box_reaches_itself_true fuel self ids box :
  box_reaches_itself fuel self ids box = Done true →
  ∃ a, a ∈ ids ∧ walk_inputs_recursive fuel self a box = Done true.
Proof.
  induction ids as [|x ids IH]; simpl; intros H; [done|].
  run_inv H. destruct r.
  - exists x. split; [left | done].
  - destruct (IH H) as (a & Ha & Hw). exists a. split; [by right | done].
Qed.

Lemma validate_boxes_filter fuel self self' :
  validate_boxes fuel self = Done self' →
  boxes self' = filter (λ b, ¬ box_found fuel self b) (boxes self).
Proof.
  unfold validate_boxes. intros H. run_inv H. run_inv H. injection H as <-.
  apply collect_del_boxes_Done in Hr as [-> _].
  rewrite (remove_boxes_filter (box_found fuel self) (boxes self) []) in Hr0
    by constructor.
  by injection Hr0 as <-.
Qed.

(** X19.  The validation decides by the dependencies alone: a group
    built by the grouping is kept exactly when no member of it reaches a
    member of it over non-loop edges.  So a group is dropped only for a
    dependency inside it, and every group without one is a group of the
    loaded workflow. *)
Theorem validate_boxes_keeps_independent fuel self grouped f validated box :
  load_members_grouping fuel self = Done grouped →
  validate_boxes f grouped = Done validated →
  box ∈ boxes validated
  ↔ box ∈ boxes grouped
    ∧ ∀ a b, a ∈ box → b ∈ box → ¬ reaches (cfg_inputs (wf_config self)) a b.
Proof.
  intros Hg Hv.
  pose proof (load_members_grouping_inputs_recorded _ _ _ Hg) as Hrec.
  pose proof (validate_boxes_filter _ _ _ Hv) as Hbs.
  apply validate_boxes_Done in Hv as (_ & _ & Hkept).
  split.
  - intros Hbox. destruct (Hkept _ Hbox) as [Hin Hwalk]. split; [done|].
    intros a b Ha Hb Hab.
    exact (walk_inputs_recursive_false _ _ box Hrec f a (Hwalk a Ha) b Hab Hb).
  - intros [Hin Hfree]. rewrite Hbs. apply list_elem_of_filter. split; [|done].
    unfold box_found.
    intros (a & Ha%elem_of_elements & Hw)%box_reaches_itself_true.
    destruct (walk_inputs_recursive_true _ _ _ Hrec _ _ Hw) as (t & Ht & Hat).
    by apply (Hfree a t).
Qed.

(** ** The chat of a single agent *)

(** X20.  Loading a single agent document returns, for every fuel from
    some point on, a workflow of two members, the human and the agent, and
    the chat is named after the agent: by its [info.name], or
    ["Assistant"] when the document gives none. *)
Theorem load_members_single_agent cfg parent :
  config_TYPE cfg = "agent" → cfg_inputs cfg = [] →
  ∃ f0, ∀ f, f0 ≤ f →
    ∃ r, load_members f (new_workflow cfg parent) = Done r
         ∧ member_kinds r = [("1", "user"); ("2", "agent")]
         ∧ chat_name r = default "Assistant" (cfg_info_name cfg).
Proof.
  intros Hag Hins.
  set (md1 := MemberDict "1" None 20 64 user_config).
  set (md2 := MemberDict "2" None 100 80 cfg).
  assert (Hwf : config_TYPE cfg ≠ "workflow") by (rewrite Hag; discriminate).
  destruct (load_members_grouping_pair cfg parent md1 md2) as (w & Hw & Hm);
    try done.
  { unfold config_members. rewrite decide_False by done.
    unfold merge_config_into_workflow_config.
    rewrite decide_False by done. by rewrite decide_True. }
  { by_compute. }
  { unfold known_kind. simpl. rewrite Hag. by_compute. }
  destruct (load_members_returns 2 _ w Hw) as [f0 Hf0].
  exists f0. intros f Hf. destruct (Hf0 f Hf) as (validated & _ & Hv & Hl).
  apply validate_boxes_Done in Hv as (Hmv & _ & _).
  assert (Hvals : dict_values (members validated)
                  = [built_member [] md1; built_member [] md2])
    by (by rewrite Hmv, Hm).
  assert (Ht1 : member_TYPE (built_member [] md1) = "user") by done.
  assert (Ht2 : member_TYPE (built_member [] md2) = "agent") by exact Hag.
  assert (Hothers : get_members validated None ["user"] = [built_member [] md2]).
  { rewrite (proj1 (get_members_kinds validated)), Hvals.
    rewrite filter_cons_False by (rewrite Ht1; by_compute).
    rewrite filter_cons_True by (rewrite Ht2; by_compute). done. }
  assert (Husers : get_members validated (Some ["user"]) []
                   = [built_member [] md1]).
  { rewrite (proj2 (get_members_kinds validated)), Hvals.
    rewrite filter_cons_True by (rewrite Ht1; by_compute).
    rewrite filter_cons_False by (rewrite Ht2; by_compute). done. }
  rewrite Hl. unfold load_chat_name, count_members.
  rewrite Hothers, Husers. simpl.
  eexists. split; [reflexivity|]. split; [|done].
  unfold member_kinds. simpl. rewrite Hmv, Hm. simpl.
  unfold member_TYPE. simpl. by rewrite Hag.
Qed.

(** ** A workflow that has just been loaded *)

Lemma dict_values_get {K V} `{EqDecision K} (d : list (K * V)) v :
  NoDup (dict_keys d) → v ∈ dict_values d → ∃ k, dict_get d k = Some v.
Proof.
  intros Hnd (kv & -> & Hin)%list_elem_of_fmap.
  apply list_elem_of_lookup in Hin as [i Hi]. destruct kv as [k v].
  exists k. by eapply dict_get_lookup.
Qed.

Lemma filter_all {A} (P : A → Prop) `{∀ x, Decision (P x)} (l : list A) :
  Forall P l → filter P l = l.
Proof.
  induction 1 as [|x l Hx _ IH]; [done|].
  by rewrite filter_cons_True, IH.
Qed.

(** X21.  In a workflow that has just been loaded no member has an
    output yet (members are built with both slots unset): the next
    expected member is the first member [get_members()] returns, and, when
    there is one, storing a message leaves the turn parity as it is. *)
Theorem load_members_starts_fresh fuel self self' :
  load_members fuel self = Done self' →
  Forall (λ m, turn_output m = None ∧ last_output m = None)
    (dict_values (members self'))
  ∧ next_expected_member self' = head (get_members self' None [])
  ∧ (get_members self' None [] ≠ [] →
     ∀ role content member_id,
       alt_turn_state
         (message_history (save_message self' role content member_id).1)
       = alt_turn_state (message_history self')).
Proof.
  intros (grouped & validated & Hg & Hv & Hc)%load_members_Done.
  apply validate_boxes_Done in Hv as (Hmv & _ & _).
  apply load_chat_name_Done in Hc as (Hmc & _ & _).
  apply load_members_grouping_Done in Hg as (self1 & l1 & Hloop & Hms & _ & _).
  destruct (load_loop_invariant
              (loading (config_members (wf_config self))
                 (cfg_inputs (wf_config self))) _
              (λ s l s' l' H, loading_iteration _ _ s l s' l' H)
              _ _ _ _ _ (loading_initial (wf_config self) self) Hloop)
    as [[_ _ _ Hbuilt Hnd] _].
  assert (Hfresh : Forall (λ m, turn_output m = None ∧ last_output m = None)
                     (dict_values (members self'))).
  { rewrite Hmc, Hmv, Hms. apply Forall_forall. intros m Hm.
    destruct (dict_values_get _ _ Hnd Hm) as [k Hk].
    by destruct (Hbuilt _ _ Hk) as (md & _ & _ & ->). }
  assert (Hpending : filter (λ m, turn_output m = None)
                       (get_members self' None [])
                     = get_members self' None []).
  { apply filter_all. rewrite Forall_forall in Hfresh.
    apply Forall_forall. intros m Hm.
    unfold get_members in Hm. apply list_elem_of_filter in Hm as [_ Hm].
    by apply Hfresh. }
  split; [done|]. split.
  - unfold next_expected_member. by rewrite Hpending.
  - intros Hne role content member_id. unfold save_message.
    case_decide; [done|].
    rewrite bool_decide_eq_false_2; [done|].
    intros Hnone. apply Hnone.
    destruct (get_members self' None []) as [|m ms] eqn:Hgm; [done|].
    assert (Hm : turn_output m = None).
    { assert (Hin : m ∈ filter (λ m, turn_output m = None) (m :: ms))
        by (rewrite Hpending; left).
      by apply list_elem_of_filter in Hin as [? _]. }
    rewrite fmap_cons, Hm. left.
Qed.

(** ** The view and the loaded workflow walk alike *)

(** X22.  The two walks agree.  When a workflow is loaded from the edges
    the view writes, the walk of the workflow over the inputs of its
    members and the walk of the view over its lines give the same answer
    for the same member and the same group, whenever both answer. *)
Theorem walk_inputs_recursive_agree s self fuel loaded f1 f2 a
    (box : gset string) b1 b2 :
  cfg_inputs (wf_config self) = get_config_inputs s →
  load_members fuel self = Done loaded →
  walk_inputs_recursive f1 loaded a box = Done b1 →
  Settings.walk_inputs_recursive f2 s a (elements box) = Done b2 →
  b1 = b2.
Proof.
  intros Hins (grouped & validated & Hg & Hv & Hc)%load_members_Done H1 H2.
  apply validate_boxes_Done in Hv as (Hmv & _ & _).
  apply load_chat_name_Done in Hc as (Hmc & _ & _).
  assert (Hrec : inputs_recorded (get_config_inputs s) loaded).
  { intros k m. rewrite Hmc, Hmv, <- Hins.
    apply (load_members_grouping_inputs_recorded _ _ _ Hg). }
  assert (Hedge : ∀ x y, reaches (get_config_inputs s) x y
                         ↔ tc (line_edge s) x y).
  { intros x y. split; apply tc_congruence with (f := id); intros u v;
      apply get_config_inputs_edge. }
  destruct b1, b2; try done.
  - destruct (walk_inputs_recursive_true _ _ _ Hrec _ _ H1) as (t & Ht & Hat).
    apply Hedge in Hat.
    destruct (settings_walk_false _ _ _ _ H2 t Hat). by apply elem_of_elements.
  - apply settings_walk_true in H2 as (t & Ht%elem_of_elements & Hat).
    apply Hedge in Hat.
    destruct (walk_inputs_recursive_false _ _ _ Hrec _ _ H1 t Hat Ht).
Qed.

(* ================================================================== *)
(** * More of the turn: proofs *)

Lemma apply_write_autorun s self :
  autorun (apply_write s self) = autorun self.
Proof.
  destruct s; simpl; try done.
  unfold save_message. case_decide; [done|]. by case_bool_decide.
Qed.

Lemma drain_member_autorun p :
  ∀ self, autorun (drain_member p self).1 = autorun self.
Proof.
  induction p as [|s p IH]; intros self; [done|].
  destruct s as [id v | id v | role content id | key chunk | e]; simpl;
    try done; rewrite IH.
  - exact (apply_write_autorun (SetTurnOutput id v) self).
  - exact (apply_write_autorun (SetLastOutput id v) self).
  - exact (apply_write_autorun (SaveMessage role content id) self).
Qed.

Lemma stream_member_from filter_role member p :
  ∀ self out self' out' e,
    stream_member filter_role member p self out = (self', out', e) →
    autorun self' = autorun self
    ∧ ∀ y, y ∈ out' → y ∈ out ∨ y_member y = member.
Proof.
  induction p as [|s p IH]; intros self out self' out' e H.
  - injection H as <- <- <-. auto.
  - assert (Hwrite :
      stream_member filter_role member p (apply_write s self) out
      = (self', out', e) →
      autorun self' = autorun self
      ∧ ∀ y, y ∈ out' → y ∈ out ∨ y_member y = member).
    { intros Hrec. destruct (IH _ _ _ _ _ Hrec) as [Ha Hy].
      by rewrite Ha, apply_write_autorun. }
    destruct s as [id v | id v | role content id | key chunk | e0];
      try (by apply Hwrite).
    + simpl in H. case_bool_decide; [injection H as <- <- <-; auto|].
      destruct (yields self member filter_role key).
      * destruct (IH _ _ _ _ _ H) as [Ha Hy]. split; [done|].
        intros y Hin. destruct (Hy y Hin) as [Hin'|?]; [|by right].
        apply elem_of_app in Hin' as [?| ->%list_elem_of_singleton];
          [by left | by right].
      * by apply (IH _ _ _ _ _ H).
    + simpl in H. injection H as <- <- <-. auto.
Qed.

Section turn_more.
Variable run_member : Member → producer.
Variable get_final_message : Workflow → option (string * string).
Variable full_member_id : Workflow → string.
Variable read_log : Workflow → option exn.

Lemma gather_autorun tasks :
  ∀ self, autorun (gather run_member tasks self).1 = autorun self.
Proof.
  induction tasks as [|m tasks IH]; intros self; [done|]. simpl.
  pose proof (drain_member_autorun (run_member m) self) as Hd.
  destruct (drain_member (run_member m) self) as [self1 e]. simpl in Hd.
  specialize (IH self1).
  destruct (gather run_member tasks self1) as [self2 e']. simpl in *.
  congruence.
Qed.

Lemma receive_loop_not_found id ms :
  (∀ m, m ∈ ms → member_id m ≠ id) →
  ∀ processed self out,
    receive_loop run_member (Some id) ms false processed self out
    = (self, out, body_end).
Proof.
  induction ms as [|m ms IH]; intros Hall processed self out; [done|].
  simpl. rewrite bool_decide_eq_false_2.
  - simpl. apply IH. intros m' Hm'. apply Hall. by right.
  - intros [[= Heq]|?]; [|done]. apply (Hall m); [left | done].
Qed.

(** X23.  A turn started from an id that no member carries runs no
    member: nothing is handed to the caller and the members are left as
    they were.  In a root workflow the turn ends as a completed one, with
    the workflow unchanged but for the cleared bookkeeping. *)
Theorem receive_unknown_source id self :
  members self ≠ [] →
  (∀ m, m ∈ dict_values (members self) → member_id m ≠ id) →
  let t := receive run_member get_final_message full_member_id read_log
             (Some id) self in
  t_out t = []
  ∧ members (t_self t) = members self
  ∧ (has_parent self = false →
     t = Turn (set_responding false (set_gen_members [] self)) []
           exit_completed).
Proof.
  intros Hne Hall. unfold receive. simpl.
  rewrite decide_False by (by destruct (members self)).
  unfold receive_body. simpl.
  rewrite receive_loop_not_found by done.
  unfold promote_final_message. simpl.
  destruct (has_parent self) eqn:Hp.
  - destruct (get_final_message _) as [[role content]|]; simpl; [|done].
    destruct (read_log _); simpl; [done|].
    split; [done|]. split; [|done].
    match goal with
    | |- context [save_message ?s ?r ?c ?i] =>
        destruct (save_message_frame s r c i) as (Hm & _ & _)
    end.
    by rewrite Hm.
  - simpl. split; [done|]. split; [done|]. intros _. by destruct self.
Qed.

Lemma receive_loop_first m0 ms self :
  autorun self = false ∨ member_TYPE m0 ∈ ["user"; "contact"] →
  ∃ self' out e,
    receive_loop run_member None (m0 :: ms) false ∅ self [] = (self', out, e)
    ∧ e ≠ body_end
    ∧ ∀ y, y ∈ out → y_member y = m0.
Proof.
  intros Hstop. simpl.
  destruct (decide (member_id m0 ∈ (∅ : gset string))) as [Hin|_];
    [by apply not_elem_of_empty in Hin|].
  assert (Hpause : ∀ s1 : Workflow, autorun s1 = autorun self →
            negb (autorun s1) = false →
            bool_decide (member_TYPE m0 ∈ ["user"; "contact"]) && true = true).
  { intros s1 Ha Hon. destruct Hstop as [Hoff|Hkind].
    - by rewrite Ha, Hoff in Hon.
    - by rewrite (bool_decide_eq_true_2 _ Hkind). }
  destruct (get_member_async_group self (member_id m0)) as [box|].
  - destruct (group_tasks _ _ _) as [[tasks processed']|]; simpl.
    + pose proof (gather_autorun tasks (set_gen_members (elements box) self))
        as Ha.
      destruct (gather run_member tasks _) as [self1 e1]. simpl in Ha.
      specialize (Hpause self1 Ha).
      destruct e1 as [[]|]; simpl;
        try (eexists _, _, _; split; [reflexivity|];
             split; [done | by intros y ?%elem_of_nil]);
        destruct (negb (autorun self1));
        try (eexists _, _, _; split; [reflexivity|];
             split; [done | by intros y ?%elem_of_nil]);
        rewrite Hpause by done;
        (eexists _, _, _; split; [reflexivity|];
         split; [done | by intros y ?%elem_of_nil]).
    + eexists _, _, _. split; [reflexivity|].
      split; [done | by intros y ?%elem_of_nil].
  - destruct (stream_member _ _ _ _ _) as [[self1 out1] e1] eqn:Hs.
    apply stream_member_from in Hs as [Ha Hout]. simpl in Ha.
    specialize (Hpause self1 Ha).
    assert (Hy : ∀ y, y ∈ out1 → y_member y = m0).
    { intros y Hin. destruct (Hout y Hin) as [?%elem_of_nil|?]; done. }
    destruct e1 as [[]|]; simpl;
      try (eexists _, _, _; split; [reflexivity|]; split; [done | exact Hy]);
      destruct (negb (autorun self1));
      try (eexists _, _, _; split; [reflexivity|]; split; [done | exact Hy]);
      rewrite Hpause by done;
      (eexists _, _, _; split; [reflexivity|]; split; [done | exact Hy]).
Qed.

(** X24.  A turn started without a source stops after the first member
    (or after its group) when autorun is off or when that member is a
    human: the turn never ends as a completed one, and every pair handed to
    the caller comes from that first member. *)
Theorem receive_stops_after_first m0 self :
  head (dict_values (members self)) = Some m0 →
  autorun self = false ∨ member_TYPE m0 ∈ ["user"; "contact"] →
  let t := receive run_member get_final_message full_member_id read_log
             None self in
  t_exit t ≠ exit_completed
  ∧ ∀ y, y ∈ t_out t → y_member y = m0.
Proof.
  intros Hhd Hstop. unfold receive. simpl.
  destruct (dict_values (members self)) as [|m ms] eqn:Hvals; [done|].
  injection Hhd as ->.
  rewrite decide_False
    by (unfold dict_values in Hvals; by destruct (members self)).
  unfold receive_body.
  change (members (set_responding true (set_gen_members [] self)))
    with (members self).
  rewrite Hvals.
  destruct (receive_loop_first m0 ms
              (set_responding true (set_gen_members [] self)) Hstop)
    as (self1 & out & e & -> & He & Hy).
  destruct e as [| |[]]; done.
Qed.

End turn_more.

(* ================================================================== *)
(** * More of the helpers: proofs *)

(** X25.  Wrapping twice is wrapping once: what
    [merge_config_into_workflow_config] returns is a workflow document, on
    which the function does nothing; a workflow document is returned as it
    is, whatever entity id is given. *)
Theorem merge_config_idempotent cfg entity_id entity_id' :
  let wrapped := merge_config_into_workflow_config cfg entity_id in
  config_TYPE wrapped = "workflow"
  ∧ merge_config_into_workflow_config wrapped entity_id' = wrapped
  ∧ (config_TYPE cfg = "workflow" → wrapped = cfg).
Proof.
  simpl.
  assert (Hty : config_TYPE (merge_config_into_workflow_config cfg entity_id)
                = "workflow").
  { unfold merge_config_into_workflow_config. by case_decide. }
  split; [done|]. split.
  - unfold merge_config_into_workflow_config at 1. by rewrite decide_True.
  - intros Hw. unfold merge_config_into_workflow_config. by rewrite decide_True.
Qed.

(** ** [flatten_list] *)

Lemma flatten_list_cons {A} (item : nested A) rest :
  flatten_list (item :: rest) = flatten_item item ++ flatten_list rest.
Proof. reflexivity. Qed.

Lemma flatten_list_app {A} (l1 l2 : list (nested A)) :
  flatten_list (l1 ++ l2) = flatten_list l1 ++ flatten_list l2.
Proof.
  induction l1 as [|x l1 IH]; [done|].
  rewrite <- app_comm_cons, !flatten_list_cons, IH. by rewrite app_assoc.
Qed.

Lemma flatten_list_flat {A} (l : list A) : flatten_list (Item <$> l) = l.
Proof.
  induction l as [|x l IH]; [done|].
  rewrite fmap_cons, flatten_list_cons, IH. done.
Qed.

(** X26.  [flatten_list] leaves a list without inner lists as it is,
    flattens a concatenation part by part, takes an inner list for its
    items, and flattening what is already flattened changes nothing. *)
Theorem flatten_list_spec {A} (l1 l2 : list (nested A)) (flat : list A) :
  flatten_list (Item <$> flat) = flat
  ∧ flatten_list (l1 ++ l2) = flatten_list l1 ++ flatten_list l2
  ∧ flatten_list (Nested l1 :: l2) = flatten_list l1 ++ flatten_list l2
  ∧ flatten_list (Item <$> flatten_list l1) = flatten_list l1.
Proof.
  split; [apply flatten_list_flat|]. split; [apply flatten_list_app|].
  split; [reflexivity | apply flatten_list_flat].
Qed.

(** ** [split_lang_and_code] *)

Lemma list_ascii_of_string_app s1 s2 :
  String.list_ascii_of_string (s1 +:+ s2)
  = String.list_ascii_of_string s1 ++ String.list_ascii_of_string s2.
Proof. induction s1 as [|c s1 IH]; simpl; [done | by rewrite IH]. Qed.

Lemma split_once_first sep before after :
  sep ∉ before →
  split_once sep (before ++ sep :: after) = Some (before, after).
Proof.
  induction before as [|c before IH]; simpl.
  - intros _. by rewrite decide_True.
  - intros [Hne Hnin]%not_elem_of_cons.
    rewrite decide_False by done. by rewrite IH.
Qed.

Lemma split_once_None sep s : sep ∉ s → split_once sep s = None.
Proof.
  induction s as [|c s IH]; simpl; [done|].
  intros [Hne Hnin]%not_elem_of_cons.
  rewrite decide_False by done. by rewrite IH.
Qed.

Lemma startswith_app prefix rest : startswith prefix (prefix ++ rest) = true.
Proof.
  unfold startswith. apply bool_decide_eq_true. by rewrite take_app_length.
Qed.

Lemma endswith_app suffix rest : endswith suffix (rest ++ suffix) = true.
Proof.
  unfold endswith. apply bool_decide_eq_true.
  rewrite length_app. replace (length rest + length suffix - length suffix)
    with (length rest) by lia.
  by rewrite drop_app_length.
Qed.

Lemma slice_3_3_fenced body : slice_3_3 (fence ++ body ++ fence) = body.
Proof.
  unfold slice_3_3. rewrite !length_app.
  change (length fence) with 3. change (drop 3 (fence ++ body ++ fence))
    with (body ++ fence).
  replace (3 + (length body + 3) - 3 - 3) with (length body) by lia.
  by rewrite take_app_length.
Qed.

(** X27.  A fenced block comes apart into its two parts: for a language
    tag without a line break, the text made of the fence, the tag, a line
    break, the code and the fence again is split into the tag and the code,
    whatever the code holds. *)
Theorem split_lang_and_code_fenced lang code :
  line_break ∉ String.list_ascii_of_string lang →
  split_lang_and_code
    ("```" +:+ lang +:+ String line_break code +:+ "```")
  = Done (Some lang, code).
Proof.
  intros Hlang. unfold split_lang_and_code.
  assert (Hchars :
    String.list_ascii_of_string
      ("```" +:+ lang +:+ String line_break code +:+ "```")
    = fence ++ (String.list_ascii_of_string lang
                ++ line_break :: String.list_ascii_of_string code) ++ fence).
  { rewrite !list_ascii_of_string_app. unfold fence. simpl.
    by rewrite <- ?app_assoc. }
  rewrite Hchars, startswith_app, slice_3_3_fenced.
  rewrite (app_assoc fence), endswith_app. cbn [andb].
  rewrite split_once_first by done.
  by rewrite !String.string_of_list_ascii_of_string.
Qed.

(** X28.  A text that starts and ends with the fence and holds no line
    break cannot be split: [split_lang_and_code] raises [ValueError].  The
    bare fence is such a text. *)
Theorem split_lang_and_code_no_line_break text :
  let chars := String.list_ascii_of_string text in
  startswith fence chars = true → endswith fence chars = true →
  line_break ∉ chars →
  split_lang_and_code text = Raised ValueError.
Proof.
  simpl. intros Hs He Hnl. unfold split_lang_and_code. rewrite Hs, He. simpl.
  rewrite split_once_None; [done|].
  intros Hin. apply Hnl. unfold slice_3_3 in Hin.
  by apply (subseteq_take _), (subseteq_drop 3) in Hin.
Qed.

(** ** [convert_to_safe_case] *)

Lemma map_chars_map_chars f g s :
  map_chars f (map_chars g s) = map_chars (λ c, f (g c)) s.
Proof. induction s as [|c s IH]; simpl; [done | by rewrite IH]. Qed.

Lemma lower_map_chars s : lower s = map_chars ascii_lower s.
Proof. induction s as [|c s IH]; simpl; [done | by rewrite IH]. Qed.

Lemma map_chars_ext f g s :
  (∀ c, f c = g c) → map_chars f s = map_chars g s.
Proof. intros H. induction s as [|c s IH]; simpl; [done | by rewrite H, IH]. Qed.

Lemma map_chars_chars f s :
  String.list_ascii_of_string (map_chars f s)
  = f <$> String.list_ascii_of_string s.
Proof. induction s as [|c s IH]; simpl; [done | by rewrite IH]. Qed.

Lemma convert_to_safe_case_map text :
  convert_to_safe_case text = map_chars safe_char text.
Proof.
  unfold convert_to_safe_case, replace_char.
  rewrite lower_map_chars, !map_chars_map_chars. done.
Qed.

Lemma safe_char_safe c : is_lower_safe_char (safe_char c) = true.
Proof. destruct c as [[] [] [] [] [] [] [] []]; vm_compute; reflexivity. Qed.

Lemma safe_char_fixed c : is_lower_safe_char c = true → safe_char c = c.
Proof.
  destruct c as [[] [] [] [] [] [] [] []]; vm_compute; (reflexivity || discriminate).
Qed.

Lemma map_chars_fixed f s :
  Forall (λ c, f c = c) (String.list_ascii_of_string s) → map_chars f s = s.
Proof.
  induction s as [|c s IH]; simpl; [done|].
  intros [Hc Hs]%Forall_cons. by rewrite Hc, IH.
Qed.

(** X29.  The text [convert_to_safe_case] returns holds only lower-case
    letters, digits, underscores and dots; a text that holds nothing else is
    returned as it is, and so converting a second time changes nothing. *)
Theorem convert_to_safe_case_spec text :
  let safe := convert_to_safe_case text in
  Forall (λ c, is_lower_safe_char c = true) (String.list_ascii_of_string safe)
  ∧ (Forall (λ c, is_lower_safe_char c = true)
       (String.list_ascii_of_string text) → safe = text)
  ∧ convert_to_safe_case safe = safe.
Proof.
  simpl.
  assert (Hsafe : Forall (λ c, is_lower_safe_char c = true)
            (String.list_ascii_of_string (convert_to_safe_case text))).
  { rewrite convert_to_safe_case_map, map_chars_chars.
    apply Forall_fmap, Forall_true. intros c. apply safe_char_safe. }
  assert (Hfix : ∀ t, Forall (λ c, is_lower_safe_char c = true)
                        (String.list_ascii_of_string t) →
                      convert_to_safe_case t = t).
  { intros t Ht. rewrite convert_to_safe_case_map. apply map_chars_fixed.
    eapply Forall_impl; [exact Ht|]. intros c. apply safe_char_fixed. }
  split; [done|]. split; [apply Hfix | by apply Hfix].
Qed.

(* ================================================================== *)
(** * Examples of the further properties *)

Lemma lines_in_view_Forall self :
  Forall (λ key, key.1 ∈ dict_keys (members_in_view self)
                 ∧ key.2 ∈ dict_keys (members_in_view self))
    (dict_keys (lines self)) →
  lines_in_view self.
Proof. intros H key Hkey. rewrite Forall_forall in H. by apply H. Qed.

(** ** Lines *)

(** On the saved chain a line from [1] dropped on [3] is added last and
    written to the table. *)
Lemma add_input_adds_one_line_witness :
  add_input 2 settings_saved "3" = Done settings_saved_added
  ∧ members_in_view settings_saved_added = members_in_view settings_saved
  ∧ (lines settings_saved_added = lines settings_saved
     ∨ ∃ nl,
         new_line settings_saved = Some nl
         ∧ lines settings_saved_added
           = lines settings_saved
             ++ [(("3", nl_input_member_id nl),
                  LineConfig "Message" (nl_looper nl))]
         ∧ new_line settings_saved_added = None
         ∧ saved_inputs settings_saved_added
           = match db_table settings_saved with
             | Some _ =>
                 saved_inputs settings_saved
                 ++ [get_config_inputs settings_saved_added]
             | None => saved_inputs settings_saved
             end).
Proof.
  assert (H : add_input 2 settings_saved "3" = Done settings_saved_added)
    by (vm_compute; reflexivity).
  split; [exact H|].
  exact (add_input_adds_one_line 2 settings_saved "3" settings_saved_added H).
Defined.

Lemma add_input_keeps_acyclic_witness :
  acyclic_lines settings_saved
  ∧ add_input 2 settings_saved "3" = Done settings_saved_added
  ∧ acyclic_lines settings_saved_added
  ∧ ∀ ins, ins ∈ saved_inputs settings_saved_added →
           ins ∈ saved_inputs settings_saved ∨ acyclic ins.
Proof.
  assert (Ha : acyclic_lines settings_saved)
    by (apply (acyclic_lines_ranked chain_rank); by_compute).
  assert (H : add_input 2 settings_saved "3" = Done settings_saved_added)
    by (vm_compute; reflexivity).
  split; [exact Ha|]. split; [exact H|].
  exact (add_input_keeps_acyclic 2 settings_saved "3" settings_saved_added Ha H).
Defined.

Lemma add_input_keeps_lines_in_view_witness :
  lines_in_view settings_saved
  ∧ add_input 2 settings_saved "3" = Done settings_saved_added
  ∧ lines_in_view settings_saved_added.
Proof.
  assert (Hv : lines_in_view settings_saved)
    by (apply lines_in_view_Forall; by_compute).
  assert (H : add_input 2 settings_saved "3" = Done settings_saved_added)
    by (vm_compute; reflexivity).
  split; [exact Hv|]. split; [exact H|].
  exact (add_input_keeps_lines_in_view 2 settings_saved "3"
           settings_saved_added Hv H).
Defined.

(** Taking the loop flag off the line [1 <- 3], which closes the cycle
    [1 <- 3 <- 2 <- 1], leaves the flag on. *)
Lemma input_settings_save_config_keeps_acyclic_witness :
  InputSettings.save_config 3 settings_loop ("1", "3")
    (LineConfig "Message" false)
  = Done settings_loop_edited
  ∧ dict_get (lines settings_loop_edited) ("1", "3")
    = Some (LineConfig "Message" true)
  ∧ acyclic_lines settings_loop_edited
  ∧ dict_keys (lines settings_loop_edited) = dict_keys (lines settings_loop).
Proof.
  assert (Ha : acyclic_lines settings_loop)
    by (apply (acyclic_lines_ranked chain_rank); by_compute).
  assert (H : InputSettings.save_config 3 settings_loop ("1", "3")
                (LineConfig "Message" false)
              = Done settings_loop_edited) by (vm_compute; reflexivity).
  assert (Hne : ("1", "3").1 ≠ ("1", "3").2) by (simpl; discriminate).
  destruct (input_settings_save_config_keeps_acyclic 3 settings_loop
              ("1", "3") (LineConfig "Message" false) settings_loop_edited
              Ha Hne H) as (Hacyc & Hkeys & _ & _).
  split; [exact H|]. split; [reflexivity|]. split; [exact Hacyc | exact Hkeys].
Defined.

Lemma load_inputs_get_config_inputs_witness :
  load_inputs (get_config_inputs (settings_chain false)) (settings_chain false)
  = settings_chain false.
Proof.
  apply (load_inputs_get_config_inputs (settings_chain false)).
  - by_compute.
  - repeat (constructor; [eexists; reflexivity|]). constructor.
Defined.

(** The second input names a source [8] that is not in view: the third
    input, between members that are in view, is not loaded either. *)
Lemma load_inputs_stops_at_missing_source_witness :
  load_inputs
    [ InputInfo "2" "1" "Message" false;
      InputInfo "9" "8" "Message" false;
      InputInfo "3" "2" "Message" false ] (settings_chain false)
  = load_inputs [ InputInfo "2" "1" "Message" false ] (settings_chain false).
Proof.
  apply (load_inputs_stops_at_missing_source (settings_chain false)
           [ InputInfo "2" "1" "Message" false ]
           (InputInfo "9" "8" "Message" false)
           [ InputInfo "3" "2" "Message" false ]).
  - repeat (constructor; [eexists; reflexivity|]). constructor.
  - intros m Hm. vm_compute in Hm. discriminate.
Defined.

(** Deleting member [2] of the chain takes both lines with it. *)
Lemma delete_selected_items_removes_lines_witness :
  delete_selected_items [MemberItem "2"] true (settings_chain false)
  = Done settings_deleted
  ∧ lines settings_deleted = []
  ∧ ("2" ∉ dict_keys (members_in_view settings_deleted))
  ∧ (∀ key, key ∈ dict_keys (lines settings_deleted) →
            key.1 ≠ "2" ∧ key.2 ≠ "2")
  ∧ members_in_view settings_deleted ⊆ members_in_view (settings_chain false)
  ∧ lines settings_deleted ⊆ lines (settings_chain false).
Proof.
  assert (H : delete_selected_items [MemberItem "2"] true (settings_chain false)
              = Done settings_deleted) by (vm_compute; reflexivity).
  split; [exact H|]. split; [reflexivity|].
  apply (delete_selected_items_removes_lines [MemberItem "2"]
           (settings_chain false) settings_deleted "2" H).
  left.
Defined.

Lemma delete_selected_items_keeps_lines_sound_witness :
  delete_selected_items [MemberItem "2"] true (settings_chain false)
  = Done settings_deleted
  ∧ lines_in_view settings_deleted ∧ acyclic_lines settings_deleted.
Proof.
  assert (H : delete_selected_items [MemberItem "2"] true (settings_chain false)
              = Done settings_deleted) by (vm_compute; reflexivity).
  split; [exact H|].
  apply (delete_selected_items_keeps_lines_sound [MemberItem "2"] true
           (settings_chain false) settings_deleted).
  - apply lines_in_view_Forall. by_compute.
  - apply (acyclic_lines_ranked chain_rank). by_compute.
  - exact H.
Defined.

(** ** The loaded scenario *)

Lemma load_members_boxes_disjoint_witness :
  load_members 8 (new_workflow scenario_config false) = Done scenario_loaded
  ∧ boxes scenario_loaded = [{[ "A" ]} ∪ {[ "B" ]}]
  ∧ boxes_disjoint (boxes scenario_loaded)
  ∧ (∀ b, b ∈ boxes scenario_loaded → b ≠ ∅)
  ∧ (∀ id box, get_member_async_group scenario_loaded id = Some box
               ↔ box ∈ boxes scenario_loaded ∧ id ∈ box).
Proof.
  assert (H : load_members 8 (new_workflow scenario_config false)
              = Done scenario_loaded) by (vm_compute; reflexivity).
  split; [exact H|]. split; [vm_compute; reflexivity|].
  apply (load_members_boxes_disjoint 8 (new_workflow scenario_config false)
           scenario_loaded); [by_compute | exact H].
Defined.


(** The agent [2] depends on a participant [9] that is not configured: the
    loop is still running after twenty passes. *)
Lemma load_members_unloadable_witness :
  unloadable dangling_config "2"
  ∧ load_members 20 (new_workflow dangling_config false) = OutOfFuel.
Proof.
  pose proof dangling_config_unloadable as Hbad.
  split; [exact Hbad|].
  apply (load_members_unloadable 20 (new_workflow dangling_config false) "2"
           Hbad).
  - by_compute.
  - apply dangling_config_never_raises.
Defined.

Lemma load_members_reload_witness :
  load_members 8 (new_workflow scenario_config false) = Done scenario_loaded
  ∧ load_members 8 scenario_loaded = Done scenario_loaded
  ∧ ∀ other, wf_config other = wf_config (new_workflow scenario_config false) →
      ∃ r, load_members 8 other = Done r
           ∧ members r = members scenario_loaded
           ∧ boxes r = boxes scenario_loaded
           ∧ chat_name r = chat_name scenario_loaded.
Proof.
  assert (H : load_members 8 (new_workflow scenario_config false)
              = Done scenario_loaded) by (vm_compute; reflexivity).
  split; [exact H|].
  exact (load_members_reload 8 (new_workflow scenario_config false)
           scenario_loaded H).
Defined.

Lemma load_members_wrapped_witness :
  load_members 8 (new_workflow agent_config false) = Done single_agent_loaded
  ∧ ∃ r',
      load_members 8
        (new_workflow (merge_config_into_workflow_config agent_config None)
           false)
      = Done r'
      ∧ members r' = members single_agent_loaded
      ∧ boxes r' = boxes single_agent_loaded
      ∧ chat_name r' = chat_name single_agent_loaded.
Proof.
  assert (H : load_members 8 (new_workflow agent_config false)
              = Done single_agent_loaded) by (vm_compute; reflexivity).
  split; [exact H|].
  apply (load_members_wrapped 8 agent_config false single_agent_loaded);
    [right; reflexivity | exact H].
Defined.

(** ** Turns *)

(** No member of the loaded single-agent document carries the id [9]. *)
Lemma receive_unknown_source_witness :
  let t := receive scripts_normal no_final_message root_member_id log_readable
             (Some "9") single_agent_loaded in
  t_out t = []
  ∧ members (t_self t) = members single_agent_loaded
  ∧ (has_parent single_agent_loaded = false →
     t = Turn (set_responding false (set_gen_members [] single_agent_loaded))
           [] exit_completed).
Proof.
  apply (receive_unknown_source scripts_normal no_final_message root_member_id
           log_readable "9" single_agent_loaded).
  - discriminate.
  - apply Forall_forall. by_compute.
Defined.

(** The human comes first in the loaded single-agent document: a turn
    started without a source stops after the human. *)
Lemma receive_stops_after_first_witness :
  head (dict_values (members single_agent_loaded)) = Some single_agent_human
  ∧ t_exit turn_paused = exit_paused
  ∧ t_exit turn_paused ≠ exit_completed
  ∧ ∀ y, y ∈ t_out turn_paused → y_member y = single_agent_human.
Proof.
  assert (Hhd : head (dict_values (members single_agent_loaded))
                = Some single_agent_human) by reflexivity.
  split; [exact Hhd|]. split; [vm_compute; reflexivity|].
  apply (receive_stops_after_first scripts_normal no_final_message
           root_member_id log_readable single_agent_human single_agent_loaded
           Hhd).
  right. by_compute.
Defined.

(** ** Fenced blocks *)

Lemma split_lang_and_code_fenced_witness :
  split_lang_and_code
    ("```" +:+ "python" +:+ String line_break "print(1)" +:+ "```")
  = Done (Some "python", "print(1)").
Proof. apply (split_lang_and_code_fenced "python" "print(1)"). by_compute. Defined.

Lemma split_lang_and_code_no_line_break_witness :
  split_lang_and_code "```" = Raised ValueError.
Proof.
  apply (split_lang_and_code_no_line_break "```");
    [reflexivity | reflexivity | by_compute].
Defined.

(** ** The groups of the scenario and the chat of a single agent *)

(** The group of [A] and [B], which depend on [U] only, is kept. *)
Lemma validate_boxes_keeps_independent_witness :
  load_members_grouping 8 (new_workflow scenario_config false)
  = Done scenario_grouped
  ∧ validate_boxes 8 scenario_grouped = Done scenario_validated
  ∧ ({[ "A" ]} ∪ {[ "B" ]} ∈ boxes scenario_validated
     ↔ {[ "A" ]} ∪ {[ "B" ]} ∈ boxes scenario_grouped
       ∧ ∀ a b, a ∈ ({[ "A" ]} ∪ {[ "B" ]} : gset string) →
                b ∈ ({[ "A" ]} ∪ {[ "B" ]} : gset string) →
                ¬ reaches (cfg_inputs scenario_config) a b).
Proof.
  assert (H1 : load_members_grouping 8 (new_workflow scenario_config false)
               = Done scenario_grouped) by (vm_compute; reflexivity).
  assert (H2 : validate_boxes 8 scenario_grouped = Done scenario_validated)
    by (vm_compute; reflexivity).
  split; [exact H1|]. split; [exact H2|].
  exact (validate_boxes_keeps_independent 8 (new_workflow scenario_config false)
           scenario_grouped 8 scenario_validated ({[ "A" ]} ∪ {[ "B" ]}) H1 H2).
Defined.

Lemma load_members_single_agent_witness :
  ∃ f0, ∀ f, f0 ≤ f →
    ∃ r, load_members f (new_workflow agent_config false) = Done r
         ∧ member_kinds r = [("1", "user"); ("2", "agent")]
         ∧ chat_name r = "Assistant".
Proof.
  exact (load_members_single_agent agent_config false eq_refl eq_refl).
Defined.

(** ** The two walks on the chain *)

(** From [3] both walks arrive at [1]. *)
Lemma walk_inputs_recursive_agree_witness :
  load_members 8 (new_workflow chain_config false) = Done chain_loaded
  ∧ walk_inputs_recursive 3 chain_loaded "3" {[ "1" ]} = Done true
  ∧ Settings.walk_inputs_recursive 3 (settings_chain false) "3"
      (elements ({[ "1" ]} : gset string))
    = Done true.
Proof.
  assert (H : load_members 8 (new_workflow chain_config false)
              = Done chain_loaded) by (vm_compute; reflexivity).
  assert (H1 : walk_inputs_recursive 3 chain_loaded "3" {[ "1" ]} = Done true)
    by (vm_compute; reflexivity).
  split; [exact H|]. split; [exact H1|].
  destruct (Settings.walk_inputs_recursive 3 (settings_chain false) "3"
              (elements ({[ "1" ]} : gset string))) as [b2| |] eqn:H2;
    [|vm_compute in H2; discriminate..].
  f_equal. symmetry.
  exact (walk_inputs_recursive_agree (settings_chain false)
           (new_workflow chain_config false) 8 chain_loaded 3 3 "3"
           {[ "1" ]} true b2 eq_refl H H1 H2).
Defined.

Lemma load_members_starts_fresh_witness :
  load_members 8 (new_workflow scenario_config false) = Done scenario_loaded
  ∧ next_expected_member scenario_loaded
    = head (get_members scenario_loaded None [])
  ∧ alt_turn_state
      (message_history (save_message scenario_loaded "user" "Hi" "U").1)
    = alt_turn_state (message_history scenario_loaded).
Proof.
  assert (H : load_members 8 (new_workflow scenario_config false)
              = Done scenario_loaded) by (vm_compute; reflexivity).
  destruct (load_members_starts_fresh 8 (new_workflow scenario_config false)
              scenario_loaded H) as (_ & Hnext & Hparity).
  split; [exact H|]. split; [exact Hnext|].
  apply Hparity. discriminate.
Defined.
